(** * TransactionFlow Analyser: schedule parser, conflict analyser,
      two-phase-locking analyser and lock manager.

    A shallow embedding of
      - src/lib/transaction-parser.ts        (parseSchedule and friends),
      - src/lib/conflict-analyzer.ts         (detectConflicts, buildPrecedenceGraph),
      - src/lib/two-phase-locking-analyzer.ts (analyzeBasic2PL ... analyzeScheduleFor2PL),
      - src/lib/lock-manager.ts              (class LockManager),
      - src/components/transaction-input-card.tsx (addOperation),
      - src/app/page.tsx                     (handleRunAnalysis),
    followed by the properties of the specification that concern them and
    by further properties of the code.

    Modelling conventions.
      - A JavaScript string is a [string] that holds its text in UTF-8: an
        ASCII character is one [ascii], any other code point is the two to
        four bytes of its encoding (a lone surrogate is encoded like any
        other code point).  [Unicode.decode] reads the code points of a
        [string]; a byte that begins no well-formed sequence is read as the
        code point of its own number, so that every [string] stands for a
        JavaScript string and [Unicode.encode] gives every JavaScript
        string a [string].
      - The string primitives that depend on the character ([\s], [trim],
        [toUpperCase], the normalising [replace] and [split]) work on the
        code points: white space is the WhiteSpace and LineTerminator
        productions of ECMAScript, and [toUpperCase] is the full
        locale-independent upper-case mapping of the Unicode Character
        Database (UnicodeData.txt and the unconditional entries of
        SpecialCasing.txt, version 14.0).  The regular expression of the
        parser names ASCII characters only and is matched on the bytes.
      - [step] of an operation is a natural number (an array index in the
        parser); local counters that start at -1 are integers ([Z]).
      - An optional field ([variable?: string]) is an [option string];
        JavaScript truthiness of such a value is [truthy].
      - [Map]s and [Record]s that are only read by key are [gmap]s, [Set]s are
        [gset]s; a [Map] that is iterated in insertion order is an
        association list.
      - The x/y layout coordinates of graph nodes are floating point numbers
        used for display only and are not part of the model. *)

From Stdlib Require Import Ascii String List ZArith Lia Bool Arith.
From Stdlib Require Import Numbers.DecimalString Numbers.DecimalNat Sorting.Sorted.
From stdpp Require Import base gmap strings list.

(* ===================================================================== *)
(** * Code points and their UTF-8 text *)
(* ===================================================================== *)

Module Unicode.

(** The code points: 0 to 0x10FFFF. *)
Definition valid (c : N) : bool := (c <? 0x110000)%N.

Definition byte (n : N) : ascii := ascii_of_N n.

(** The UTF-8 bytes of one code point. *)
Definition encode1 (c : N) : string :=
  if (c <? 0x80)%N then
    String (byte c) EmptyString
  else if (c <? 0x800)%N then
    String (byte (0xC0 + c / 0x40))
      (String (byte (0x80 + c mod 0x40)) EmptyString)
  else if (c <? 0x10000)%N then
    String (byte (0xE0 + c / 0x1000))
      (String (byte (0x80 + (c / 0x40) mod 0x40))
         (String (byte (0x80 + c mod 0x40)) EmptyString))
  else
    String (byte (0xF0 + c / 0x40000))
      (String (byte (0x80 + (c / 0x1000) mod 0x40))
         (String (byte (0x80 + (c / 0x40) mod 0x40))
            (String (byte (0x80 + c mod 0x40)) EmptyString))).

Fixpoint encode (l : list N) : string :=
  match l with
  | [] => EmptyString
  | c :: l' => encode1 c +:+ encode l'
  end.

(** The six payload bits of a continuation byte (0x80 to 0xBF). *)
Definition continuation (b : ascii) : option N :=
  let n := N_of_ascii b in
  if ((0x80 <=? n) && (n <? 0xC0))%N then Some (n - 0x80)%N else None.

(** The code points of a text.  A lead byte followed by the continuation
    bytes it announces is one code point; any other byte is read alone, as
    the code point of its number. *)
Fixpoint decode (s : string) : list N :=
  match s with
  | EmptyString => []
  | String b1 s1 =>
      let n1 := N_of_ascii b1 in
      let alone := n1 :: decode s1 in
      if (n1 <? 0xC0)%N then alone
      else
        match s1 with
        | EmptyString => alone
        | String b2 s2 =>
            match continuation b2 with
            | None => alone
            | Some x2 =>
                if (n1 <? 0xE0)%N then
                  ((n1 - 0xC0) * 0x40 + x2)%N :: decode s2
                else
                  match s2 with
                  | EmptyString => alone
                  | String b3 s3 =>
                      match continuation b3 with
                      | None => alone
                      | Some x3 =>
                          if (n1 <? 0xF0)%N then
                            ((n1 - 0xE0) * 0x1000 + x2 * 0x40 + x3)%N
                              :: decode s3
                          else
                            match s3 with
                            | EmptyString => alone
                            | String b4 s4 =>
                                match continuation b4 with
                                | None => alone
                                | Some x4 =>
                                    let c := ((n1 - 0xF0) * 0x40000
                                              + x2 * 0x1000 + x3 * 0x40 + x4)%N in
                                    if valid c then c :: decode s4 else alone
                                end
                            end
                      end
                  end
            end
        end
  end.

(** The UTF-16 code units of a code point: itself, or a surrogate pair. *)
Definition codeUnits1 (c : N) : list N :=
  if (c <? 0x10000)%N then [c]
  else [(0xD800 + (c - 0x10000) / 0x400)%N; (0xDC00 + (c - 0x10000) mod 0x400)%N].

(** The UTF-16 code units of a text. *)
Definition codeUnits (s : string) : list N := flat_map codeUnits1 (decode s).

(** A text without an ASCII byte. *)
Fixpoint highBytes (s : string) : bool :=
  match s with
  | EmptyString => true
  | String b s' => (0x80 <=? N_of_ascii b)%N && highBytes s'
  end.

Arguments encode1 : simpl never.
Arguments decode : simpl never.

End Unicode.

(* ===================================================================== *)
(** * JavaScript string primitives used by the parser *)
(* ===================================================================== *)

Module JS.
Import Unicode.

(** The WhiteSpace code points of ECMAScript: TAB, VT, FF, ZWNBSP and the
    space separators of Unicode (category Zs). *)
Definition whiteSpace : list N :=
  [0x9; 0xB; 0xC; 0xFEFF;
   0x20; 0xA0; 0x1680; 0x2000; 0x2001; 0x2002; 0x2003; 0x2004; 0x2005;
   0x2006; 0x2007; 0x2008; 0x2009; 0x200A; 0x202F; 0x205F; 0x3000]%N.

(** The LineTerminator code points: LF, CR, LS and PS. *)
Definition lineTerminator : list N := [0xA; 0xD; 0x2028; 0x2029]%N.

(** [\s] and the characters removed by [trim]. *)
Definition isSpace (c : N) : bool :=
  existsb (N.eqb c) (whiteSpace ++ lineTerminator).

(** The character class [[,;\s]] of the normalising [replace]. *)
Definition isSeparator (c : N) : bool :=
  (c =? 0x2C)%N || (c =? 0x3B)%N || isSpace c.

(** [\d]. *)
Definition isDigit (c : ascii) : bool :=
  match c with
  | "0" | "1" | "2" | "3" | "4" | "5" | "6" | "7" | "8" | "9" => true
  | _ => false
  end%char.

(** The code points with a one-to-one upper-case mapping, as runs
    (first, count, stride, upper-case of the first): the [k]-th code point
    of a run, [first + k * stride], maps to [upper + k * stride]. *)
Definition upperRuns : list (N * N * N * N) :=
  [
   (0x61, 26, 1, 0x41); (0xB5, 1, 1, 0x39C); (0xE0, 23, 1, 0xC0);
   (0xF8, 7, 1, 0xD8); (0xFF, 1, 1, 0x178); (0x101, 24, 2, 0x100);
   (0x131, 1, 1, 0x49); (0x133, 3, 2, 0x132); (0x13A, 8, 2, 0x139);
   (0x14B, 23, 2, 0x14A); (0x17A, 3, 2, 0x179); (0x17F, 1, 1, 0x53);
   (0x180, 1, 1, 0x243); (0x183, 2, 2, 0x182); (0x188, 1, 1, 0x187);
   (0x18C, 1, 1, 0x18B); (0x192, 1, 1, 0x191); (0x195, 1, 1, 0x1F6);
   (0x199, 1, 1, 0x198); (0x19A, 1, 1, 0x23D); (0x19E, 1, 1, 0x220);
   (0x1A1, 3, 2, 0x1A0); (0x1A8, 1, 1, 0x1A7); (0x1AD, 1, 1, 0x1AC);
   (0x1B0, 1, 1, 0x1AF); (0x1B4, 2, 2, 0x1B3); (0x1B9, 1, 1, 0x1B8);
   (0x1BD, 1, 1, 0x1BC); (0x1BF, 1, 1, 0x1F7); (0x1C5, 1, 1, 0x1C4);
   (0x1C6, 1, 1, 0x1C4); (0x1C8, 1, 1, 0x1C7); (0x1C9, 1, 1, 0x1C7);
   (0x1CB, 1, 1, 0x1CA); (0x1CC, 1, 1, 0x1CA); (0x1CE, 8, 2, 0x1CD);
   (0x1DD, 1, 1, 0x18E); (0x1DF, 9, 2, 0x1DE); (0x1F2, 1, 1, 0x1F1);
   (0x1F3, 1, 1, 0x1F1); (0x1F5, 1, 1, 0x1F4); (0x1F9, 20, 2, 0x1F8);
   (0x223, 9, 2, 0x222); (0x23C, 1, 1, 0x23B); (0x23F, 2, 1, 0x2C7E);
   (0x242, 1, 1, 0x241); (0x247, 5, 2, 0x246); (0x250, 1, 1, 0x2C6F);
   (0x251, 1, 1, 0x2C6D); (0x252, 1, 1, 0x2C70); (0x253, 1, 1, 0x181);
   (0x254, 1, 1, 0x186); (0x256, 2, 1, 0x189); (0x259, 1, 1, 0x18F);
   (0x25B, 1, 1, 0x190); (0x25C, 1, 1, 0xA7AB); (0x260, 1, 1, 0x193);
   (0x261, 1, 1, 0xA7AC); (0x263, 1, 1, 0x194); (0x265, 1, 1, 0xA78D);
   (0x266, 1, 1, 0xA7AA); (0x268, 1, 1, 0x197); (0x269, 1, 1, 0x196);
   (0x26A, 1, 1, 0xA7AE); (0x26B, 1, 1, 0x2C62); (0x26C, 1, 1, 0xA7AD);
   (0x26F, 1, 1, 0x19C); (0x271, 1, 1, 0x2C6E); (0x272, 1, 1, 0x19D);
   (0x275, 1, 1, 0x19F); (0x27D, 1, 1, 0x2C64); (0x280, 1, 1, 0x1A6);
   (0x282, 1, 1, 0xA7C5); (0x283, 1, 1, 0x1A9); (0x287, 1, 1, 0xA7B1);
   (0x288, 1, 1, 0x1AE); (0x289, 1, 1, 0x244); (0x28A, 2, 1, 0x1B1);
   (0x28C, 1, 1, 0x245); (0x292, 1, 1, 0x1B7); (0x29D, 1, 1, 0xA7B2);
   (0x29E, 1, 1, 0xA7B0); (0x345, 1, 1, 0x399); (0x371, 2, 2, 0x370);
   (0x377, 1, 1, 0x376); (0x37B, 3, 1, 0x3FD); (0x3AC, 1, 1, 0x386);
   (0x3AD, 3, 1, 0x388); (0x3B1, 17, 1, 0x391); (0x3C2, 1, 1, 0x3A3);
   (0x3C3, 9, 1, 0x3A3); (0x3CC, 1, 1, 0x38C); (0x3CD, 2, 1, 0x38E);
   (0x3D0, 1, 1, 0x392); (0x3D1, 1, 1, 0x398); (0x3D5, 1, 1, 0x3A6);
   (0x3D6, 1, 1, 0x3A0); (0x3D7, 1, 1, 0x3CF); (0x3D9, 12, 2, 0x3D8);
   (0x3F0, 1, 1, 0x39A); (0x3F1, 1, 1, 0x3A1); (0x3F2, 1, 1, 0x3F9);
   (0x3F3, 1, 1, 0x37F); (0x3F5, 1, 1, 0x395); (0x3F8, 1, 1, 0x3F7);
   (0x3FB, 1, 1, 0x3FA); (0x430, 32, 1, 0x410); (0x450, 16, 1, 0x400);
   (0x461, 17, 2, 0x460); (0x48B, 27, 2, 0x48A); (0x4C2, 7, 2, 0x4C1);
   (0x4CF, 1, 1, 0x4C0); (0x4D1, 48, 2, 0x4D0); (0x561, 38, 1, 0x531);
   (0x10D0, 43, 1, 0x1C90); (0x10FD, 3, 1, 0x1CBD); (0x13F8, 6, 1, 0x13F0);
   (0x1C80, 1, 1, 0x412); (0x1C81, 1, 1, 0x414); (0x1C82, 1, 1, 0x41E);
   (0x1C83, 2, 1, 0x421); (0x1C85, 1, 1, 0x422); (0x1C86, 1, 1, 0x42A);
   (0x1C87, 1, 1, 0x462); (0x1C88, 1, 1, 0xA64A); (0x1D79, 1, 1, 0xA77D);
   (0x1D7D, 1, 1, 0x2C63); (0x1D8E, 1, 1, 0xA7C6); (0x1E01, 75, 2, 0x1E00);
   (0x1E9B, 1, 1, 0x1E60); (0x1EA1, 48, 2, 0x1EA0); (0x1F00, 8, 1, 0x1F08);
   (0x1F10, 6, 1, 0x1F18); (0x1F20, 8, 1, 0x1F28); (0x1F30, 8, 1, 0x1F38);
   (0x1F40, 6, 1, 0x1F48); (0x1F51, 4, 2, 0x1F59); (0x1F60, 8, 1, 0x1F68);
   (0x1F70, 2, 1, 0x1FBA); (0x1F72, 4, 1, 0x1FC8); (0x1F76, 2, 1, 0x1FDA);
   (0x1F78, 2, 1, 0x1FF8); (0x1F7A, 2, 1, 0x1FEA); (0x1F7C, 2, 1, 0x1FFA);
   (0x1FB0, 2, 1, 0x1FB8); (0x1FBE, 1, 1, 0x399); (0x1FD0, 2, 1, 0x1FD8);
   (0x1FE0, 2, 1, 0x1FE8); (0x1FE5, 1, 1, 0x1FEC); (0x214E, 1, 1, 0x2132);
   (0x2170, 16, 1, 0x2160); (0x2184, 1, 1, 0x2183); (0x24D0, 26, 1, 0x24B6);
   (0x2C30, 48, 1, 0x2C00); (0x2C61, 1, 1, 0x2C60); (0x2C65, 1, 1, 0x23A);
   (0x2C66, 1, 1, 0x23E); (0x2C68, 3, 2, 0x2C67); (0x2C73, 1, 1, 0x2C72);
   (0x2C76, 1, 1, 0x2C75); (0x2C81, 50, 2, 0x2C80); (0x2CEC, 2, 2, 0x2CEB);
   (0x2CF3, 1, 1, 0x2CF2); (0x2D00, 38, 1, 0x10A0); (0x2D27, 1, 1, 0x10C7);
   (0x2D2D, 1, 1, 0x10CD); (0xA641, 23, 2, 0xA640); (0xA681, 14, 2, 0xA680);
   (0xA723, 7, 2, 0xA722); (0xA733, 31, 2, 0xA732); (0xA77A, 2, 2, 0xA779);
   (0xA77F, 5, 2, 0xA77E); (0xA78C, 1, 1, 0xA78B); (0xA791, 2, 2, 0xA790);
   (0xA794, 1, 1, 0xA7C4); (0xA797, 10, 2, 0xA796); (0xA7B5, 8, 2, 0xA7B4);
   (0xA7C8, 2, 2, 0xA7C7); (0xA7D1, 1, 1, 0xA7D0); (0xA7D7, 2, 2, 0xA7D6);
   (0xA7F6, 1, 1, 0xA7F5); (0xAB53, 1, 1, 0xA7B3); (0xAB70, 80, 1, 0x13A0);
   (0xFF41, 26, 1, 0xFF21); (0x10428, 40, 1, 0x10400);
   (0x104D8, 36, 1, 0x104B0); (0x10597, 11, 1, 0x10570);
   (0x105A3, 15, 1, 0x1057C); (0x105B3, 7, 1, 0x1058C);
   (0x105BB, 2, 1, 0x10594); (0x10CC0, 51, 1, 0x10C80);
   (0x118C0, 32, 1, 0x118A0); (0x16E60, 32, 1, 0x16E40);
   (0x1E922, 34, 1, 0x1E900)
  ]%N.

(** The code points whose upper-case form is more than one code point. *)
Definition specialUpper : list (N * list N) :=
  [
   (0xDF, [0x53; 0x53]); (0x149, [0x2BC; 0x4E]); (0x1F0, [0x4A; 0x30C]);
   (0x390, [0x399; 0x308; 0x301]); (0x3B0, [0x3A5; 0x308; 0x301]);
   (0x587, [0x535; 0x552]); (0x1E96, [0x48; 0x331]); (0x1E97, [0x54; 0x308]);
   (0x1E98, [0x57; 0x30A]); (0x1E99, [0x59; 0x30A]); (0x1E9A, [0x41; 0x2BE]);
   (0x1F50, [0x3A5; 0x313]); (0x1F52, [0x3A5; 0x313; 0x300]);
   (0x1F54, [0x3A5; 0x313; 0x301]); (0x1F56, [0x3A5; 0x313; 0x342]);
   (0x1F80, [0x1F08; 0x399]); (0x1F81, [0x1F09; 0x399]);
   (0x1F82, [0x1F0A; 0x399]); (0x1F83, [0x1F0B; 0x399]);
   (0x1F84, [0x1F0C; 0x399]); (0x1F85, [0x1F0D; 0x399]);
   (0x1F86, [0x1F0E; 0x399]); (0x1F87, [0x1F0F; 0x399]);
   (0x1F88, [0x1F08; 0x399]); (0x1F89, [0x1F09; 0x399]);
   (0x1F8A, [0x1F0A; 0x399]); (0x1F8B, [0x1F0B; 0x399]);
   (0x1F8C, [0x1F0C; 0x399]); (0x1F8D, [0x1F0D; 0x399]);
   (0x1F8E, [0x1F0E; 0x399]); (0x1F8F, [0x1F0F; 0x399]);
   (0x1F90, [0x1F28; 0x399]); (0x1F91, [0x1F29; 0x399]);
   (0x1F92, [0x1F2A; 0x399]); (0x1F93, [0x1F2B; 0x399]);
   (0x1F94, [0x1F2C; 0x399]); (0x1F95, [0x1F2D; 0x399]);
   (0x1F96, [0x1F2E; 0x399]); (0x1F97, [0x1F2F; 0x399]);
   (0x1F98, [0x1F28; 0x399]); (0x1F99, [0x1F29; 0x399]);
   (0x1F9A, [0x1F2A; 0x399]); (0x1F9B, [0x1F2B; 0x399]);
   (0x1F9C, [0x1F2C; 0x399]); (0x1F9D, [0x1F2D; 0x399]);
   (0x1F9E, [0x1F2E; 0x399]); (0x1F9F, [0x1F2F; 0x399]);
   (0x1FA0, [0x1F68; 0x399]); (0x1FA1, [0x1F69; 0x399]);
   (0x1FA2, [0x1F6A; 0x399]); (0x1FA3, [0x1F6B; 0x399]);
   (0x1FA4, [0x1F6C; 0x399]); (0x1FA5, [0x1F6D; 0x399]);
   (0x1FA6, [0x1F6E; 0x399]); (0x1FA7, [0x1F6F; 0x399]);
   (0x1FA8, [0x1F68; 0x399]); (0x1FA9, [0x1F69; 0x399]);
   (0x1FAA, [0x1F6A; 0x399]); (0x1FAB, [0x1F6B; 0x399]);
   (0x1FAC, [0x1F6C; 0x399]); (0x1FAD, [0x1F6D; 0x399]);
   (0x1FAE, [0x1F6E; 0x399]); (0x1FAF, [0x1F6F; 0x399]);
   (0x1FB2, [0x1FBA; 0x399]); (0x1FB3, [0x391; 0x399]);
   (0x1FB4, [0x386; 0x399]); (0x1FB6, [0x391; 0x342]);
   (0x1FB7, [0x391; 0x342; 0x399]); (0x1FBC, [0x391; 0x399]);
   (0x1FC2, [0x1FCA; 0x399]); (0x1FC3, [0x397; 0x399]);
   (0x1FC4, [0x389; 0x399]); (0x1FC6, [0x397; 0x342]);
   (0x1FC7, [0x397; 0x342; 0x399]); (0x1FCC, [0x397; 0x399]);
   (0x1FD2, [0x399; 0x308; 0x300]); (0x1FD3, [0x399; 0x308; 0x301]);
   (0x1FD6, [0x399; 0x342]); (0x1FD7, [0x399; 0x308; 0x342]);
   (0x1FE2, [0x3A5; 0x308; 0x300]); (0x1FE3, [0x3A5; 0x308; 0x301]);
   (0x1FE4, [0x3A1; 0x313]); (0x1FE6, [0x3A5; 0x342]);
   (0x1FE7, [0x3A5; 0x308; 0x342]); (0x1FF2, [0x1FFA; 0x399]);
   (0x1FF3, [0x3A9; 0x399]); (0x1FF4, [0x38F; 0x399]);
   (0x1FF6, [0x3A9; 0x342]); (0x1FF7, [0x3A9; 0x342; 0x399]);
   (0x1FFC, [0x3A9; 0x399]); (0xFB00, [0x46; 0x46]); (0xFB01, [0x46; 0x49]);
   (0xFB02, [0x46; 0x4C]); (0xFB03, [0x46; 0x46; 0x49]);
   (0xFB04, [0x46; 0x46; 0x4C]); (0xFB05, [0x53; 0x54]);
   (0xFB06, [0x53; 0x54]); (0xFB13, [0x544; 0x546]); (0xFB14, [0x544; 0x535]);
   (0xFB15, [0x544; 0x53B]); (0xFB16, [0x54E; 0x546]);
   (0xFB17, [0x544; 0x53D])
  ]%N.

Definition runEntries (run : N * N * N * N) : list (N * list N) :=
  let '(first, count, stride, upper) := run in
  map (fun k => let d := (N.of_nat k * stride)%N in
                ((first + d)%N, [(upper + d)%N]))
      (seq 0 (N.to_nat count)).

(** The upper-case mapping as a table: a code point and its upper-case
    form. *)
Definition upperTable : list (N * list N) :=
  specialUpper ++ flat_map runEntries upperRuns.

Fixpoint lookup (c : N) (table : list (N * list N)) : option (list N) :=
  match table with
  | [] => None
  | (k, u) :: table' => if (k =? c)%N then Some u else lookup c table'
  end.

(** The upper-case form of one code point; a code point without a mapping
    is its own upper-case form. *)
Definition upperCodePoint (c : N) : list N :=
  match lookup c upperTable with
  | Some u => u
  | None => [c]
  end.

Arguments upperCodePoint : simpl never.
Arguments isSpace : simpl never.
Arguments isSeparator : simpl never.

(** The primitives on the code points of a string. *)
Module CodePoints.

Definition toUpperCase (l : list N) : list N := flat_map upperCodePoint l.

Fixpoint trimStart (l : list N) : list N :=
  match l with
  | [] => []
  | c :: l' => if isSpace c then trimStart l' else l
  end.

Fixpoint trimEnd (l : list N) : list N :=
  match l with
  | [] => []
  | c :: l' =>
      match trimEnd l' with
      | [] => if isSpace c then [] else [c]
      | r => c :: r
      end
  end.

Definition trim (l : list N) : list N := trimEnd (trimStart l).

(** Every maximal run of separator characters becomes one semicolon.
    [inRun] tells that the previous character belonged to the run being
    replaced. *)
Fixpoint replaceRuns (inRun : bool) (l : list N) : list N :=
  match l with
  | [] => []
  | c :: l' =>
      if isSeparator c
      then (if inRun then replaceRuns true l'
            else 0x3B%N :: replaceRuns true l')
      else c :: replaceRuns false l'
  end.

(** The pieces between the occurrences of [sep]; the empty string splits
    into one empty piece. *)
Fixpoint split (sep : N) (l : list N) : list (list N) :=
  match l with
  | [] => [[]]
  | c :: l' =>
      if (c =? sep)%N then [] :: split sep l'
      else match split sep l' with
           | piece :: pieces => (c :: piece) :: pieces
           | [] => [[c]]
           end
  end.

End CodePoints.

(** [String.prototype.toUpperCase]. *)
Definition toUpperCase (s : string) : string :=
  encode (CodePoints.toUpperCase (decode s)).

(** [String.prototype.trim]. *)
Definition trim (s : string) : string := encode (CodePoints.trim (decode s)).

(** [s.replace(/[,;\s]+/g, ';')]. *)
Definition replaceSeparators (s : string) : string :=
  encode (CodePoints.replaceRuns false (decode s)).

(** [s.split(sep)] for a one-character separator. *)
Definition split (sep : ascii) (s : string) : list string :=
  map encode (CodePoints.split (N_of_ascii sep) (decode s)).

(** The order of strings: the first code unit that differs decides, and a
    proper prefix comes first. *)
Fixpoint unitsLeb (a b : list N) : bool :=
  match a, b with
  | [], _ => true
  | _ :: _, [] => false
  | x :: a', y :: b' =>
      if (x <? y)%N then true
      else if (y <? x)%N then false
      else unitsLeb a' b'
  end.

(** [a <= b] on strings. *)
Definition leb (a b : string) : bool := unitsLeb (codeUnits a) (codeUnits b).

(** Truthiness of a string and of an optional string. *)
Definition nonEmpty (s : string) : bool :=
  match s with EmptyString => false | _ => true end.

Definition truthy (v : option string) : bool :=
  match v with Some s => nonEmpty s | None => false end.

(** A number in a template literal. *)
Definition showNat (n : nat) : string := NilEmpty.string_of_uint (Nat.to_uint n).

Definition showZ (z : Z) : string := NilEmpty.string_of_int (Z.to_int z).

(** An optional string in a template literal. *)
Definition showOpt (v : option string) : string :=
  match v with Some s => s | None => "undefined" end.

(** [a === b] on optional strings. *)
Definition optEqb (a b : option string) : bool :=
  match a, b with
  | Some x, Some y => String.eqb x y
  | None, None => true
  | _, _ => false
  end.

End JS.

(* ===================================================================== *)
(** * Data model (src/types/transaction-analyzer.ts) *)
(* ===================================================================== *)

Inductive OperationType := R | W | C | A.

Record Operation := mkOperation {
  id : string;
  type : OperationType;
  transactionId : string;
  variable : option string;
  originalString : string;
  step : nat
}.

Record Transaction := mkTransaction {
  tx_id : string;
  tx_operations : list Operation;
  tx_summary : option string
}.

Inductive ConflictType := RW | WR | WW.

Record Conflict := mkConflict {
  op1 : Operation;
  op2 : Operation;
  conflictType : ConflictType;
  conflictVariable : string
}.

Definition OperationType_eqb (a b : OperationType) : bool :=
  match a, b with
  | R, R | W, W | C, C | A, A => true
  | _, _ => false
  end.

Definition showType (t : OperationType) : string :=
  match t with R => "R" | W => "W" | C => "C" | A => "A" end.

(* ===================================================================== *)
(** * src/lib/transaction-parser.ts *)
(* ===================================================================== *)

Module Parser.
Import JS.

(** The longest prefix of characters satisfying [p], and the rest. *)
Fixpoint span (p : ascii -> bool) (s : string) : string * string :=
  match s with
  | EmptyString => (EmptyString, EmptyString)
  | String c s' =>
      if p c then let (a, b) := span p s' in (String c a, b)
      else (EmptyString, s)
  end.

Definition typeOfChar (c : ascii) : option OperationType :=
  match c with
  | "R" => Some R | "W" => Some W | "C" => Some C | "A" => Some A
  | _ => None
  end%char.

Definition notRParen (c : ascii) : bool := negb (Ascii.eqb c ")"%char).

(** [opStr.match(/^([RWCA])(\d+)(?:\(([^)]+)\))?$/)]: the groups 1, 2 and 3
    of a match.  [\d+] can only stop where no digit follows, so it takes
    the whole run of digits; the optional group, when present, is the
    whole rest of the string. *)
Definition matchOperation (opStr : string)
  : option (OperationType * string * option string) :=
  match opStr with
  | EmptyString => None
  | String c rest =>
      match typeOfChar c with
      | None => None
      | Some ty =>
          let (digits, tail) := span isDigit rest in
          if nonEmpty digits then
            match tail with
            | EmptyString => Some (ty, digits, None)
            | String "("%char inner =>
                let (name, close) := span notRParen inner in
                if nonEmpty name && String.eqb close ")"
                then Some (ty, digits, Some name)
                else None
            | String _ _ => None
            end
          else None
      end
  end.

(** The tokens the [forEach] runs over. *)
Definition opStrings (scheduleString : string) : list string :=
  List.filter (fun op => nonEmpty (trim op))
    (split ";"%char (replaceSeparators (trim scheduleString))).

(** The body of the [forEach], from position [index] on. *)
Fixpoint parseTokens (index : nat) (tokens : list string) : list Operation :=
  match tokens with
  | [] => []
  | tok :: rest =>
      let opStr := toUpperCase (trim tok) in
      match matchOperation opStr with
      | Some (ty, transactionNum, var) =>
          {| id := opStr +:+ "-" +:+ showNat index;
             type := ty;
             transactionId := "T" +:+ transactionNum;
             variable := var;
             originalString := opStr;
             step := index |} :: parseTokens (S index) rest
      | None => parseTokens (S index) rest
      end
  end.

Definition parseSchedule (scheduleString : string) : list Operation :=
  if nonEmpty (trim scheduleString)
  then parseTokens 0 (opStrings scheduleString)
  else [].



(** [generateTransactionSummary]. *)
Definition countType (t : OperationType) (tid : string) (ops : list Operation) : nat :=
  length (List.filter
            (fun op => String.eqb (transactionId op) tid && OperationType_eqb (type op) t)
            ops).

Definition plural (n : nat) : string := if (1 <? n)%nat then "s" else EmptyString.

Fixpoint join (sep : string) (parts : list string) : string :=
  match parts with
  | [] => EmptyString
  | [p] => p
  | p :: rest => p +:+ sep +:+ join sep rest
  end.

Definition generateTransactionSummary (tid : string) (ops : list Operation) : string :=
  let reads := countType R tid ops in
  let writes := countType W tid ops in
  let commits := countType C tid ops in
  let aborts := countType A tid ops in
  let parts :=
    (if (0 <? reads)%nat then [showNat reads +:+ " Read" +:+ plural reads] else [])
    ++ (if (0 <? writes)%nat then [showNat writes +:+ " Write" +:+ plural writes] else []) in
  let hasParts := (0 <? length parts)%nat in
  let summary :=
    (tid +:+ ": ") +:+ (if hasParts then join ", " parts else "No R/W operations") in
  if (0 <? commits)%nat then summary +:+ (if hasParts then ", " else EmptyString) +:+ "Commits"
  else if (0 <? aborts)%nat then summary +:+ (if hasParts then ", " else EmptyString) +:+ "Aborts"
  else summary +:+ (if hasParts then "." else ", No Commit/Abort").

(** The insertion-ordered [transactionsMap]: a transaction is created at
    the first operation that names it and every operation is pushed onto
    its transaction. *)
Fixpoint pushOperation (op : Operation) (m : list (string * list Operation))
  : list (string * list Operation) :=
  match m with
  | [] => [(transactionId op, [op])]
  | (k, ops) :: m' =>
      if String.eqb k (transactionId op) then (k, ops ++ [op]) :: m'
      else (k, ops) :: pushOperation op m'
  end.

Definition groupOperationsByTransaction (operations : list Operation)
  : list Transaction :=
  map (fun '(k, ops) =>
         {| tx_id := k; tx_operations := ops;
            tx_summary := Some (generateTransactionSummary k ops) |})
      (fold_left (fun m op => pushOperation op m) operations []).

(** [new Set(...)] keeps the first occurrence of every element. *)
Fixpoint dedup (seen : list string) (l : list string) : list string :=
  match l with
  | [] => []
  | x :: l' =>
      if existsb (String.eqb x) seen then dedup seen l'
      else x :: dedup (x :: seen) l'
  end.

(** [Array.prototype.sort] without a comparator: ascending by code unit,
    as an insertion sort. *)
Fixpoint insertSorted (x : string) (l : list string) : list string :=
  match l with
  | [] => [x]
  | y :: l' => if leb x y then x :: l else y :: insertSorted x l'
  end.

Definition sortStrings (l : list string) : list string :=
  fold_right insertSorted [] l.

Definition getUniqueTransactionIds (operations : list Operation) : list string :=
  sortStrings (dedup [] (map transactionId operations)).

Definition getUniqueVariableNames (operations : list Operation) : list string :=
  sortStrings
    (dedup [] (omap (fun op => if truthy (variable op) then variable op else None)
                    operations)).

End Parser.

(* ===================================================================== *)
(** * The token sequence of a schedule, in the words of the specification *)
(* ===================================================================== *)

Module TokenSpec.
Import Unicode JS.

(** The pieces of a string between the characters that satisfy [p]. *)
Fixpoint splitOn (p : N -> bool) (l : list N) : list (list N) :=
  match l with
  | [] => [[]]
  | c :: l' =>
      if p c then [] :: splitOn p l'
      else match splitOn p l' with
           | piece :: pieces => (c :: piece) :: pieces
           | [] => [[c]]
           end
  end.

Definition notNil (l : list N) : bool :=
  match l with [] => false | _ => true end.

(** The tokens as lists of code points. *)
Definition tokens (l : list N) : list (list N) :=
  List.filter notNil (splitOn isSeparator l).

(** "The input split on any mix of commas, semicolons, and whitespace, with
    empty tokens discarded." *)
Definition normalizedTokens (s : string) : list string :=
  map encode (tokens (decode s)).

(** Code points none of which is a separator. *)
Definition separatorFree (l : list N) : bool :=
  forallb (fun c => negb (isSeparator c)) l.

(** The tokens with their 0-based positions, counted from [start]. *)
Definition positioned (start : nat) (toks : list string) : list (nat * string) :=
  combine (seq start (length toks)) toks.

(** A token "matches the grammar" when, upper-cased, it matches the regular
    expression of the parser. *)
Definition matchesGrammar (tok : string) : bool :=
  match Parser.matchOperation (toUpperCase tok) with
  | Some _ => true
  | None => false
  end.

End TokenSpec.

(* ===================================================================== *)
(** * src/lib/conflict-analyzer.ts *)
(* ===================================================================== *)

Record GraphNode := mkGraphNode {
  node_id : string;
  node_label : string
}.

Record GraphEdge := mkGraphEdge {
  source : string;
  target : string;
  label : string;
  isCycleEdge : option bool
}.

Record PrecedenceGraph := mkPrecedenceGraph {
  nodes : list GraphNode;
  edges : list GraphEdge;
  isSerializable : bool;
  cycleEdges : list GraphEdge
}.

Module ConflictAnalyzer.
Import JS.

(** The three [if]s that set [conflictType]. *)
Definition classify (t1 t2 : OperationType) : option ConflictType :=
  match t1, t2 with
  | R, W => Some RW
  | W, R => Some WR
  | W, W => Some WW
  | _, _ => None
  end.

(** The body of the inner loop for one pair: the conflict pushed, if any. *)
Definition conflictOfPair (o1 o2 : Operation) : option Conflict :=
  match variable o1 with
  | Some v =>
      if negb (String.eqb (transactionId o1) (transactionId o2))
         && nonEmpty v
         && optEqb (variable o1) (variable o2)
         && (OperationType_eqb (type o1) W || OperationType_eqb (type o2) W)
         && (step o1 <? step o2)%nat
      then match classify (type o1) (type o2) with
           | Some ct =>
               Some {| op1 := o1; op2 := o2; conflictType := ct; conflictVariable := v |}
           | None => None
           end
      else None
  | None => None
  end.

(** An array with its indices. *)
Definition indexed {X} (l : list X) : list (nat * X) := combine (seq 0 (length l)) l.

Definition detectConflicts (operations : list Operation) : list Conflict :=
  flat_map
    (fun '(i, o1) =>
       flat_map
         (fun '(j, o2) =>
            if (i =? j)%nat then [] else option_list (conflictOfPair o1 o2))
         (indexed operations))
    (indexed operations).

Definition showConflictType (t : ConflictType) : string :=
  match t with RW => "RW" | WR => "WR" | WW => "WW" end.

Definition edgeKey (s t : string) : string := s +:+ "->" +:+ t.

Definition edgeOfConflict (c : Conflict) : GraphEdge :=
  {| source := transactionId (op1 c);
     target := transactionId (op2 c);
     label := showConflictType (conflictType c) +:+ "(" +:+ conflictVariable c +:+ ")";
     isCycleEdge := None |}.

(** One step of the [uniqueEdgesMap] loop: a new key is appended, an
    existing key has the label of its edge extended. *)
Fixpoint mergeEdge (edge : GraphEdge) (m : list (string * GraphEdge))
  : list (string * GraphEdge) :=
  match m with
  | [] => [(edgeKey (source edge) (target edge), edge)]
  | (k, e) :: m' =>
      if String.eqb k (edgeKey (source edge) (target edge))
      then (k, {| source := source e; target := target e;
                  label := label e +:+ ", " +:+ label edge;
                  isCycleEdge := isCycleEdge e |}) :: m'
      else (k, e) :: mergeEdge edge m'
  end.

Definition uniqueEdges (es : list GraphEdge) : list GraphEdge :=
  map snd (fold_left (fun m e => mergeEdge e m) es []).

(** The adjacency map of [detectCycle]. *)
Definition pushTarget (adj : gmap string (list string)) (e : GraphEdge)
  : gmap string (list string) :=
  match adj !! source e with
  | Some ts => <[source e := ts ++ [target e]]> adj
  | None => adj
  end.

Definition adjacency (ns : list string) (es : list GraphEdge)
  : gmap string (list string) :=
  fold_left pushTarget es (fold_left (fun adj n => <[n := []]> adj) ns ∅).

(** The three mutable structures shared by all calls of [dfs]. *)
Record DfsState := mkDfsState {
  visited : gset string;
  recursionStack : gset string;
  path : list string
}.

(** The loop of [dfs] over the neighbours of [node]; [recurse] is the
    recursive call.  The result is the returned boolean and the state the
    call leaves behind. *)
Fixpoint visitNeighbors (recurse : string -> DfsState -> option (bool * DfsState))
    (node : string) (neighbors : list string) (st : DfsState)
  : option (bool * DfsState) :=
  match neighbors with
  | [] =>
      Some (false, {| visited := visited st;
                      recursionStack := recursionStack st ∖ {[node]};
                      path := path st |})
  | neighbor :: rest =>
      if decide (neighbor ∈ visited st) then
        if decide (neighbor ∈ recursionStack st) then
          Some (true, {| visited := visited st;
                         recursionStack := recursionStack st;
                         path := path st ++ [neighbor] |})
        else visitNeighbors recurse node rest st
      else
        match recurse neighbor st with
        | Some (true, st') => Some (true, st')
        | Some (false, st') => visitNeighbors recurse node rest st'
        | None => None
        end
  end.

(** [dfs]; [fuel] bounds the depth of the recursion, and [None] is a
    recursion cut short (see [detectCycle_total]: it does not happen with
    the fuel that [detectCycle] provides). *)
Fixpoint dfs (fuel : nat) (adj : gmap string (list string))
    (node : string) (st : DfsState) : option (bool * DfsState) :=
  match fuel with
  | O => None
  | S fuel' =>
      visitNeighbors (dfs fuel' adj) node (default [] (adj !! node))
        {| visited := {[node]} ∪ visited st;
           recursionStack := {[node]} ∪ recursionStack st;
           path := path st ++ [node] |}
  end.

(** The index of the first [i < bound] with [p !! i = Some x]. *)
Fixpoint firstIndex (x : string) (p : list string) (i bound : nat) : option nat :=
  match p with
  | [] => None
  | y :: p' =>
      if (i <? bound)%nat then
        if String.eqb y x then Some i else firstIndex x p' (S i) bound
      else None
  end.

(** [path.slice(a, b)]. *)
Definition slice {X} (l : list X) (a b : nat) : list X := take (b - a) (drop a l).

(** The reconstruction of the cycle from the recorded path. *)
Definition cycleOfPath (p : list string) : list string :=
  match last p with
  | Some cycleStartNode =>
      match firstIndex cycleStartNode p 0 (length p - 1) with
      | Some cycleStartIndex => slice p cycleStartIndex (length p - 1)
      | None => [cycleStartNode]
      end
  | None => []
  end.

(** The loop of [detectCycle] over the nodes. *)
Fixpoint detectCycleFrom (fuel : nat) (adj : gmap string (list string))
    (ns : list string) (st : DfsState) : option (bool * list string) :=
  match ns with
  | [] => Some (false, [])
  | node :: rest =>
      if decide (node ∈ visited st) then detectCycleFrom fuel adj rest st
      else match dfs fuel adj node st with
           | Some (true, st') => Some (true, cycleOfPath (path st'))
           | Some (false, st') => detectCycleFrom fuel adj rest st'
           | None => None
           end
  end.

(** Every call of [dfs] marks a node that was not visited before, and
    only nodes and edge targets are ever reached. *)
Definition dfsFuel (ns : list string) (es : list GraphEdge) : nat :=
  S (length ns + length es).

Definition detectCycle (ns : list string) (es : list GraphEdge)
  : option (bool * list string) :=
  detectCycleFrom (dfsFuel ns es) (adjacency ns es) ns
    {| visited := ∅; recursionStack := ∅; path := [] |}.

(** The keys added to [cycleEdgeKeys]. *)
Fixpoint consecutiveKeys (p : list string) : list string :=
  match p with
  | a :: ((b :: _) as p') => edgeKey a b :: consecutiveKeys p'
  | _ => []
  end.

Definition cycleEdgeKeys (hasCycle : bool) (cyclePath : list string) : list string :=
  if hasCycle then
    consecutiveKeys cyclePath
    ++ [edgeKey (showOpt (last cyclePath)) (showOpt (head cyclePath))]
  else [].

Definition buildPrecedenceGraph (transactionIds : list string)
    (conflicts : list Conflict) : option PrecedenceGraph :=
  let ns := map (fun i => {| node_id := i; node_label := i |}) transactionIds in
  let unique := uniqueEdges (map edgeOfConflict conflicts) in
  match detectCycle transactionIds unique with
  | None => None
  | Some (hasCycle, cyclePath) =>
      let keys := cycleEdgeKeys hasCycle cyclePath in
      let finalEdges :=
        map (fun e =>
               {| source := source e; target := target e; label := label e;
                  isCycleEdge :=
                    Some (existsb (String.eqb (edgeKey (source e) (target e))) keys) |})
            unique in
      let cycleActualEdges :=
        List.filter (fun e => bool_decide (isCycleEdge e = Some true)) finalEdges in
      Some {| nodes := ns; edges := finalEdges;
              isSerializable := negb hasCycle; cycleEdges := cycleActualEdges |}
  end.

End ConflictAnalyzer.

(* ===================================================================== *)
(** * src/lib/two-phase-locking-analyzer.ts *)
(* ===================================================================== *)

Record LockPhaseEvent := mkLockPhaseEvent {
  ev_step : Z;
  opString : string;
  action : string;
  phase : string
}.

Record TransactionCompliance := mkTransactionCompliance {
  basic2PL : bool;
  strict2PL : bool;
  rigorous2PL : bool;
  conservative2PL : bool;
  lockPhaseEvents : list LockPhaseEvent
}.

Record ScheduleAnalysisReport := mkScheduleAnalysisReport {
  transactionCompliance : gmap string TransactionCompliance;
  isCascadeless : bool;
  allowsCascadingAborts : bool
}.

Module TwoPL.
Import JS.

(** [ops.sort((a, b) => a.step - b.step)]: a stable sort by step. *)
Fixpoint insertByStep (x : Operation) (l : list Operation) : list Operation :=
  match l with
  | [] => [x]
  | y :: l' => if (step x <=? step y)%nat then x :: l else y :: insertByStep x l'
  end.

Definition sortByStep (l : list Operation) : list Operation :=
  fold_right insertByStep [] l.

Definition getTransactionOperations (allOps : list Operation) (txId : string)
  : list Operation :=
  sortByStep (List.filter (fun op => String.eqb (transactionId op) txId) allOps).

Definition getOperationsByTransactionMap (allOps : list Operation)
  : gmap string (list Operation) :=
  sortByStep <$>
    fold_left
      (fun m op => <[transactionId op := default [] (m !! transactionId op) ++ [op]]> m)
      allOps ∅.

Definition isAccess (t : OperationType) : bool :=
  match t with R | W => true | _ => false end.

Definition isTermination (t : OperationType) : bool :=
  match t with C | A => true | _ => false end.

(** The local variable [phase] of [analyzeBasic2PL]. *)
Inductive Phase := growing | shrinking.

Definition showPhase (p : Phase) : string :=
  match p with growing => "growing" | shrinking => "shrinking" end.

Definition lockName (t : OperationType) : string :=
  match t with W => "X" | _ => "S" end.

(** [txOps.findLast(p)]. *)
Definition findLast {X} (p : X -> bool) (l : list X) : option X :=
  List.find p (rev l).

(** Apply [f] to the first element satisfying [p]. *)
Fixpoint updateFirst {X} (p : X -> bool) (f : X -> X) (l : list X) : list X :=
  match l with
  | [] => []
  | x :: l' => if p x then f x :: l' else x :: updateFirst p f l'
  end.

(** Apply [f] to the last element satisfying [p]. *)
Definition updateLast {X} (p : X -> bool) (f : X -> X) (l : list X) : list X :=
  rev (updateFirst p f (rev l)).

Definition setPhase (ph : string) (e : LockPhaseEvent) : LockPhaseEvent :=
  {| ev_step := ev_step e; opString := opString e; action := action e; phase := ph |}.

Definition appendAction (txt : string) (e : LockPhaseEvent) : LockPhaseEvent :=
  {| ev_step := ev_step e; opString := opString e;
     action := action e +:+ txt; phase := phase e |}.

(** The statements that close every iteration of the loop of
    [analyzeBasic2PL]: the last event recorded at the step of [op], when
    the analysed transaction has an operation at that step, takes the
    current phase. *)
Definition refreshPhase (txId : string) (allOps : list Operation) (op : Operation)
    (ph : Phase) (events : list LockPhaseEvent) : list LockPhaseEvent :=
  updateLast
    (fun e =>
       (ev_step e =? Z.of_nat (step op))%Z
       && existsb (fun mainOp =>
                     (Z.of_nat (step mainOp) =? ev_step e)%Z
                     && String.eqb (transactionId mainOp) txId) allOps)
    (setPhase (showPhase ph)) events.

(** The loop of [analyzeBasic2PL] over the rest [ops] of the schedule. *)
Fixpoint basicLoop (txId : string) (allOps txOps : list Operation)
    (ops : list Operation) (ph : Phase) (locksHeldByTx : gset (option string))
    (events : list LockPhaseEvent) : bool * list LockPhaseEvent :=
  match ops with
  | [] => (true, events)
  | op :: rest =>
      if String.eqb (transactionId op) txId then
        if isAccess (type op) then
          match ph with
          | shrinking =>
              (false,
               events ++
                 [{| ev_step := Z.of_nat (step op); opString := originalString op;
                     action := "Attempt Lock on " +:+ showOpt (variable op)
                               +:+ " (FAIL: Shrinking Phase)";
                     phase := showPhase ph |}])
          | growing =>
              let events1 :=
                events ++
                  [{| ev_step := Z.of_nat (step op); opString := originalString op;
                      action := "Acquire " +:+ lockName (type op) +:+ "-Lock("
                                +:+ showOpt (variable op) +:+ ")";
                      phase := showPhase ph |}] in
              basicLoop txId allOps txOps rest ph ({[variable op]} ∪ locksHeldByTx)
                (refreshPhase txId allOps op ph events1)
          end
        else
          let events1 :=
            events ++
              [{| ev_step := Z.of_nat (step op); opString := originalString op;
                  action := "Release All Locks (" +:+ showType (type op) +:+ ")";
                  phase := showPhase shrinking |}] in
          basicLoop txId allOps txOps rest shrinking ∅
            (refreshPhase txId allOps op shrinking events1)
      else
        if match ph with growing => true | shrinking => false end
           && truthy (variable op)
           && bool_decide (variable op ∈ locksHeldByTx)
        then
          let txHeldLockTypeOp :=
            findLast (fun txOp => optEqb (variable txOp) (variable op)
                                  && isAccess (type txOp)) txOps in
          let txHeldX :=
            match txHeldLockTypeOp with
            | Some o => OperationType_eqb (type o) W
            | None => false
            end in
          let tyNeedsX := OperationType_eqb (type op) W in
          if txHeldX || tyNeedsX then
            let events1 :=
              events ++
                [{| ev_step := Z.of_nat (step op);
                    opString := originalString op +:+ " (by " +:+ transactionId op +:+ ")";
                    action := "Implied release of lock on " +:+ showOpt (variable op)
                              +:+ " by " +:+ txId +:+ " (due to conflict). " +:+ txId
                              +:+ " enters shrinking.";
                    phase := "growing" |}] in
            basicLoop txId allOps txOps rest shrinking locksHeldByTx
              (refreshPhase txId allOps op shrinking events1)
          else
            basicLoop txId allOps txOps rest ph locksHeldByTx
              (refreshPhase txId allOps op ph events)
        else
          basicLoop txId allOps txOps rest ph locksHeldByTx
            (refreshPhase txId allOps op ph events)
  end.

Definition analyzeBasic2PL (txId : string) (allOps txOps : list Operation)
    (events : list LockPhaseEvent) : bool * list LockPhaseEvent :=
  basicLoop txId allOps txOps allOps growing ∅ events.

(** [lockPhaseEvents.find(e => e.step === o.step && e.opString === o.originalString)] *)
Definition eventOf (o : Operation) (e : LockPhaseEvent) : bool :=
  (ev_step e =? Z.of_nat (step o))%Z && String.eqb (opString e) (originalString o).

(** The branch of the strict and rigorous analysers for a transaction that
    never terminates: the event of its last operation is annotated, or a
    new event is pushed. *)
Definition noteUnterminated (note : string) (txOps : list Operation)
    (events : list LockPhaseEvent) : list LockPhaseEvent :=
  match last txOps with
  | Some lastTxOp =>
      if existsb (eventOf lastTxOp) events
      then updateFirst (eventOf lastTxOp) (appendAction (" " +:+ note)) events
      else events ++ [{| ev_step := Z.of_nat (step lastTxOp);
                         opString := originalString lastTxOp;
                         action := note; phase := "Shrinking" |}]
  | None => events
  end.

(** The steps [k] of [for (let k = from + 1; k < to; k++)]. *)
Definition between (from to : nat) : list nat :=
  seq (S from) (to - S from).

(** The first [allOps[k]], [k] strictly between the two steps, that
    satisfies [p]; [allOps[k]] out of range is [undefined] and skipped. *)
Definition firstBetween (allOps : list Operation) (from to : nat)
    (p : Operation -> bool) : option Operation :=
  List.find p (omap (fun k => allOps !! k) (between from to)).

Definition strictViolation (txId : string) (writeOp otherOp : Operation) : bool :=
  negb (String.eqb (transactionId otherOp) txId)
  && optEqb (variable otherOp) (variable writeOp)
  && isAccess (type otherOp).

(** The loop of [analyzeStrict2PL] over the writes of the transaction. *)
Fixpoint strictLoop (txId : string) (allOps : list Operation)
    (commitOrAbortOp : Operation) (writes : list Operation)
    (events : list LockPhaseEvent) : bool * list LockPhaseEvent :=
  match writes with
  | [] => (true, events)
  | writeOp :: rest =>
      match firstBetween allOps (step writeOp) (step commitOrAbortOp)
              (strictViolation txId writeOp) with
      | Some otherOp =>
          (false,
           updateFirst (eventOf writeOp)
             (appendAction
                (" (Strict 2PL Fail: " +:+ originalString otherOp +:+ " accessed "
                 +:+ showOpt (variable writeOp) +:+ " before " +:+ txId +:+ " "
                 +:+ showType (type commitOrAbortOp) +:+ ")"))
             events)
      | None => strictLoop txId allOps commitOrAbortOp rest events
      end
  end.

Definition analyzeStrict2PL (txId : string) (allOps txOps : list Operation)
    (isBasic2PL : bool) (events : list LockPhaseEvent)
  : bool * list LockPhaseEvent :=
  if negb isBasic2PL then (false, events)
  else
    match List.find (fun op => isTermination (type op)) txOps with
    | None =>
        if existsb (fun op => OperationType_eqb (type op) W) txOps then
          (false,
           noteUnterminated
             ("(Strict 2PL Fail: Writes exist but no C/A by " +:+ txId +:+ ")")
             txOps events)
        else (true, events)
    | Some commitOrAbortOp =>
        strictLoop txId allOps commitOrAbortOp
          (List.filter (fun op => OperationType_eqb (type op) W) txOps) events
    end.

Definition rigorousViolation (txId : string) (accessOp otherOp : Operation) : bool :=
  negb (String.eqb (transactionId otherOp) txId)
  && optEqb (variable otherOp) (variable accessOp)
  && (OperationType_eqb (type accessOp) W || OperationType_eqb (type otherOp) W).

Fixpoint rigorousLoop (txId : string) (allOps : list Operation)
    (commitOrAbortOp : Operation) (accesses : list Operation)
    (events : list LockPhaseEvent) : bool * list LockPhaseEvent :=
  match accesses with
  | [] => (true, events)
  | accessOp :: rest =>
      match firstBetween allOps (step accessOp) (step commitOrAbortOp)
              (rigorousViolation txId accessOp) with
      | Some otherOp =>
          (false,
           updateFirst (eventOf accessOp)
             (appendAction
                (" (Rigorous 2PL Fail: " +:+ originalString otherOp
                 +:+ " conflict access on " +:+ showOpt (variable accessOp)
                 +:+ " before " +:+ txId +:+ " "
                 +:+ showType (type commitOrAbortOp) +:+ ")"))
             events)
      | None => rigorousLoop txId allOps commitOrAbortOp rest events
      end
  end.

Definition analyzeRigorous2PL (txId : string) (allOps txOps : list Operation)
    (isStrict2PL : bool) (events : list LockPhaseEvent)
  : bool * list LockPhaseEvent :=
  if negb isStrict2PL then (false, events)
  else
    match List.find (fun op => isTermination (type op)) txOps with
    | None =>
        if existsb (fun op => isAccess (type op)) txOps then
          (false,
           noteUnterminated
             ("(Rigorous 2PL Fail: Accesses exist but no C/A by " +:+ txId +:+ ")")
             txOps events)
        else (true, events)
    | Some commitOrAbortOp =>
        rigorousLoop txId allOps commitOrAbortOp
          (List.filter (fun op => isAccess (type op)) txOps) events
    end.

(** The inner loop of [analyzeCascadeless]: the pair
    [(latestWriterTxId, latestWriteStep)] after the scan of [ops]. *)
Fixpoint latestWriter (readerTxId : string) (readVariable : option string)
    (readStep : nat) (ops : list Operation) (acc : option string * Z)
  : option string * Z :=
  match ops with
  | [] => acc
  | prevOp :: rest =>
      latestWriter readerTxId readVariable readStep rest
        (if (readStep <=? step prevOp)%nat then acc
         else if OperationType_eqb (type prevOp) W
                 && optEqb (variable prevOp) readVariable
                 && negb (String.eqb (transactionId prevOp) readerTxId)
                 && (snd acc <? Z.of_nat (step prevOp))%Z
              then (Some (transactionId prevOp), Z.of_nat (step prevOp))
              else acc)
  end.

(** What one read decides: [true] when the loop goes on to the next
    operation, [false] when the function returns [false]. *)
Definition readIsClean (allOps : list Operation)
    (opsByTx : gmap string (list Operation)) (currentOp : Operation) : bool :=
  if OperationType_eqb (type currentOp) R && truthy (variable currentOp) then
    let readStep := step currentOp in
    match fst (latestWriter (transactionId currentOp) (variable currentOp) readStep
                 allOps (None, (-1)%Z)) with
    | Some latestWriterTxId =>
        if nonEmpty latestWriterTxId then
          match opsByTx !! latestWriterTxId with
          | None => true
          | Some writerOps =>
              let writerCommitOp :=
                List.find (fun op => OperationType_eqb (type op) C) writerOps in
              let writerAbortOp :=
                List.find (fun op => OperationType_eqb (type op) A) writerOps in
              if match writerAbortOp with
                 | Some a => (step a <? readStep)%nat
                 | None => false
                 end
              then true
              else match writerCommitOp with
                   | None => false
                   | Some c => negb (readStep <? step c)%nat
                   end
          end
        else true
    | None => true
    end
  else true.

Definition analyzeCascadeless (allOps : list Operation)
    (opsByTx : gmap string (list Operation)) : bool :=
  forallb (readIsClean allOps opsByTx) allOps.

(** [events.sort((a, b) => a.step - b.step)], stable. *)
Fixpoint insertEvent (x : LockPhaseEvent) (l : list LockPhaseEvent)
  : list LockPhaseEvent :=
  match l with
  | [] => [x]
  | y :: l' => if (ev_step x <=? ev_step y)%Z then x :: l else y :: insertEvent x l'
  end.

Definition sortEvents (l : list LockPhaseEvent) : list LockPhaseEvent :=
  fold_right insertEvent [] l.

Definition noOpsCompliance : TransactionCompliance :=
  {| basic2PL := true; strict2PL := true; rigorous2PL := true;
     conservative2PL := true;
     lockPhaseEvents :=
       [{| ev_step := (-1)%Z; opString := "No ops"; action := "N/A";
           phase := "Growing" |}] |}.

(** The body of the loop of [analyzeScheduleFor2PL] for one transaction. *)
Definition complianceOf (allOperations : list Operation)
    (opsByTx : gmap string (list Operation)) (txId : string)
  : TransactionCompliance :=
  let txOps := default [] (opsByTx !! txId) in
  match txOps with
  | [] => noOpsCompliance
  | _ :: _ =>
      let '(basic, ev1) := analyzeBasic2PL txId allOperations txOps [] in
      let '(strict, ev2) := analyzeStrict2PL txId allOperations txOps basic ev1 in
      let '(rigorous, ev3) := analyzeRigorous2PL txId allOperations txOps strict ev2 in
      {| basic2PL := basic; strict2PL := strict; rigorous2PL := rigorous;
         conservative2PL := basic; lockPhaseEvents := sortEvents ev3 |}
  end.

Definition analyzeScheduleFor2PL (allOperations : list Operation)
    (transactions : list Transaction) : ScheduleAnalysisReport :=
  let transactionIds := map tx_id transactions in
  let opsByTx := getOperationsByTransactionMap allOperations in
  match allOperations with
  | [] =>
      {| transactionCompliance :=
           fold_left (fun m txId => <[txId := noOpsCompliance]> m) transactionIds ∅;
         isCascadeless := true;
         allowsCascadingAborts := false |}
  | _ :: _ =>
      let cascadeless := analyzeCascadeless allOperations opsByTx in
      {| transactionCompliance :=
           fold_left
             (fun m txId => <[txId := complianceOf allOperations opsByTx txId]> m)
             transactionIds ∅;
         isCascadeless := cascadeless;
         allowsCascadingAborts := negb cascadeless |}
  end.

(** The analysis run of the driver (src/app/page.tsx) on a schedule string. *)
Definition analyzeSchedule (schedule : string) : ScheduleAnalysisReport :=
  let operations := Parser.parseSchedule schedule in
  analyzeScheduleFor2PL operations (Parser.groupOperationsByTransaction operations).

End TwoPL.

(* ===================================================================== *)
(** * The vocabulary of the specification for schedules *)
(* ===================================================================== *)

Module ScheduleSpec.

(** [w] is a Write on the variable of the read [r], by another transaction,
    at a step strictly below the step of [r]. *)
Definition priorWriter (ops : list Operation) (r w : Operation) : Prop :=
  In w ops /\ type w = W /\ variable w = variable r
  /\ transactionId w <> transactionId r /\ (step w < step r)%nat.

(** "The Write on X with the largest step strictly below s by a different
    transaction." *)
Definition latestPriorWriter (ops : list Operation) (r w : Operation) : Prop :=
  priorWriter ops r w
  /\ forall w', priorWriter ops r w' -> (step w' <= step w)%nat.

(** Transaction [txId] has an operation of type [t] strictly before step [s]. *)
Definition terminatesBefore (ops : list Operation) (t : OperationType)
    (txId : string) (s : nat) : Prop :=
  exists o, In o ops /\ transactionId o = txId /\ type o = t /\ (step o < s)%nat.

(** The steps of the operations are their positions in the sequence: no
    token was dropped by the parser. *)
Definition gapFree (ops : list Operation) : Prop :=
  map step ops = seq 0 (length ops).

(** [t] is a Commit or an Abort of transaction [txId]. *)
Definition terminationOf (ops : list Operation) (txId : string) (t : Operation) : Prop :=
  In t ops /\ transactionId t = txId /\ (type t = C \/ type t = A).

(** "This transaction's Commit/Abort step": the step of its first Commit or
    Abort. *)
Definition firstTermination (ops : list Operation) (txId : string) (t : Operation)
  : Prop :=
  terminationOf ops txId t
  /\ forall t', terminationOf ops txId t' -> (step t <= step t')%nat.

(** "Some other transaction Reads or Writes a variable V at a step strictly
    between the step of one of this transaction's Writes on V and this
    transaction's Commit/Abort step." *)
Definition accessedBeforeTermination (ops : list Operation) (txId : string) : Prop :=
  exists w o t,
    In w ops /\ transactionId w = txId /\ type w = W
    /\ firstTermination ops txId t
    /\ In o ops /\ transactionId o <> txId
    /\ (type o = R \/ type o = W)
    /\ variable o = variable w
    /\ (step w < step o)%nat /\ (step o < step t)%nat.

End ScheduleSpec.

(* ===================================================================== *)
(** * src/lib/lock-manager.ts *)
(* ===================================================================== *)

(** ['S' | 'X'] *)
Inductive LockType := LockS | LockX.

Record Lock := mkLock {
  lock_transactionId : string;
  lock_variable : option string;
  lock_type : LockType
}.

Inductive TransactionStatus := Active | Blocked | Committed | Aborted.

Record WaitEntry := mkWaitEntry {
  wait_transactionId : string;
  wait_operation : Operation;
  wait_variable : option string;
  wait_lockType : LockType
}.

Record LockSimulationStep := mkLockSimulationStep {
  sim_operation : option Operation;
  sim_locks : list Lock;
  sim_transactionStatuses : gmap string TransactionStatus;
  sim_waitingQueue : list WaitEntry;
  sim_log : list string;
  sim_isDeadlock : bool
}.

(** The fields of an instance of the class. *)
Record LockManager := mkLockManager {
  operations : list Operation;
  currentStepIndex : Z;
  locks : list Lock;
  transactionStatuses : gmap string TransactionStatus;
  waitingQueue : list WaitEntry;
  history : list LockSimulationStep;
  log : list string
}.

Module LM.
Import JS.

Definition LockType_eqb (a b : LockType) : bool :=
  match a, b with
  | LockS, LockS | LockX, LockX => true
  | _, _ => false
  end.

Definition showLockType (t : LockType) : string :=
  match t with LockS => "S" | LockX => "X" end.

Definition showStatus (st : TransactionStatus) : string :=
  match st with
  | Active => "Active" | Blocked => "Blocked"
  | Committed => "Committed" | Aborted => "Aborted"
  end.

(** Assignments to one field of [this]. *)
Definition setLocks (l : list Lock) (m : LockManager) : LockManager :=
  {| operations := operations m; currentStepIndex := currentStepIndex m;
     locks := l; transactionStatuses := transactionStatuses m;
     waitingQueue := waitingQueue m; history := history m; log := log m |}.

Definition setStatus (txId : string) (st : TransactionStatus) (m : LockManager)
  : LockManager :=
  {| operations := operations m; currentStepIndex := currentStepIndex m;
     locks := locks m; transactionStatuses := <[txId := st]> (transactionStatuses m);
     waitingQueue := waitingQueue m; history := history m; log := log m |}.

Definition setWaitingQueue (q : list WaitEntry) (m : LockManager) : LockManager :=
  {| operations := operations m; currentStepIndex := currentStepIndex m;
     locks := locks m; transactionStatuses := transactionStatuses m;
     waitingQueue := q; history := history m; log := log m |}.

Definition setLog (l : list string) (m : LockManager) : LockManager :=
  {| operations := operations m; currentStepIndex := currentStepIndex m;
     locks := locks m; transactionStatuses := transactionStatuses m;
     waitingQueue := waitingQueue m; history := history m; log := l |}.

Definition pushLog (msg : string) (m : LockManager) : LockManager :=
  setLog (log m ++ [msg]) m.

Definition setCurrentStepIndex (i : Z) (m : LockManager) : LockManager :=
  {| operations := operations m; currentStepIndex := i;
     locks := locks m; transactionStatuses := transactionStatuses m;
     waitingQueue := waitingQueue m; history := history m; log := log m |}.

Definition pushHistory (snapshot : LockSimulationStep) (m : LockManager)
  : LockManager :=
  {| operations := operations m; currentStepIndex := currentStepIndex m;
     locks := locks m; transactionStatuses := transactionStatuses m;
     waitingQueue := waitingQueue m; history := history m ++ [snapshot];
     log := log m |}.

Definition initializeTransactionStatuses (ops : list Operation)
  : gmap string TransactionStatus :=
  fold_left (fun st i => <[i := Active]> st)
    (Parser.dedup [] (map transactionId ops)) ∅.

Definition initialStep (statuses : gmap string TransactionStatus)
  : LockSimulationStep :=
  {| sim_operation := None; sim_locks := [];
     sim_transactionStatuses := statuses; sim_waitingQueue := [];
     sim_log := ["Initial state."]; sim_isDeadlock := false |}.

(** [new LockManager(operations)] *)
Definition new (ops : list Operation) : LockManager :=
  let statuses := initializeTransactionStatuses ops in
  {| operations := ops; currentStepIndex := (-1)%Z; locks := [];
     transactionStatuses := statuses; waitingQueue := [];
     history := [initialStep statuses]; log := [] |}.

Definition getCurrentSimulationStep (m : LockManager) : option LockSimulationStep :=
  last (history m).

Definition getAllSteps (m : LockManager) : list LockSimulationStep := history m.

Definition canProceed (m : LockManager) : bool :=
  (currentStepIndex m <? Z.of_nat (length (operations m)) - 1)%Z
  || (0 <? length (waitingQueue m))%nat.

Definition canAcquireLock (m : LockManager) (txId : string)
    (var : option string) (lockType : LockType) : bool :=
  let existingLocksOnVar :=
    List.filter (fun l => optEqb (lock_variable l) var) (locks m) in
  if (length existingLocksOnVar =? 0)%nat then true
  else
    match lockType with
    | LockS => forallb (fun l => LockType_eqb (lock_type l) LockS) existingLocksOnVar
    | LockX =>
        forallb (fun l => String.eqb (lock_transactionId l) txId
                          && LockType_eqb (lock_type l) LockX) existingLocksOnVar
        || negb (existsb (fun l => negb (String.eqb (lock_transactionId l) txId))
                   existingLocksOnVar)
    end.

Definition sameLock (txId : string) (var : option string) (lockType : LockType)
    (l : Lock) : bool :=
  String.eqb (lock_transactionId l) txId
  && optEqb (lock_variable l) var
  && LockType_eqb (lock_type l) lockType.

Definition grantLock (txId : string) (var : option string) (lockType : LockType)
    (m : LockManager) : LockManager :=
  let m1 :=
    match lockType with
    | LockX => setLocks (List.filter (fun l => negb (sameLock txId var LockS l)) (locks m)) m
    | LockS => m
    end in
  if negb (existsb (sameLock txId var lockType) (locks m1))
  then setLocks (locks m1 ++ [{| lock_transactionId := txId; lock_variable := var;
                                 lock_type := lockType |}]) m1
  else m1.

Definition addToWaitingQueue (operation : Operation) (var : option string)
    (lockType : LockType) (m : LockManager) : LockManager :=
  if negb (existsb (fun item => String.eqb (id (wait_operation item)) (id operation))
             (waitingQueue m))
  then setWaitingQueue
         (waitingQueue m ++ [{| wait_transactionId := transactionId operation;
                                wait_operation := operation;
                                wait_variable := var;
                                wait_lockType := lockType |}]) m
  else m.

(** The loop of [processWaitingQueue] over the entries [items] that are
    still to be looked at: the entries that stay in the queue, whether one
    was granted, and the manager after the grants.  Nothing reads
    [waitingQueue] inside the loop, it is assigned when the loop ends. *)
Fixpoint processEntries (items : list WaitEntry) (m : LockManager)
  : list WaitEntry * bool * LockManager :=
  match items with
  | [] => ([], false, m)
  | item :: rest =>
      if canAcquireLock m (wait_transactionId item) (wait_variable item)
           (wait_lockType item)
      then
        let m1 := grantLock (wait_transactionId item) (wait_variable item)
                    (wait_lockType item) m in
        let m2 :=
          pushLog (wait_transactionId item +:+ " (from waiting queue) acquired "
                   +:+ showLockType (wait_lockType item) +:+ "-lock on "
                   +:+ showOpt (wait_variable item) +:+ " for "
                   +:+ originalString (wait_operation item) +:+ ".") m1 in
        let m3 := setStatus (wait_transactionId item) Active m2 in
        let m4 := pushLog (wait_transactionId item +:+ " is now Active.") m3 in
        let '(kept, _, m5) := processEntries rest m4 in
        (kept, true, m5)
      else
        let '(kept, processedAny, m1) := processEntries rest m in
        (item :: kept, processedAny, m1)
  end.

Definition processWaitingQueue (m : LockManager) : bool * LockManager :=
  let '(kept, processedAny, m1) := processEntries (waitingQueue m) m in
  (processedAny, setWaitingQueue kept m1).

Definition TransactionStatus_eqb (a b : TransactionStatus) : bool :=
  match a, b with
  | Active, Active | Blocked, Blocked | Committed, Committed | Aborted, Aborted => true
  | _, _ => false
  end.

(** [this.transactionStatuses[txId] === st] *)
Definition statusIs (m : LockManager) (txId : string) (st : TransactionStatus) : bool :=
  match transactionStatuses m !! txId with
  | Some st' => TransactionStatus_eqb st' st
  | None => false
  end.

Definition requestLock (txId : string) (var : option string) (lockType : LockType)
    (operation : Operation) (m : LockManager) : LockManager :=
  if canAcquireLock m txId var lockType then
    let m1 := grantLock txId var lockType m in
    let m2 := pushLog (txId +:+ " acquired " +:+ showLockType lockType +:+ "-lock on "
                       +:+ showOpt var +:+ " for " +:+ originalString operation +:+ ".")
                m1 in
    if statusIs m2 txId Blocked
    then pushLog (txId +:+ " is now Active.") (setStatus txId Active m2)
    else m2
  else
    let m1 := pushLog (txId +:+ " cannot acquire " +:+ showLockType lockType
                       +:+ "-lock on " +:+ showOpt var +:+ " for "
                       +:+ originalString operation +:+ ". Added to waiting queue.") m in
    addToWaitingQueue operation var lockType (setStatus txId Blocked m1).

Definition releaseLocks (txId : string) (m : LockManager) : LockManager :=
  let releasedCount :=
    length (List.filter (fun l => String.eqb (lock_transactionId l) txId) (locks m)) in
  let m1 :=
    setLocks (List.filter (fun l => negb (String.eqb (lock_transactionId l) txId))
                (locks m)) m in
  let m2 :=
    if (0 <? releasedCount)%nat
    then pushLog (txId +:+ " released " +:+ showNat releasedCount +:+ " lock(s).") m1
    else m1 in
  snd (processWaitingQueue m2).

Definition commitTransaction (txId : string) (m : LockManager) : LockManager :=
  setStatus txId Committed (releaseLocks txId (pushLog (txId +:+ " Commits.") m)).

Definition abortTransaction (txId : string) (m : LockManager) : LockManager :=
  let m1 := setStatus txId Aborted (releaseLocks txId (pushLog (txId +:+ " Aborts.") m)) in
  setWaitingQueue
    (List.filter (fun item => negb (String.eqb (wait_transactionId item) txId))
       (waitingQueue m1)) m1.

Definition isTransactionReady (m : LockManager) (operation : Operation) : bool :=
  match List.find
          (fun item => String.eqb (wait_transactionId item) (transactionId operation)
                       && String.eqb (id (wait_operation item)) (id operation))
          (waitingQueue m) with
  | Some waitingItem =>
      canAcquireLock m (wait_transactionId waitingItem) (wait_variable waitingItem)
        (wait_lockType waitingItem)
  | None => true
  end.

Definition processOperation (operation : Operation) (m : LockManager) : LockManager :=
  let txId := transactionId operation in
  if statusIs m txId Blocked && negb (isTransactionReady m operation) then
    let m1 := pushLog (txId +:+ " is blocked, cannot process "
                       +:+ originalString operation +:+ " yet.") m in
    if negb (existsb (fun item => String.eqb (id (wait_operation item)) (id operation))
               (waitingQueue m1))
    then addToWaitingQueue operation (variable operation)
           (match type operation with R => LockS | _ => LockX end) m1
    else m1
  else
    match type operation with
    | R => if truthy (variable operation)
           then requestLock txId (variable operation) LockS operation m else m
    | W => if truthy (variable operation)
           then requestLock txId (variable operation) LockX operation m else m
    | C => commitTransaction txId m
    | A => abortTransaction txId m
    end.

Definition holdsBlockingLock (m : LockManager) (holder : string) (waiter : WaitEntry)
  : bool :=
  existsb
    (fun l => optEqb (lock_variable l) (wait_variable waiter)
              && String.eqb (lock_transactionId l) holder
              && (LockType_eqb (lock_type l) LockX
                  || LockType_eqb (wait_lockType waiter) LockX))
    (locks m).

(** The first pair of the two nested loops of [detectDeadlock] that waits
    on each other. *)
Definition deadlockedPair (m : LockManager) : option (WaitEntry * WaitEntry) :=
  List.find
    (fun '(item1, item2) =>
       negb (String.eqb (wait_transactionId item1) (wait_transactionId item2))
       && holdsBlockingLock m (wait_transactionId item2) item1
       && holdsBlockingLock m (wait_transactionId item1) item2)
    (flat_map (fun item1 => map (fun item2 => (item1, item2)) (waitingQueue m))
       (waitingQueue m)).

(** [detectDeadlock] returns a boolean and writes to the log. *)
Definition detectDeadlock (m : LockManager) : bool * LockManager :=
  if (length (waitingQueue m) <? 2)%nat then (false, m)
  else
    match deadlockedPair m with
    | Some (item1, item2) =>
        (true,
         pushLog ("Potential deadlock: " +:+ wait_transactionId item1 +:+ " needs "
                  +:+ showOpt (wait_variable item1) +:+ " (held by "
                  +:+ wait_transactionId item2 +:+ "), and "
                  +:+ wait_transactionId item2 +:+ " needs "
                  +:+ showOpt (wait_variable item2) +:+ " (held by "
                  +:+ wait_transactionId item1 +:+ ").") m)
    | None => (false, m)
    end.

(** [this.operations[this.currentStepIndex]] *)
Definition currentOperation (m : LockManager) : option Operation :=
  if (currentStepIndex m <? 0)%Z then None
  else operations m !! Z.to_nat (currentStepIndex m).

(** [nextStep]; the snapshot it returns is the last of the new history. *)
Definition nextStep (m0 : LockManager) : LockManager :=
  let m := setLog [] m0 in
  let '(processed, m1) := processWaitingQueue m in
  if processed then
    (* the object literal copies the log before it calls detectDeadlock *)
    let '(isDeadlock, m2) := detectDeadlock m1 in
    pushHistory
      {| sim_operation := match last (history m1) with
                          | Some h => sim_operation h
                          | None => None
                          end;
         sim_locks := locks m1;
         sim_transactionStatuses := transactionStatuses m1;
         sim_waitingQueue := waitingQueue m1;
         sim_log := log m1;
         sim_isDeadlock := isDeadlock |} m2
  else
    let m2 :=
      if (currentStepIndex m1 <? Z.of_nat (length (operations m1)) - 1)%Z then
        let m' := setCurrentStepIndex (currentStepIndex m1 + 1)%Z m1 in
        match currentOperation m' with
        | Some operation =>
            if statusIs m' (transactionId operation) Aborted
               || statusIs m' (transactionId operation) Committed
            then pushLog ("Skipping " +:+ originalString operation +:+ " for "
                          +:+ transactionId operation +:+ " (already "
                          +:+ match transactionStatuses m' !! transactionId operation with
                              | Some st => showStatus st
                              | None => "undefined"
                              end +:+ ").") m'
            else processOperation operation m'
        | None => m' (* the index is in range, see [nextStep_index_in_range] *)
        end
      else
        let '(again, m') :=
          if (0 <? length (waitingQueue m1))%nat
          then let '(p, m') := processWaitingQueue m1 in (negb p, m')
          else (false, m1) in
        if again
        then pushLog "No more operations in schedule. Waiting queue has items that cannot be processed." m'
        else pushLog "No more operations in schedule and waiting queue is empty. Simulation complete." m' in
    let '(isDeadlock, m3) := detectDeadlock m2 in
    let m4 := if isDeadlock then pushLog "DEADLOCK DETECTED!" m3 else m3 in
    pushHistory
      {| sim_operation := currentOperation m4;
         sim_locks := locks m4;
         sim_transactionStatuses := transactionStatuses m4;
         sim_waitingQueue := waitingQueue m4;
         sim_log := log m4;
         sim_isDeadlock := isDeadlock |} m4.

(** [reset(newOperations?)] *)
Definition reset (newOperations : option (list Operation)) (m : LockManager)
  : LockManager :=
  new (match newOperations with Some ops => ops | None => operations m end).

(** [n] calls of [nextStep]. *)
Fixpoint steps (n : nat) (m : LockManager) : LockManager :=
  match n with
  | O => m
  | S n' => steps n' (nextStep m)
  end.

End LM.

(* ===================================================================== *)
(** * The lock table invariant of the specification *)
(* ===================================================================== *)

Module LockSpec.

Definition isExclusiveOn (v : option string) (l : Lock) : bool :=
  JS.optEqb (lock_variable l) v && LM.LockType_eqb (lock_type l) LockX.

Definition isSharedOn (v : option string) (l : Lock) : bool :=
  JS.optEqb (lock_variable l) v && LM.LockType_eqb (lock_type l) LockS.

(** "No variable has more than one Exclusive lock, and if it has an
    Exclusive lock it has no Shared locks." *)
Definition lockInvariant (ls : list Lock) : Prop :=
  forall v : option string,
    (length (List.filter (isExclusiveOn v) ls) <= 1)%nat
    /\ (List.filter (isExclusiveOn v) ls <> [] -> List.filter (isSharedOn v) ls = []).

(** The part of the state that only [nextStep] itself changes. *)
Definition frame (m : LockManager) : list Operation * Z * list LockSimulationStep :=
  (operations m, currentStepIndex m, history m).

(** The state of the manager agrees with the snapshot it recorded last. *)
Definition snapshotCurrent (m : LockManager) : Prop :=
  exists snapshot,
    last (history m) = Some snapshot
    /\ sim_locks snapshot = locks m
    /\ sim_transactionStatuses snapshot = transactionStatuses m
    /\ sim_waitingQueue snapshot = waitingQueue m.

End LockSpec.

(* ===================================================================== *)
(** * src/components/transaction-input-card.tsx: the operation buttons *)
(* ===================================================================== *)

Module InputCard.
Import JS.

(** [s.substring(1)] *)
Definition substring1 (s : string) : string :=
  match s with
  | EmptyString => EmptyString
  | String _ rest => rest
  end.

(** [s.endsWith(c)] for a one-character string [c]. *)
Fixpoint endsWith (c : ascii) (s : string) : bool :=
  match s with
  | EmptyString => false
  | String d EmptyString => Ascii.eqb d c
  | String _ rest => endsWith c rest
  end.

(** The text of the operation that a button inserts. *)
Definition newOperation (opType : OperationType)
    (activeTransaction activeVariable : string) : string :=
  match opType with
  | R | W =>
      showType opType +:+ substring1 activeTransaction
      +:+ "(" +:+ activeVariable +:+ ")"
  | C | A => showType opType +:+ substring1 activeTransaction
  end.

(** [addOperation]: the schedule text that the handler passes to
    [setSchedule], from the current text and the selected transaction and
    variable. *)
Definition addOperation (schedule activeTransaction activeVariable : string)
    (opType : OperationType) : string :=
  let newOp := newOperation opType activeTransaction activeVariable in
  let currentSchedule := trim schedule in
  let separator :=
    if nonEmpty currentSchedule
       && negb (endsWith ";" currentSchedule)
       && negb (endsWith "," currentSchedule)
    then "; " else EmptyString in
  currentSchedule +:+ separator +:+ newOp.

End InputCard.

(* ===================================================================== *)
(** * Vocabulary for the properties of the parser *)
(* ===================================================================== *)

Module ParserSpec.
Import JS.

(** A string of decimal digits. *)
Fixpoint allDigits (s : string) : bool :=
  match s with
  | EmptyString => true
  | String c s' => isDigit c && allDigits s'
  end.

(** A string without a closing parenthesis. *)
Fixpoint parenFree (s : string) : bool :=
  match s with
  | EmptyString => true
  | String c s' => Parser.notRParen c && parenFree s'
  end.

(** A string made of commas, semicolons and whitespace only. *)
Definition blank (s : string) : bool := forallb isSeparator (Unicode.decode s).

(** Code points without a closing parenthesis. *)
Definition noParen (l : list N) : bool :=
  forallb (fun c => negb (c =? 0x29)%N) l.

(** The text of an operation, from its type, transaction number and
    variable. *)
Definition render (ty : OperationType) (num : string) (var : option string) : string :=
  showType ty +:+ num
  +:+ match var with
      | Some v => "(" +:+ v +:+ ")"
      | None => EmptyString
      end.

End ParserSpec.

(* ===================================================================== *)
(** * Directed cycles, in the words of graph theory *)
(* ===================================================================== *)

Module GraphSpec.

(** [b] is in the adjacency list of [a]. *)
Definition successor (adj : gmap string (list string)) (a b : string) : Prop :=
  b ∈ default [] (adj !! a).

(** An edge from [a] to [b], with [a] one of the nodes ([detectCycle]
    keeps no adjacency list for a source that is not a node). *)
Definition arc (ns : list string) (es : list GraphEdge) (a b : string) : Prop :=
  In a ns /\ exists e, In e es /\ source e = a /\ target e = b.

(** There is a directed cycle. *)
Definition cyclic (ns : list string) (es : list GraphEdge) : Prop :=
  exists n, tc (arc ns es) n n.

(** Some conflict goes from an operation of [a] to an operation of [b]. *)
Definition precedes (cs : list Conflict) (a b : string) : Prop :=
  exists c, In c cs /\ transactionId (op1 c) = a /\ transactionId (op2 c) = b.

(** A string without the character "-". *)
Fixpoint dashFree (s : string) : bool :=
  match s with
  | EmptyString => true
  | String c s' => negb (Ascii.eqb c "-") && dashFree s'
  end.

End GraphSpec.

(* ===================================================================== *)
(** * The analysis run of the page *)
(* ===================================================================== *)

Module Page.
Import JS.

Definition emptyGraph : PrecedenceGraph :=
  {| nodes := []; edges := []; isSerializable := true; cycleEdges := [] |}.

(** The value that [handleRunAnalysis] (src/app/page.tsx) gives to
    [graphData]; [None] stands for a cycle search cut short. *)
Definition graphData (schedule : string) : option PrecedenceGraph :=
  if negb (nonEmpty (trim schedule)) then Some emptyGraph
  else
    let operations := Parser.parseSchedule schedule in
    let detectedConflicts := ConflictAnalyzer.detectConflicts operations in
    let uniqueIds := Parser.getUniqueTransactionIds operations in
    if (0 <? length uniqueIds)%nat
    then ConflictAnalyzer.buildPrecedenceGraph uniqueIds detectedConflicts
    else Some emptyGraph.

End Page.

(* ===================================================================== *)
(** * Conflict detection *)
(* ===================================================================== *)

Section DetectConflicts.
Import JS ConflictAnalyzer.

Lemma OperationType_eqb_eq a b : OperationType_eqb a b = true <-> a = b.
Proof. destruct a, b; simpl; split; congruence. Qed.

Lemma optEqb_eq a b : optEqb a b = true <-> a = b.
Proof.
  destruct a as [x|], b as [y|]; simpl; try (split; congruence).
  rewrite String.eqb_eq. split; congruence.
Qed.

Lemma nonEmpty_true s : nonEmpty s = true <-> s <> EmptyString.
Proof. destruct s; simpl; split; congruence. Qed.

Lemma in_combine_seq {X} (l : list X) (s i : nat) (x : X) :
  In (i, x) (combine (seq s (length l)) l)
  <-> (s <= i)%nat /\ nth_error l (i - s) = Some x.
Proof.
  revert s. induction l as [|y l IH]; intros s; simpl.
  - split; [tauto|]. intros [_ H]. destruct (i - s)%nat; discriminate.
  - rewrite IH. split.
    + intros [H|[Hle H]].
      * inversion H; subst. rewrite Nat.sub_diag. auto.
      * split; [lia|]. replace (i - s)%nat with (S (i - S s)) by lia.
        exact H.
    + intros [Hle H]. destruct (Nat.eq_dec s i) as [->|Hne].
      * rewrite Nat.sub_diag in H. simpl in H. left. congruence.
      * right. split; [lia|].
        replace (i - s)%nat with (S (i - S s)) in H by lia.
        exact H.
Qed.

Lemma in_indexed {X} (l : list X) (i : nat) (x : X) :
  In (i, x) (indexed l) <-> nth_error l i = Some x.
Proof.
  unfold indexed. rewrite in_combine_seq, Nat.sub_0_r.
  split; [tauto|]. split; [lia|assumption].
Qed.

(** What the two nested loops collect. *)
Lemma in_detectConflicts (ops : list Operation) (c : Conflict) :
  In c (detectConflicts ops)
  <-> exists i j o1 o2,
        nth_error ops i = Some o1 /\ nth_error ops j = Some o2 /\ i <> j
        /\ conflictOfPair o1 o2 = Some c.
Proof.
  unfold detectConflicts. rewrite in_flat_map. split.
  - intros [[i o1] [Hi H]]. apply in_flat_map in H as [[j o2] [Hj H]].
    apply in_indexed in Hi, Hj.
    destruct (Nat.eqb_spec i j) as [->|Hne]; [destruct H|].
    exists i, j, o1, o2. repeat split; try assumption.
    destruct (conflictOfPair o1 o2); simpl in H; [|destruct H].
    destruct H as [->|[]]. reflexivity.
  - intros (i & j & o1 & o2 & Hi & Hj & Hne & H).
    exists (i, o1). split; [apply in_indexed; assumption|].
    apply in_flat_map. exists (j, o2). split; [apply in_indexed; assumption|].
    destruct (Nat.eqb_spec i j) as [->|_]; [contradiction|].
    rewrite H. simpl. auto.
Qed.

(** The guard and the classification of one pair. *)
Lemma conflictOfPair_Some (o1 o2 : Operation) (c : Conflict) :
  conflictOfPair o1 o2 = Some c
  <-> op1 c = o1 /\ op2 c = o2
      /\ (step o1 < step o2)%nat
      /\ transactionId o1 <> transactionId o2
      /\ variable o1 = Some (conflictVariable c)
      /\ variable o2 = Some (conflictVariable c)
      /\ conflictVariable c <> EmptyString
      /\ classify (type o1) (type o2) = Some (conflictType c).
Proof.
  unfold conflictOfPair. split.
  - destruct (variable o1) as [v|] eqn:Hv; [|discriminate].
    destruct (_ && _) eqn:G; [|discriminate].
    repeat rewrite andb_true_iff in G.
    destruct G as [[[[Htx Hne] Hvar] _] Hstep].
    destruct (classify (type o1) (type o2)) as [ct|] eqn:Hc; [|discriminate].
    intros [= <-]. simpl.
    apply negb_true_iff, String.eqb_neq in Htx.
    apply nonEmpty_true in Hne. apply optEqb_eq in Hvar.
    apply Nat.ltb_lt in Hstep. repeat split; congruence.
  - intros (H1 & H2 & Hstep & Htx & Hv1 & Hv2 & Hne & Hc).
    rewrite Hv1, Hv2, Hc.
    assert (G : negb (transactionId o1 =? transactionId o2)%string
                && nonEmpty (conflictVariable c)
                && optEqb (Some (conflictVariable c)) (Some (conflictVariable c))
                && (OperationType_eqb (type o1) W || OperationType_eqb (type o2) W)
                && (step o1 <? step o2)%nat = true).
    { repeat (apply andb_true_iff; split).
      - apply negb_true_iff, String.eqb_neq. assumption.
      - apply nonEmpty_true. assumption.
      - apply optEqb_eq. reflexivity.
      - destruct (type o1), (type o2); simpl in *; congruence.
      - apply Nat.ltb_lt. assumption. }
    rewrite G. destruct c; simpl in *. congruence.
Qed.

End DetectConflicts.

(** C1 (amended).  For every operation sequence, detectConflicts reports the
    conflict (op1, op2, type, variable) if and only if op1 and op2 are
    operations of the sequence with op1.step < op2.step, they belong to
    different transactions, both reference the same non-empty variable, and
    the pair of their types is Read/Write (type RW), Write/Read (type WR) or
    Write/Write (type WW); a Commit or an Abort that carries a variable takes
    part in no conflict.  In particular no reported conflict has
    op1.step >= op2.step, and a Read followed by a Read never conflicts. *)
Theorem detectConflicts_characterisation (ops : list Operation) :
  (forall (o1 o2 : Operation) (ct : ConflictType) (v : string),
     In {| op1 := o1; op2 := o2; conflictType := ct; conflictVariable := v |}
        (ConflictAnalyzer.detectConflicts ops)
     <-> In o1 ops /\ In o2 ops
         /\ (step o1 < step o2)%nat
         /\ transactionId o1 <> transactionId o2
         /\ variable o1 = Some v /\ variable o2 = Some v /\ v <> EmptyString
         /\ ((type o1 = R /\ type o2 = W /\ ct = RW)
             \/ (type o1 = W /\ type o2 = R /\ ct = WR)
             \/ (type o1 = W /\ type o2 = W /\ ct = WW)))
  /\ (forall c : Conflict,
        In c (ConflictAnalyzer.detectConflicts ops) ->
        (step (op1 c) < step (op2 c))%nat
        /\ ~ (type (op1 c) = R /\ type (op2 c) = R)).
Proof.
  split.
  - intros o1 o2 ct v. rewrite in_detectConflicts. split.
    + intros (i & j & a & b & Hi & Hj & _ & H).
      apply conflictOfPair_Some in H. simpl in H.
      destruct H as (<- & <- & Hstep & Htx & Hv1 & Hv2 & Hne & Hc).
      apply nth_error_In in Hi, Hj.
      repeat (split; [assumption|]).
      destruct (type o1), (type o2); simpl in Hc; try discriminate;
        injection Hc as <-; auto.
    + intros (H1 & H2 & Hstep & Htx & Hv1 & Hv2 & Hne & Hty).
      apply In_nth_error in H1 as [i Hi]. apply In_nth_error in H2 as [j Hj].
      exists i, j, o1, o2. repeat split; try assumption.
      * intros ->. rewrite Hi in Hj. injection Hj as ->. lia.
      * apply conflictOfPair_Some. simpl. repeat split; try assumption.
        destruct Hty as [(-> & -> & ->)|[(-> & -> & ->)|(-> & -> & ->)]]; reflexivity.
  - intros c Hc. apply in_detectConflicts in Hc as (i & j & a & b & _ & _ & _ & H).
    apply conflictOfPair_Some in H.
    destruct H as (<- & <- & Hstep & _ & _ & _ & _ & Hcl).
    split; [assumption|]. intros [Ha Hb]. rewrite Ha, Hb in Hcl. discriminate.
Qed.

(** C1 as stated fails: in the parsed schedule C1(X); W2(X) the Commit
    carries the variable X (the grammar of the parser accepts it), the two
    operations are in step order, belong to different transactions,
    reference the same non-empty variable and the second is a Write, yet no
    conflict is reported. *)
Lemma detectConflicts_commit_variable_counterexample :
  let ops := Parser.parseSchedule "C1(X); W2(X)" in
  exists o1 o2,
    ops = [o1; o2]
    /\ (step o1 < step o2)%nat
    /\ transactionId o1 <> transactionId o2
    /\ variable o1 = Some "X" /\ variable o2 = Some "X"
    /\ (type o1 = W \/ type o2 = W)
    /\ ConflictAnalyzer.detectConflicts ops = [].
Proof.
  eexists _, _. split; [vm_compute; reflexivity|]. simpl.
  repeat split; try reflexivity; try lia; try discriminate.
  right. reflexivity.
Qed.

(* ===================================================================== *)
(** * Texts and code points *)
(* ===================================================================== *)

Section Utf8.
Import Unicode.

Lemma string_app_nil_l (s : string) : EmptyString +:+ s = s.
Proof. reflexivity. Qed.

Lemma string_app_cons (c : ascii) (a b : string) :
  String c a +:+ b = String c (a +:+ b).
Proof. reflexivity. Qed.

Lemma string_app_nil_r (s : string) : s +:+ EmptyString = s.
Proof.
  induction s as [|c s IH]; [reflexivity|].
  rewrite string_app_cons, IH. reflexivity.
Qed.

Lemma string_app_assoc (a b c : string) : (a +:+ b) +:+ c = a +:+ (b +:+ c).
Proof.
  induction a as [|x a IH]; [reflexivity|].
  rewrite !string_app_cons, IH. reflexivity.
Qed.

Lemma byte_value (n : N) : (n < 256)%N -> N_of_ascii (byte n) = n.
Proof. apply N_ascii_embedding. Qed.

Lemma ascii_value_bound (b : ascii) : (N_of_ascii b < 256)%N.
Proof. apply N_ascii_bounded. Qed.

Lemma continuation_byte (n : N) :
  (n < 0x40)%N -> continuation (byte (0x80 + n)) = Some n.
Proof.
  intros H. unfold continuation. rewrite byte_value by lia.
  replace ((0x80 <=? 0x80 + n)%N && (0x80 + n <? 0xC0)%N) with true.
  - f_equal. lia.
  - symmetry. apply andb_true_iff. split; [apply N.leb_le|apply N.ltb_lt]; lia.
Qed.

(** The unfolding of [decode] at a non-empty text. *)
Lemma decode_cons (b1 : ascii) (s1 : string) :
  decode (String b1 s1)
  = let n1 := N_of_ascii b1 in
    let alone := n1 :: decode s1 in
    if (n1 <? 0xC0)%N then alone
    else
      match s1 with
      | EmptyString => alone
      | String b2 s2 =>
          match continuation b2 with
          | None => alone
          | Some x2 =>
              if (n1 <? 0xE0)%N then
                ((n1 - 0xC0) * 0x40 + x2)%N :: decode s2
              else
                match s2 with
                | EmptyString => alone
                | String b3 s3 =>
                    match continuation b3 with
                    | None => alone
                    | Some x3 =>
                        if (n1 <? 0xF0)%N then
                          ((n1 - 0xE0) * 0x1000 + x2 * 0x40 + x3)%N
                            :: decode s3
                        else
                          match s3 with
                          | EmptyString => alone
                          | String b4 s4 =>
                              match continuation b4 with
                              | None => alone
                              | Some x4 =>
                                  let c := ((n1 - 0xF0) * 0x40000
                                            + x2 * 0x1000 + x3 * 0x40 + x4)%N in
                                  if valid c then c :: decode s4 else alone
                              end
                          end
                    end
                end
          end
      end.
Proof. reflexivity. Qed.

Lemma ltb_false_ge (a b : N) : (b <= a)%N -> (a <? b)%N = false.
Proof. intros H. apply N.ltb_ge, H. Qed.

Lemma ltb_true_lt (a b : N) : (a < b)%N -> (a <? b)%N = true.
Proof. intros H. apply N.ltb_lt, H. Qed.

Ltac div_lia :=
  zify; Z.to_euclidean_division_equations; lia.

(** Reading the bytes of a code point gives the code point back. *)
Lemma decode_encode1 (c : N) (r : string) :
  valid c = true -> decode (encode1 c +:+ r) = c :: decode r.
Proof.
  unfold valid, encode1. intros Hv%N.ltb_lt.
  destruct (N.ltb_spec c 0x80) as [H1|H1].
  { rewrite string_app_cons, string_app_nil_l, decode_cons. cbv zeta.
    rewrite byte_value by lia. rewrite ltb_true_lt by lia. reflexivity. }
  destruct (N.ltb_spec c 0x800) as [H2|H2].
  { rewrite !string_app_cons, string_app_nil_l, decode_cons. cbv zeta.
    rewrite byte_value by div_lia. rewrite ltb_false_ge by div_lia.
    rewrite continuation_byte by div_lia. rewrite ltb_true_lt by div_lia.
    f_equal. div_lia. }
  destruct (N.ltb_spec c 0x10000) as [H3|H3].
  { rewrite !string_app_cons, string_app_nil_l, decode_cons. cbv zeta.
    rewrite byte_value by div_lia. rewrite ltb_false_ge by div_lia.
    rewrite continuation_byte by div_lia. rewrite ltb_false_ge by div_lia.
    rewrite continuation_byte by div_lia. rewrite ltb_true_lt by div_lia.
    f_equal. div_lia. }
  rewrite !string_app_cons, string_app_nil_l, decode_cons. cbv zeta.
  rewrite byte_value by div_lia. rewrite ltb_false_ge by div_lia.
  rewrite continuation_byte by div_lia. rewrite ltb_false_ge by div_lia.
  rewrite continuation_byte by div_lia. rewrite ltb_false_ge by div_lia.
  rewrite continuation_byte by div_lia.
  replace ((0xF0 + c / 0x40000 - 0xF0) * 0x40000 + (c / 0x1000) mod 0x40 * 0x1000
           + (c / 0x40) mod 0x40 * 0x40 + c mod 0x40)%N with c by div_lia.
  unfold valid. rewrite ltb_true_lt by lia. reflexivity.
Qed.


Lemma decode_encode (l : list N) :
  forallb valid l = true -> decode (encode l) = l.
Proof.
  induction l as [|c l IH]; simpl; [reflexivity|].
  intros [Hc Hl]%andb_true_iff. rewrite (decode_encode1 c _ Hc), (IH Hl).
  reflexivity.
Qed.

Lemma encode_app (a b : list N) : encode (a ++ b) = encode a +:+ encode b.
Proof.
  induction a as [|c a IH]; simpl; [reflexivity|].
  rewrite IH, string_app_assoc. reflexivity.
Qed.

Lemma encode1_nonEmpty (c : N) : exists b s, encode1 c = String b s.
Proof.
  unfold encode1.
  destruct (c <? 0x80)%N; [eauto|].
  destruct (c <? 0x800)%N; [eauto|].
  destruct (c <? 0x10000)%N; eauto.
Qed.

Lemma encode_nonEmpty (l : list N) :
  JS.nonEmpty (encode l) = TokenSpec.notNil l.
Proof.
  destruct l as [|c l]; simpl; [reflexivity|].
  destruct (encode1_nonEmpty c) as (b & s & ->). reflexivity.
Qed.

(** [decode] reads one code point and goes on with what is left, at most
    three bytes further. *)
Lemma decode_step (b1 : ascii) (s1 : string) :
  exists c rest,
    decode (String b1 s1) = c :: decode rest
    /\ valid c = true
    /\ (String.length rest <= String.length s1)%nat.
Proof.
  rewrite decode_cons. cbv zeta.
  pose proof (ascii_value_bound b1) as Hb1.
  assert (Halone : exists c rest,
             N_of_ascii b1 :: decode s1 = c :: decode rest
             /\ valid c = true /\ (String.length rest <= String.length s1)%nat).
  { exists (N_of_ascii b1), s1. split; [reflexivity|]. split; [|lia].
    unfold valid. apply N.ltb_lt. lia. }
  destruct (N.ltb_spec (N_of_ascii b1) 0xC0) as [H1|H1]; [exact Halone|].
  destruct s1 as [|b2 s2]; [exact Halone|].
  unfold continuation at 1.
  pose proof (ascii_value_bound b2) as Hb2.
  destruct ((0x80 <=? N_of_ascii b2)%N && (N_of_ascii b2 <? 0xC0)%N) eqn:E2;
    [|exact Halone].
  apply andb_true_iff in E2 as [E2a%N.leb_le E2b%N.ltb_lt].
  destruct (N.ltb_spec (N_of_ascii b1) 0xE0) as [H2|H2].
  { eexists _, s2. split; [reflexivity|]. split; [|simpl; lia].
    unfold valid. apply N.ltb_lt. lia. }
  destruct s2 as [|b3 s3]; [exact Halone|].
  unfold continuation at 1.
  pose proof (ascii_value_bound b3) as Hb3.
  destruct ((0x80 <=? N_of_ascii b3)%N && (N_of_ascii b3 <? 0xC0)%N) eqn:E3;
    [|exact Halone].
  apply andb_true_iff in E3 as [E3a%N.leb_le E3b%N.ltb_lt].
  destruct (N.ltb_spec (N_of_ascii b1) 0xF0) as [H3|H3].
  { eexists _, s3. split; [reflexivity|]. split; [|simpl; lia].
    unfold valid. apply N.ltb_lt. lia. }
  destruct s3 as [|b4 s4]; [exact Halone|].
  destruct (continuation b4) as [x4|]; [|exact Halone].
  destruct (valid _) eqn:Ev; [|exact Halone].
  eexists _, s4. split; [reflexivity|]. split; [exact Ev|simpl; lia].
Qed.

(** Every code point read from a text is a code point. *)
Lemma decode_valid (s : string) : forallb valid (decode s) = true.
Proof.
  assert (H : forall n s, (String.length s <= n)%nat ->
                          forallb valid (decode s) = true).
  { clear s. induction n as [|n IH]; intros [|b s] Hn; try reflexivity.
    - simpl in Hn. lia.
    - destruct (decode_step b s) as (c & rest & -> & Hc & Hlen).
      simpl. rewrite Hc. apply IH. simpl in Hn. lia. }
  apply (H (String.length s)). lia.
Qed.

(** ** ASCII bytes in the text of code points *)

Lemma encode1_ascii (c : N) :
  (c < 0x80)%N -> encode1 c = String (byte c) EmptyString.
Proof. intros H. unfold encode1. rewrite ltb_true_lt by exact H. reflexivity. Qed.

Lemma encode1_high (c : N) :
  valid c = true -> (0x80 <= c)%N -> highBytes (encode1 c) = true.
Proof.
  unfold valid, encode1. intros Hv%N.ltb_lt H1.
  rewrite ltb_false_ge by exact H1.
  destruct (N.ltb_spec c 0x800) as [H2|H2].
  { simpl. rewrite !byte_value by div_lia.
    rewrite !andb_true_r. apply andb_true_iff. split; apply N.leb_le; div_lia. }
  destruct (N.ltb_spec c 0x10000) as [H3|H3].
  { simpl. rewrite !byte_value by div_lia. rewrite !andb_true_r.
    repeat (apply andb_true_iff; split); apply N.leb_le; div_lia. }
  simpl. rewrite !byte_value by div_lia. rewrite !andb_true_r.
  repeat (apply andb_true_iff; split); apply N.leb_le; div_lia.
Qed.

(** A text without ASCII bytes in front of [y] lies within what precedes
    an ASCII byte. *)
Lemma highBytes_prefix (x y a : string) (b : ascii) (r : string) :
  highBytes x = true -> (N_of_ascii b < 0x80)%N ->
  x +:+ y = a +:+ String b r ->
  exists a', a = x +:+ a' /\ y = a' +:+ String b r.
Proof.
  intros Hx Hb. revert a. induction x as [|c x IH]; intros a E.
  - exists a. auto.
  - simpl in Hx. apply andb_true_iff in Hx as [Hc%N.leb_le Hx].
    rewrite string_app_cons in E. destruct a as [|d a].
    + rewrite string_app_nil_l in E. injection E as -> _. lia.
    + rewrite string_app_cons in E. injection E as -> E.
      destruct (IH Hx a E) as (a' & -> & Hy). exists a'. auto.
Qed.

(** An ASCII byte in the text of code points is one of the code points,
    and the text is cut there between code points. *)
Lemma encode_split_ascii (u : list N) (a : string) (b : ascii) (r : string) :
  forallb valid u = true -> (N_of_ascii b < 0x80)%N ->
  encode u = a +:+ String b r ->
  exists u1 u2, u = u1 ++ N_of_ascii b :: u2 /\ a = encode u1 /\ r = encode u2.
Proof.
  intros Hu Hb. revert a. induction u as [|c u IH]; intros a E.
  - destruct a; discriminate E.
  - simpl in Hu. apply andb_true_iff in Hu as [Hc Hu]. simpl in E.
    destruct (N.ltb_spec c 0x80) as [H1|H1].
    + rewrite (encode1_ascii c H1), string_app_cons, string_app_nil_l in E.
      destruct a as [|d a].
      * rewrite string_app_nil_l in E. injection E as <- <-.
        exists [], u. rewrite byte_value by lia. auto.
      * rewrite string_app_cons in E. injection E as <- E.
        destruct (IH Hu a E) as (u1 & u2 & -> & -> & ->).
        exists (c :: u1), u2. simpl. rewrite (encode1_ascii c H1). auto.
    + destruct (highBytes_prefix _ _ _ _ _ (encode1_high c Hc H1) Hb E)
        as (a' & -> & E').
      destruct (IH Hu a' E') as (u1 & u2 & -> & -> & ->).
      exists (c :: u1), u2. auto.
Qed.

End Utf8.

(* ===================================================================== *)
(** * The parser *)
(* ===================================================================== *)

(** ** Cutting a string at its separators *)

Section Tokens.
Import Unicode JS JS.CodePoints TokenSpec.

Lemma isSpace_isSeparator c : isSpace c = true -> isSeparator c = true.
Proof. unfold isSeparator. intros ->. apply orb_true_r. Qed.

Lemma semicolon_isSeparator c : (c =? 0x3B)%N = true -> isSeparator c = true.
Proof. unfold isSeparator. intros ->. rewrite orb_true_r. reflexivity. Qed.

Lemma split_cons sep l : exists h t, split sep l = h :: t.
Proof.
  induction l as [|c l IH]; simpl; eauto.
  destruct (c =? sep)%N; eauto.
  destruct IH as (h & t & ->). eauto.
Qed.

Lemma splitOn_cons p l : exists h t, splitOn p l = h :: t.
Proof.
  induction l as [|c l IH]; simpl; eauto.
  destruct (p c); eauto.
  destruct IH as (h & t & ->). eauto.
Qed.

(** The normalising [replace] followed by [split(';')] cuts the string at
    the same places as a split at every separator character, up to empty
    pieces.  The first piece is kept apart: it is extended when a character
    is put in front. *)
Lemma split_replaceRuns l :
  (head (split 0x3B (replaceRuns false l)) = head (splitOn isSeparator l)
   /\ List.filter notNil (tail (split 0x3B (replaceRuns false l)))
      = List.filter notNil (tail (splitOn isSeparator l)))
  /\ List.filter notNil (split 0x3B (replaceRuns true l))
     = List.filter notNil (splitOn isSeparator l).
Proof.
  induction l as [|c l [[IHh IHt] IHr]]; simpl; [auto|].
  destruct (isSeparator c) eqn:Hc; simpl.
  - auto.
  - assert (Hsemi : (c =? 0x3B)%N = false).
    { destruct (c =? 0x3B)%N eqn:E; [|reflexivity].
      apply semicolon_isSeparator in E. congruence. }
    rewrite Hsemi.
    destruct (split_cons 0x3B%N (replaceRuns false l)) as (h & t & E1).
    destruct (splitOn_cons isSeparator l) as (h' & t' & E2).
    rewrite E1, E2 in *. simpl in *. injection IHh as ->.
    rewrite IHt. auto.
Qed.

Lemma filter_split_replaceRuns l :
  List.filter notNil (split 0x3B (replaceRuns false l))
  = List.filter notNil (splitOn isSeparator l).
Proof.
  destruct (split_replaceRuns l) as [[Hh Ht] _].
  destruct (split_cons 0x3B%N (replaceRuns false l)) as (h & t & E1).
  destruct (splitOn_cons isSeparator l) as (h' & t' & E2).
  rewrite E1, E2 in *. simpl in *. injection Hh as ->. rewrite Ht. reflexivity.
Qed.

(** Trimming the input only removes empty pieces. *)
Lemma splitOn_trimStart l :
  List.filter notNil (splitOn isSeparator (trimStart l))
  = List.filter notNil (splitOn isSeparator l).
Proof.
  induction l as [|c l IH]; simpl; [reflexivity|].
  destruct (isSpace c) eqn:Hc.
  - rewrite (isSpace_isSeparator _ Hc). simpl. exact IH.
  - reflexivity.
Qed.

Lemma splitOn_trimEnd l :
  head (splitOn isSeparator (trimEnd l)) = head (splitOn isSeparator l)
  /\ List.filter notNil (tail (splitOn isSeparator (trimEnd l)))
     = List.filter notNil (tail (splitOn isSeparator l)).
Proof.
  induction l as [|c l [IHh IHt]]; simpl; [auto|].
  destruct (splitOn_cons isSeparator l) as (h' & t' & E2).
  destruct (trimEnd l) as [|d r] eqn:Er.
  - simpl in IHh, IHt. rewrite E2 in IHh, IHt. simpl in IHh, IHt.
    injection IHh as <-.
    destruct (isSpace c) eqn:Hc.
    + rewrite (isSpace_isSeparator _ Hc). simpl. rewrite E2. simpl.
      rewrite <- IHt. auto.
    + simpl. destruct (isSeparator c); rewrite E2; simpl; rewrite <- IHt; auto.
  - destruct (splitOn_cons isSeparator (d :: r)) as (h & t & E1).
    rewrite E1, E2 in IHh, IHt. simpl in IHh, IHt. injection IHh as ->.
    change (splitOn isSeparator (c :: d :: r))
      with (if isSeparator c then [] :: splitOn isSeparator (d :: r)
            else match splitOn isSeparator (d :: r) with
                 | piece :: pieces => (c :: piece) :: pieces
                 | [] => [[c]]
                 end).
    rewrite E1, E2. destruct (isSeparator c); simpl.
    + split; [reflexivity|]. destruct (notNil h'); congruence.
    + split; [reflexivity|assumption].
Qed.

Lemma tokens_trim l : tokens (trim l) = tokens l.
Proof.
  unfold tokens, trim. rewrite <- (splitOn_trimStart l).
  destruct (splitOn_trimEnd (trimStart l)) as [Hh Ht].
  destruct (splitOn_cons isSeparator (trimEnd (trimStart l))) as (h & t & E1).
  destruct (splitOn_cons isSeparator (trimStart l)) as (h' & t' & E2).
  rewrite E1, E2 in *. simpl in *. injection Hh as ->. rewrite Ht. reflexivity.
Qed.

Lemma splitOn_separatorFree l :
  Forall (fun t => separatorFree t = true) (splitOn isSeparator l).
Proof.
  induction l as [|c l IH]; simpl; [repeat constructor|].
  destruct (isSeparator c) eqn:Hc; [constructor; [reflexivity|assumption]|].
  destruct (splitOn_cons isSeparator l) as (h & t & E). rewrite E in *.
  inversion IH; subst. constructor; [|assumption]. simpl. rewrite Hc. assumption.
Qed.

Lemma split_replaceRuns_separatorFree b l :
  Forall (fun t => separatorFree t = true) (split 0x3B (replaceRuns b l)).
Proof.
  revert b. induction l as [|c l IH]; intros b; simpl; [repeat constructor|].
  destruct (isSeparator c) eqn:Hc.
  - destruct b; simpl; [apply IH|]. constructor; [reflexivity|apply IH].
  - simpl. destruct (c =? 0x3B)%N eqn:E.
    { apply semicolon_isSeparator in E. congruence. }
    specialize (IH false).
    destruct (split_cons 0x3B%N (replaceRuns false l)) as (h & t & E1).
    rewrite E1 in *.
    inversion IH; subst. constructor; [|assumption]. simpl. rewrite Hc. assumption.
Qed.

Lemma trimStart_separatorFree t : separatorFree t = true -> trimStart t = t.
Proof.
  destruct t as [|c t]; simpl; [reflexivity|].
  intros [Hc _]%andb_true_iff. destruct (isSpace c) eqn:E; [|reflexivity].
  apply isSpace_isSeparator in E. rewrite E in Hc. discriminate.
Qed.

Lemma trimEnd_separatorFree t : separatorFree t = true -> trimEnd t = t.
Proof.
  induction t as [|c t IH]; simpl; [reflexivity|].
  intros [Hc Ht]%andb_true_iff. rewrite (IH Ht).
  destruct t; [|reflexivity].
  destruct (isSpace c) eqn:E; [|reflexivity].
  apply isSpace_isSeparator in E. rewrite E in Hc. discriminate.
Qed.

Lemma trim_separatorFree t : separatorFree t = true -> trim t = t.
Proof.
  intros H. unfold trim. rewrite (trimStart_separatorFree _ H).
  apply trimEnd_separatorFree, H.
Qed.

(** ** The code points stay code points *)

Lemma valid_trimStart l :
  forallb valid l = true -> forallb valid (trimStart l) = true.
Proof.
  induction l as [|c l IH]; simpl; [reflexivity|].
  intros H. destruct (isSpace c); [|exact H].
  apply andb_true_iff in H as [_ H]. exact (IH H).
Qed.

Lemma valid_trimEnd l :
  forallb valid l = true -> forallb valid (trimEnd l) = true.
Proof.
  induction l as [|c l IH]; simpl; [reflexivity|].
  intros [Hc Hl]%andb_true_iff. specialize (IH Hl).
  destruct (trimEnd l) as [|d r].
  - destruct (isSpace c); simpl; [reflexivity|]. rewrite Hc. reflexivity.
  - simpl in *. rewrite Hc. exact IH.
Qed.

Lemma valid_trim l : forallb valid l = true -> forallb valid (trim l) = true.
Proof. intros H. apply valid_trimEnd, valid_trimStart, H. Qed.

Lemma valid_replaceRuns b l :
  forallb valid l = true -> forallb valid (replaceRuns b l) = true.
Proof.
  revert b. induction l as [|c l IH]; intros b; simpl; [reflexivity|].
  intros [Hc Hl]%andb_true_iff.
  destruct (isSeparator c).
  - destruct b; [exact (IH true Hl)|].
    change (valid 0x3B && forallb valid (replaceRuns true l) = true).
    change (valid 0x3B) with true. exact (IH true Hl).
  - simpl. rewrite Hc. exact (IH false Hl).
Qed.

Lemma valid_split sep l :
  forallb valid l = true ->
  Forall (fun t => forallb valid t = true) (split sep l).
Proof.
  induction l as [|c l IH]; simpl; [repeat constructor|].
  intros [Hc Hl]%andb_true_iff. specialize (IH Hl).
  destruct (c =? sep)%N; [constructor; [reflexivity|exact IH]|].
  destruct (split_cons sep l) as (h & t & E). rewrite E in *.
  inversion IH; subst. constructor; [|assumption]. simpl. rewrite Hc. assumption.
Qed.

Lemma valid_splitOn p l :
  forallb valid l = true ->
  Forall (fun t => forallb valid t = true) (splitOn p l).
Proof.
  induction l as [|c l IH]; simpl; [repeat constructor|].
  intros [Hc Hl]%andb_true_iff. specialize (IH Hl).
  destruct (p c); [constructor; [reflexivity|exact IH]|].
  destruct (splitOn_cons p l) as (h & t & E). rewrite E in *.
  inversion IH; subst. constructor; [|assumption]. simpl. rewrite Hc. assumption.
Qed.

(** A token: code points without a separator. *)
Lemma tokens_wellFormed l :
  forallb valid l = true ->
  Forall (fun t => forallb valid t = true /\ separatorFree t = true) (tokens l).
Proof.
  intros Hl. unfold tokens. apply List.Forall_forall. intros t Ht.
  apply List.filter_In in Ht as [Ht _]. split.
  - exact (proj1 (List.Forall_forall _ _) (valid_splitOn _ l Hl) t Ht).
  - exact (proj1 (List.Forall_forall _ _) (splitOn_separatorFree l) t Ht).
Qed.

End Tokens.

(** ** The primitives on texts *)

Section Primitives.
Import Unicode JS TokenSpec.

Lemma trim_encode l :
  forallb valid l = true -> trim (encode l) = encode (CodePoints.trim l).
Proof. intros H. unfold trim. rewrite (decode_encode l H). reflexivity. Qed.

Lemma toUpperCase_encode l :
  forallb valid l = true ->
  toUpperCase (encode l) = encode (CodePoints.toUpperCase l).
Proof. intros H. unfold toUpperCase. rewrite (decode_encode l H). reflexivity. Qed.

Lemma filter_map_encode (f : string -> bool) (g : list N -> bool)
    (ts : list (list N)) :
  (forall t, In t ts -> f (encode t) = g t) ->
  List.filter f (map encode ts) = map encode (List.filter g ts).
Proof.
  induction ts as [|t ts IH]; simpl; intros H; [reflexivity|].
  rewrite (H t) by auto. rewrite IH by auto. destruct (g t); reflexivity.
Qed.

(** The tokens the parser iterates over are the normalised tokens of the
    specification. *)
Lemma opStrings_normalizedTokens s : Parser.opStrings s = normalizedTokens s.
Proof.
  unfold Parser.opStrings, normalizedTokens, split, replaceSeparators, trim.
  pose proof (valid_trim _ (decode_valid s)) as Ht.
  rewrite (decode_encode _ Ht).
  rewrite (decode_encode _ (valid_replaceRuns false _ Ht)).
  change (N_of_ascii ";") with 0x3B%N.
  rewrite (filter_map_encode _ notNil).
  - rewrite filter_split_replaceRuns.
    change (map encode (tokens (CodePoints.trim (decode s)))
            = map encode (tokens (decode s))).
    rewrite tokens_trim. reflexivity.
  - intros t Hin.
    pose proof (proj1 (List.Forall_forall _ _)
                  (valid_split 0x3B%N _ (valid_replaceRuns false _ Ht)) t Hin) as Hv.
    pose proof (proj1 (List.Forall_forall _ _)
                  (split_replaceRuns_separatorFree false
                     (CodePoints.trim (decode s))) t Hin) as Hf.
    simpl in Hv, Hf.
    rewrite (decode_encode t Hv), (trim_separatorFree t Hf).
    apply encode_nonEmpty.
Qed.

Lemma parseSchedule_normalizedTokens s :
  Parser.parseSchedule s = Parser.parseTokens 0 (normalizedTokens s).
Proof.
  unfold Parser.parseSchedule. destruct (nonEmpty (trim s)) eqn:E.
  - rewrite opStrings_normalizedTokens. reflexivity.
  - unfold normalizedTokens. rewrite <- tokens_trim.
    unfold trim in E. rewrite encode_nonEmpty in E.
    destruct (CodePoints.trim (decode s)); [reflexivity|discriminate].
Qed.

(** A normalised token is the text of code points without a separator. *)
Lemma normalizedTokens_wellFormed s (tok : string) :
  In tok (normalizedTokens s) ->
  exists t, tok = encode t /\ forallb valid t = true /\ separatorFree t = true.
Proof.
  unfold normalizedTokens. intros (t & <- & Ht)%in_map_iff.
  exists t. split; [reflexivity|].
  exact (proj1 (List.Forall_forall _ _)
           (tokens_wellFormed _ (decode_valid s)) t Ht).
Qed.

End Primitives.

(** ** Upper-casing *)

Section UpperCase.
Import Unicode JS TokenSpec.

Lemma lookup_In (c : N) (table : list (N * list N)) (u : list N) :
  lookup c table = Some u -> In (c, u) table.
Proof.
  induction table as [|[k v] table IH]; simpl; [discriminate|].
  destruct (N.eqb_spec k c) as [->|_].
  - intros [= ->]. auto.
  - auto.
Qed.

(** The table, entry by entry: an upper-case form is not empty, consists of
    code points that have no upper-case form of their own, and neither a
    code point of the table nor its upper-case form holds a separator. *)
Lemma upperTable_checked :
  forallb
    (fun e : N * list N =>
       notNil (snd e)
       && forallb valid (snd e)
       && forallb (fun d => match lookup d upperTable with
                            | None => true | Some _ => false end) (snd e)
       && negb (isSeparator (fst e))
       && separatorFree (snd e))
    upperTable = true.
Proof. vm_compute. reflexivity. Qed.

Lemma upperTable_entry (c : N) (u : list N) :
  lookup c upperTable = Some u ->
  notNil u = true /\ forallb valid u = true
  /\ (forall d, In d u -> lookup d upperTable = None)
  /\ isSeparator c = false /\ separatorFree u = true.
Proof.
  intros H%lookup_In.
  pose proof (proj1 (forallb_forall _ _) upperTable_checked _ H) as Hc.
  cbv beta in Hc. change (fst (c, u)) with c in Hc. change (snd (c, u)) with u in Hc.
  apply andb_true_iff in Hc as [Hc H5]. apply andb_true_iff in Hc as [Hc H4].
  apply andb_true_iff in Hc as [Hc H3]. apply andb_true_iff in Hc as [H1 H2].
  split; [exact H1|]. split; [exact H2|]. split.
  - intros d Hd. pose proof (proj1 (forallb_forall _ _) H3 d Hd) as Hl.
    cbv beta in Hl. destruct (lookup d upperTable); [discriminate|reflexivity].
  - split; [apply negb_true_iff, H4|exact H5].
Qed.

Lemma upperCodePoint_notNil c : notNil (upperCodePoint c) = true.
Proof.
  unfold upperCodePoint. destruct (lookup c upperTable) as [u|] eqn:E;
    [|reflexivity].
  apply (upperTable_entry c u E).
Qed.

Lemma upperCodePoint_valid c :
  valid c = true -> forallb valid (upperCodePoint c) = true.
Proof.
  intros Hc. unfold upperCodePoint.
  destruct (lookup c upperTable) as [u|] eqn:E.
  - apply (upperTable_entry c u E).
  - simpl. rewrite Hc. reflexivity.
Qed.

(** The code points of an upper-case form are their own upper-case form. *)
Lemma upperCodePoint_fixed c d :
  In d (upperCodePoint c) -> upperCodePoint d = [d].
Proof.
  unfold upperCodePoint at 1.
  destruct (lookup c upperTable) as [u|] eqn:E.
  - intros Hd. destruct (upperTable_entry c u E) as (_ & _ & H & _).
    unfold upperCodePoint. rewrite (H d Hd). reflexivity.
  - intros [<-|[]]. unfold upperCodePoint. rewrite E. reflexivity.
Qed.


Lemma upperCodePoint_separatorFree c :
  isSeparator c = false -> separatorFree (upperCodePoint c) = true.
Proof.
  intros Hc. unfold upperCodePoint.
  destruct (lookup c upperTable) as [u|] eqn:E.
  - apply (upperTable_entry c u E).
  - simpl. rewrite Hc. reflexivity.
Qed.

Lemma toUpperCase_app (a b : list N) :
  CodePoints.toUpperCase (a ++ b)
  = CodePoints.toUpperCase a ++ CodePoints.toUpperCase b.
Proof. apply flat_map_app. Qed.

Lemma toUpperCase_cons (c : N) (l : list N) :
  CodePoints.toUpperCase (c :: l) = upperCodePoint c ++ CodePoints.toUpperCase l.
Proof. reflexivity. Qed.

(** Code points each of which is its own upper-case form. *)
Lemma toUpperCase_fixed (l : list N) :
  (forall d, In d l -> upperCodePoint d = [d]) -> CodePoints.toUpperCase l = l.
Proof.
  induction l as [|c l IH]; intros H; [reflexivity|].
  rewrite toUpperCase_cons, (H c) by (left; reflexivity).
  rewrite IH by (intros d Hd; apply H; right; exact Hd). reflexivity.
Qed.

Lemma toUpperCase_all_fixed (l : list N) (d : N) :
  In d (CodePoints.toUpperCase l) -> upperCodePoint d = [d].
Proof.
  unfold CodePoints.toUpperCase. intros (c & _ & Hd)%in_flat_map.
  exact (upperCodePoint_fixed c d Hd).
Qed.

Lemma points_toUpperCase_idempotent (l : list N) :
  CodePoints.toUpperCase (CodePoints.toUpperCase l) = CodePoints.toUpperCase l.
Proof. apply toUpperCase_fixed, toUpperCase_all_fixed. Qed.

Lemma valid_toUpperCase (l : list N) :
  forallb valid l = true -> forallb valid (CodePoints.toUpperCase l) = true.
Proof.
  induction l as [|c l IH]; [reflexivity|].
  simpl forallb at 1. intros [Hc Hl]%andb_true_iff.
  rewrite toUpperCase_cons, forallb_app, (upperCodePoint_valid c Hc), (IH Hl).
  reflexivity.
Qed.

Lemma separatorFree_app (a b : list N) :
  separatorFree (a ++ b) = separatorFree a && separatorFree b.
Proof. apply forallb_app. Qed.

Lemma separatorFree_toUpperCase (l : list N) :
  separatorFree l = true -> separatorFree (CodePoints.toUpperCase l) = true.
Proof.
  induction l as [|c l IH]; [reflexivity|].
  simpl separatorFree at 1. intros [Hc Hl]%andb_true_iff.
  apply negb_true_iff in Hc.
  rewrite toUpperCase_cons, separatorFree_app,
    (upperCodePoint_separatorFree c Hc), (IH Hl).
  reflexivity.
Qed.

Lemma notNil_toUpperCase (l : list N) :
  notNil (CodePoints.toUpperCase l) = notNil l.
Proof.
  destruct l as [|c l]; [reflexivity|]. rewrite toUpperCase_cons.
  pose proof (upperCodePoint_notNil c) as H.
  destruct (upperCodePoint c); [discriminate H|reflexivity].
Qed.

(** [String.prototype.toUpperCase] is idempotent. *)
Lemma toUpperCase_idempotent s : toUpperCase (toUpperCase s) = toUpperCase s.
Proof.
  unfold toUpperCase.
  rewrite (decode_encode _ (valid_toUpperCase _ (decode_valid s))).
  rewrite points_toUpperCase_idempotent. reflexivity.
Qed.

(** Separator-free code points in front of a string join its first piece. *)
Lemma splitOn_app_separatorFree (u l : list N) :
  separatorFree u = true ->
  splitOn isSeparator (u ++ l)
  = match splitOn isSeparator l with
    | piece :: pieces => (u ++ piece) :: pieces
    | [] => [u]
    end.
Proof.
  destruct (splitOn_cons isSeparator l) as (h & t & E). rewrite E.
  induction u as [|c u IH]; simpl; [intros _; exact E|].
  intros [Hc Hu]%andb_true_iff. apply negb_true_iff in Hc.
  rewrite Hc, (IH Hu). reflexivity.
Qed.




Lemma matchesGrammar_toUpperCase t :
  matchesGrammar (toUpperCase t) = matchesGrammar t.
Proof. unfold matchesGrammar. rewrite toUpperCase_idempotent. reflexivity. Qed.

(** Trimming leaves a normalised token and its upper-case form as they
    are. *)
Lemma normalizedTokens_trimmed s :
  Forall (fun tok => trim tok = tok /\ trim (toUpperCase tok) = toUpperCase tok)
         (normalizedTokens s).
Proof.
  apply List.Forall_forall. intros tok Htok.
  destruct (normalizedTokens_wellFormed s tok Htok) as (t & -> & Hv & Hf).
  split.
  - rewrite (trim_encode t Hv), (trim_separatorFree t Hf). reflexivity.
  - rewrite (toUpperCase_encode t Hv).
    rewrite (trim_encode _ (valid_toUpperCase t Hv)).
    rewrite (trim_separatorFree _ (separatorFree_toUpperCase t Hf)).
    reflexivity.
Qed.

End UpperCase.

(** ** The loop over the tokens *)

Section ParserProofs.
Import Unicode JS Parser TokenSpec.


(** Each produced operation records the position and the upper-cased text
    of its token; the tokens that do not match are skipped but counted. *)
Lemma parseTokens_positions (toks : list string) (i : nat) :
  Forall (fun tok => trim tok = tok /\ trim (toUpperCase tok) = toUpperCase tok)
         toks ->
  map (fun op => (step op, originalString op)) (parseTokens i toks)
  = List.filter (fun p => matchesGrammar (snd p))
      (positioned i (map toUpperCase toks)).
Proof.
  intros H. revert i. unfold positioned.
  induction H as [|t l [Ht _] _ IH]; intros i; simpl; [reflexivity|].
  rewrite Ht.
  unfold matchesGrammar at 1. rewrite toUpperCase_idempotent.
  destruct (matchOperation (toUpperCase t)) as [[[ty num] var]|]; simpl;
    rewrite IH; reflexivity.
Qed.

Lemma parseTokens_step_ge (toks : list string) (i : nat) (op : Operation) :
  In op (parseTokens i toks) -> (i <= step op)%nat.
Proof.
  revert i. induction toks as [|t l IH]; intros i; simpl; [tauto|].
  destruct (matchOperation _) as [[[ty num] var]|].
  - intros [<-|H]; simpl; [lia|]. apply IH in H. lia.
  - intros H. apply IH in H. lia.
Qed.

Lemma parseTokens_sorted (toks : list string) (i : nat) :
  StronglySorted lt (map step (parseTokens i toks)).
Proof.
  revert i. induction toks as [|t l IH]; intros i; simpl; [constructor|].
  destruct (matchOperation _) as [[[ty num] var]|]; [|apply IH].
  simpl. constructor; [apply IH|].
  apply List.Forall_forall. intros n Hn. apply in_map_iff in Hn as (op & <- & Hop).
  apply parseTokens_step_ge in Hop. lia.
Qed.

Lemma parseTokens_all_valid (toks : list string) (i : nat) :
  Forall (fun tok => trim tok = tok /\ trim (toUpperCase tok) = toUpperCase tok)
         toks ->
  forallb matchesGrammar toks = true ->
  map step (parseTokens i toks) = seq i (length toks)
  /\ map originalString (parseTokens i toks) = map toUpperCase toks.
Proof.
  intros H. revert i. induction H as [|t l [Ht _] _ IH]; intros i; simpl; [auto|].
  intros [Hv Hl]%andb_true_iff. rewrite Ht.
  unfold matchesGrammar in Hv.
  destruct (matchOperation (toUpperCase t)) as [[[ty num] var]|]; [|discriminate].
  simpl. destruct (IH (S i) Hl) as [-> ->]. auto.
Qed.

Lemma map_snd_filter_positioned (f : string -> bool) (l : list string) (i : nat) :
  map snd (List.filter (fun p => f (snd p)) (positioned i l)) = List.filter f l.
Proof.
  revert i. unfold positioned. induction l as [|t l IH]; intros i; simpl; [reflexivity|].
  destruct (f t); simpl; rewrite IH; reflexivity.
Qed.

Lemma filter_all (f : string -> bool) (l : list string) :
  forallb f l = true -> List.filter f l = l.
Proof.
  induction l as [|t l IH]; simpl; [reflexivity|].
  intros [-> Hl]%andb_true_iff. rewrite (IH Hl). reflexivity.
Qed.

Lemma insertByStep_head (x : Operation) (l : list Operation) :
  Forall (fun y => (step x < step y)%nat) l -> TwoPL.insertByStep x l = x :: l.
Proof.
  destruct 1 as [|y l Hy _]; simpl; [reflexivity|].
  destruct (Nat.leb_spec (step x) (step y)); [reflexivity|lia].
Qed.

(** Sorting by step leaves a sequence with increasing steps as it is. *)
Lemma sortByStep_sorted (l : list Operation) :
  StronglySorted lt (map step l) -> TwoPL.sortByStep l = l.
Proof.
  induction l as [|x l IH]; simpl; [reflexivity|].
  intros H. inversion H as [|? ? Hs Hall]; subst.
  unfold TwoPL.sortByStep in *. simpl. rewrite (IH Hs).
  apply insertByStep_head. apply List.Forall_forall. intros y Hy.
  exact (proj1 (List.Forall_forall _ _) Hall (step y) (in_map step _ _ Hy)).
Qed.

(** ** The variable of a parsed operation is cut out of its text *)

Lemma span_app p s : fst (span p s) +:+ snd (span p s) = s.
Proof.
  induction s as [|c s IH]; simpl; [reflexivity|].
  destruct (p c); [|reflexivity].
  destruct (span p s) as [a b]. simpl in *. rewrite string_app_cons, IH.
  reflexivity.
Qed.

(** The shape of a text that matches with a variable. *)
Lemma matchOperation_variable_shape opStr ty num v :
  matchOperation opStr = Some (ty, num, Some v) ->
  exists c, opStr = String c num +:+ String "(" (v +:+ String ")" EmptyString).
Proof.
  unfold matchOperation. destruct opStr as [|c rest]; [discriminate|].
  destruct (typeOfChar c); [|discriminate].
  pose proof (span_app isDigit rest) as Hrest.
  destruct (span isDigit rest) as [digits tail]. simpl in Hrest.
  destruct (nonEmpty digits); [|discriminate].
  destruct tail as [|d inner]; [discriminate|].
  pose proof (span_app notRParen inner) as Hinner.
  destruct (span notRParen inner) as [name close]. simpl in Hinner.
  destruct (Ascii.eqb_spec d "("%char) as [->|Hd].
  - destruct (nonEmpty name) ; simpl; [|discriminate].
    destruct (String.eqb_spec close ")") as [->|_]; [|discriminate].
    intros [= _ <- <-]. exists c.
    rewrite string_app_cons, Hinner, Hrest. reflexivity.
  - destruct d as [[] [] [] [] [] [] [] []]; try discriminate. contradiction.
Qed.

(** The variable matched in the text of code points is the text of some
    of these code points. *)
Lemma matchOperation_variable_points (u : list N) ty num v :
  forallb valid u = true ->
  matchOperation (encode u) = Some (ty, num, Some v) ->
  exists lv, v = encode lv /\ forall d, In d lv -> In d u.
Proof.
  intros Hu H. destruct (matchOperation_variable_shape _ _ _ _ H) as [c E].
  assert (Hopen : (N_of_ascii "(" < 0x80)%N) by (vm_compute; reflexivity).
  assert (Hclose : (N_of_ascii ")" < 0x80)%N) by (vm_compute; reflexivity).
  destruct (encode_split_ascii u (String c num) "("
              (v +:+ String ")" EmptyString) Hu Hopen E)
    as (u1 & u2 & -> & _ & E2).
  rewrite forallb_app in Hu. apply andb_true_iff in Hu as [_ Hu2].
  change (valid (N_of_ascii "(") && forallb valid u2 = true) in Hu2.
  apply andb_true_iff in Hu2 as [_ Hu2].
  destruct (encode_split_ascii u2 v ")" EmptyString Hu2 Hclose (eq_sym E2))
    as (lv & u3 & -> & -> & _).
  exists lv. split; [reflexivity|]. intros d Hd.
  rewrite in_app_iff. right. right. rewrite in_app_iff. left. exact Hd.
Qed.

(** The text and the variable of a parsed operation are their own
    upper-case form. *)
Lemma parseTokens_upperCased (toks : list string) (i : nat) (op : Operation) :
  In op (parseTokens i toks) ->
  toUpperCase (originalString op) = originalString op
  /\ forall v, variable op = Some v -> toUpperCase v = v.
Proof.
  revert i. induction toks as [|t l IH]; intros i; simpl; [tauto|].
  destruct (matchOperation _) as [[[ty num] var]|] eqn:E; [|apply IH].
  intros [<-|H]; [|exact (IH _ H)]. simpl. split.
  - apply toUpperCase_idempotent.
  - intros v ->. unfold toUpperCase at 1 in E.
    pose proof (valid_toUpperCase _ (decode_valid (trim t))) as Hu.
    destruct (matchOperation_variable_points _ _ _ _ Hu E) as (lv & -> & Hlv).
    assert (Hv : forallb valid lv = true).
    { apply forallb_forall. intros d Hd.
      exact (proj1 (forallb_forall _ _) Hu d (Hlv d Hd)). }
    rewrite (toUpperCase_encode lv Hv). f_equal.
    apply toUpperCase_fixed. intros d Hd.
    exact (toUpperCase_all_fixed _ d (Hlv d Hd)).
Qed.

End ParserProofs.

(** Beyond ASCII: a no-break space (U+00A0) and an ideographic space
    (U+3000) separate tokens like a blank does, and in a variable the
    upper-case form of é is É, that of the sharp s is SS and that of ÿ is
    outside Latin-1. *)
Lemma parseSchedule_beyond_ascii :
  map (fun op => (step op, originalString op))
      (Parser.parseSchedule
         ("R1(X)" +:+ Unicode.encode [0xA0%N] +:+ "W2(X)"
          +:+ Unicode.encode [0x3000%N] +:+ "C1"))
  = [(0, "R1(X)"); (1, "W2(X)"); (2, "C1")]
  /\ map variable (Parser.parseSchedule "r1(é); w2(ß); r3(ÿ)")
     = [Some "É"; Some "SS"; Some "Ÿ"].
Proof. vm_compute. split; reflexivity. Qed.

(** C7 (amended).  For every input string, each operation that
    parseSchedule produces has step equal to the 0-based position of its
    token among all normalised tokens of the input, whether they match the
    grammar or not: the produced (step, text) pairs are exactly the
    positioned upper-cased tokens that match.  Consequently the steps are
    strictly increasing, and they are exactly 0, 1, ..., n-1 when every
    token matches the grammar. *)
Theorem parseSchedule_steps (s : string) :
  let toks := TokenSpec.normalizedTokens s in
  map (fun op => (step op, originalString op)) (Parser.parseSchedule s)
  = List.filter (fun p => TokenSpec.matchesGrammar (snd p))
      (TokenSpec.positioned 0 (map JS.toUpperCase toks))
  /\ StronglySorted lt (map step (Parser.parseSchedule s))
  /\ (forallb TokenSpec.matchesGrammar toks = true ->
      map step (Parser.parseSchedule s) = seq 0 (length (Parser.parseSchedule s))).
Proof.
  intros toks. rewrite parseSchedule_normalizedTokens. fold toks.
  pose proof (normalizedTokens_trimmed s) as Hfree. fold toks in Hfree.
  split; [apply parseTokens_positions, Hfree|].
  split; [apply parseTokens_sorted|].
  intros Hall. destruct (parseTokens_all_valid toks 0 Hfree Hall) as [Hsteps _].
  rewrite Hsteps. f_equal.
  rewrite <- (length_map step), Hsteps, length_seq. reflexivity.
Qed.

(** In "R1(X); W2(X); C1" every token matches, and the steps are 0, 1, 2. *)
Lemma parseSchedule_steps_witness :
  let s := "R1(X); W2(X); C1" in
  forallb TokenSpec.matchesGrammar (TokenSpec.normalizedTokens s) = true
  /\ map step (Parser.parseSchedule s) = [0; 1; 2].
Proof.
  split; [vm_compute; reflexivity|].
  destruct (parseSchedule_steps "R1(X); W2(X); C1") as (_ & _ & H).
  rewrite (H eq_refl). vm_compute. reflexivity.
Defined.

(** C7 as stated fails: in "foo; R1(X)" the token foo is dropped, and the
    only operation produced, R1(X), has step 1 although it is the first
    valid token; the steps are not 0, ..., n-1. *)
Lemma parseSchedule_steps_gap_counterexample :
  let ops := Parser.parseSchedule "foo; R1(X)" in
  map originalString ops = ["R1(X)"]
  /\ map step ops = [1]
  /\ map step ops <> seq 0 (length ops).
Proof. vm_compute. repeat split. discriminate. Qed.

(** C8 (amended).  For every input string, the operations produced by
    parseSchedule are in step order, and their stored texts, read off in
    that order, are the upper-cased normalised tokens of the input that
    match the grammar, in the order of the input; the tokens that do not
    match are missing.  When every token matches, the texts reproduce the
    whole normalised token sequence up to letter case. *)
Theorem parseSchedule_round_trip (s : string) :
  let toks := TokenSpec.normalizedTokens s in
  TwoPL.sortByStep (Parser.parseSchedule s) = Parser.parseSchedule s
  /\ map originalString (Parser.parseSchedule s)
     = List.filter TokenSpec.matchesGrammar (map JS.toUpperCase toks)
  /\ (forallb TokenSpec.matchesGrammar toks = true ->
      map originalString (Parser.parseSchedule s) = map JS.toUpperCase toks).
Proof.
  intros toks.
  pose proof (normalizedTokens_trimmed s) as Hfree. fold toks in Hfree.
  split; [apply sortByStep_sorted; rewrite parseSchedule_normalizedTokens;
          apply parseTokens_sorted|].
  rewrite parseSchedule_normalizedTokens. fold toks. split.
  - rewrite <- (map_snd_filter_positioned TokenSpec.matchesGrammar _ 0).
    rewrite <- parseTokens_positions by exact Hfree.
    rewrite map_map. reflexivity.
  - intros Hall. apply (parseTokens_all_valid toks 0 Hfree Hall).
Qed.

(** In "r1(x), w2(X) c1" every token matches, and the texts of the
    operations are the upper-cased tokens. *)
Lemma parseSchedule_round_trip_witness :
  let s := "r1(x), w2(X) c1" in
  forallb TokenSpec.matchesGrammar (TokenSpec.normalizedTokens s) = true
  /\ map originalString (Parser.parseSchedule s) = ["R1(X)"; "W2(X)"; "C1"].
Proof.
  split; [vm_compute; reflexivity|].
  destruct (parseSchedule_round_trip "r1(x), w2(X) c1") as (_ & _ & H).
  rewrite (H eq_refl). vm_compute. reflexivity.
Defined.

(** C8 as stated fails: the normalised tokens of "R1(X); foo; W2(X)" are
    R1(X), foo, W2(X), but the texts of the parsed operations are only R1(X)
    and W2(X). *)
Lemma parseSchedule_round_trip_counterexample :
  let s := "R1(X); foo; W2(X)" in
  map JS.toUpperCase (TokenSpec.normalizedTokens s) = ["R1(X)"; "FOO"; "W2(X)"]
  /\ map originalString (TwoPL.sortByStep (Parser.parseSchedule s)) = ["R1(X)"; "W2(X)"]
  /\ map originalString (TwoPL.sortByStep (Parser.parseSchedule s))
     <> map JS.toUpperCase (TokenSpec.normalizedTokens s).
Proof. vm_compute. repeat split. discriminate. Qed.


(* ===================================================================== *)
(** * The precedence graph *)
(* ===================================================================== *)

(** ** The depth-first search always returns *)

Section DfsTotal.
Import ConflictAnalyzer.

Variable adj : gmap string (list string).
Variable universe : gset string.
Hypothesis adj_closed :
  forall node targets neighbor,
    adj !! node = Some targets -> neighbor ∈ targets -> neighbor ∈ universe.

(** Nodes still to be visited. *)
Local Abbreviation unvisited st := (size (universe ∖ visited st)).

Lemma unvisited_mono (st st' : DfsState) :
  visited st ⊆ visited st' -> unvisited st' <= unvisited st.
Proof.
  intros H. apply (subseteq_size (universe ∖ visited st') (universe ∖ visited st)).
  set_solver.
Qed.

Lemma unvisited_enter (node : string) (st st' : DfsState) :
  node ∈ universe -> node ∉ visited st -> {[node]} ∪ visited st ⊆ visited st' ->
  unvisited st' < unvisited st.
Proof.
  intros Hu Hv Hsub.
  apply (subset_size (universe ∖ visited st') (universe ∖ visited st)).
  split; [set_solver|].
  intros H. assert (node ∈ universe ∖ visited st') by (apply H; set_solver).
  set_solver.
Qed.

(** The loop over the neighbours returns when the recursive call does. *)
Lemma visitNeighbors_total (recurse : string -> DfsState -> option (bool * DfsState))
    (bound : nat) (node : string) (neighbors : list string) (st : DfsState) :
  (forall n s, n ∈ universe -> n ∉ visited s -> unvisited s <= bound ->
     exists b s', recurse n s = Some (b, s') /\ visited s ⊆ visited s') ->
  (forall n, n ∈ neighbors -> n ∈ universe) ->
  unvisited st <= bound ->
  exists b st', visitNeighbors recurse node neighbors st = Some (b, st')
                /\ visited st ⊆ visited st'.
Proof.
  intros Hrec. revert st.
  induction neighbors as [|neighbor rest IH]; intros st Hclosed Hbound; simpl.
  - eexists _, _. split; [reflexivity|]. simpl. set_solver.
  - assert (Hrest : forall n, n ∈ rest -> n ∈ universe) by (intros; apply Hclosed; set_solver).
    destruct (decide (neighbor ∈ visited st)) as [Hv|Hv].
    + destruct (decide (neighbor ∈ recursionStack st)).
      * eexists _, _. split; [reflexivity|]. simpl. set_solver.
      * apply IH; assumption.
    + destruct (Hrec neighbor st) as (b & s' & -> & Hsub);
        [apply Hclosed; set_solver|assumption|assumption|].
      destruct b.
      * eexists _, _. split; [reflexivity|assumption].
      * destruct (IH s' Hrest) as (b & st' & -> & Hsub').
        { pose proof (unvisited_mono st s' Hsub). lia. }
        eexists _, _. split; [reflexivity|]. set_solver.
Qed.

(** With more fuel than unvisited nodes [dfs] returns a result. *)
Lemma dfs_total (fuel : nat) (node : string) (st : DfsState) :
  node ∈ universe -> node ∉ visited st -> unvisited st < fuel ->
  exists b st', dfs fuel adj node st = Some (b, st')
                /\ visited st ⊆ visited st'.
Proof.
  revert node st. induction fuel as [|fuel IH]; intros node st Hu Hv Hfuel; [lia|].
  simpl.
  set (entered := {| visited := {[node]} ∪ visited st;
                     recursionStack := {[node]} ∪ recursionStack st;
                     path := path st ++ [node] |}).
  assert (Hentered : unvisited entered < unvisited st).
  { apply (unvisited_enter node); [assumption|assumption|reflexivity]. }
  destruct (visitNeighbors_total (dfs fuel adj) (unvisited entered) node
              (default [] (adj !! node)) entered) as (b & st' & E & Hsub).
  - intros n s Hn Hs Hb. apply IH; [assumption|assumption|lia].
  - intros n Hn. destruct (adj !! node) as [targets|] eqn:Eadj; simpl in Hn.
    + exact (adj_closed node targets n Eadj Hn).
    + set_solver.
  - lia.
  - exists b, st'. split; [exact E|]. simpl in Hsub. set_solver.
Qed.

Lemma detectCycleFrom_total (fuel : nat) (ns : list string) (st : DfsState) :
  (forall n, n ∈ ns -> n ∈ universe) -> size universe < fuel ->
  exists r, detectCycleFrom fuel adj ns st = Some r.
Proof.
  intros Hns Hfuel. revert st.
  induction ns as [|node rest IH]; intros st; simpl; [eauto|].
  assert (Hrest : forall n, n ∈ rest -> n ∈ universe) by (intros; apply Hns; set_solver).
  destruct (decide (node ∈ visited st)); [apply IH, Hrest|].
  destruct (dfs_total fuel node st) as (b & st' & -> & _).
  - apply Hns. set_solver.
  - assumption.
  - assert (size (universe ∖ visited st) <= size universe); [|lia].
    apply (subseteq_size (universe ∖ visited st) universe). set_solver.
  - destruct b; [eauto|apply IH, Hrest].
Qed.

End DfsTotal.

Section DetectCycleTotal.
Import ConflictAnalyzer.

Lemma pushTarget_closed (adj : gmap string (list string)) (e : GraphEdge)
    (universe : gset string) :
  target e ∈ universe ->
  (forall node targets n, adj !! node = Some targets -> n ∈ targets -> n ∈ universe) ->
  forall node targets n,
    pushTarget adj e !! node = Some targets -> n ∈ targets -> n ∈ universe.
Proof.
  intros Ht Hadj node targets n. unfold pushTarget.
  destruct (adj !! source e) as [ts|] eqn:E; [|apply Hadj].
  destruct (decide (source e = node)) as [<-|Hne].
  - rewrite lookup_insert_eq. intros [= <-] Hn.
    apply elem_of_app in Hn as [Hn|Hn]; [exact (Hadj _ _ _ E Hn)|set_solver].
  - rewrite lookup_insert_ne by exact Hne. apply Hadj.
Qed.

Lemma fold_pushTarget_closed (es : list GraphEdge) (adj : gmap string (list string))
    (universe : gset string) :
  (forall e, e ∈ es -> target e ∈ universe) ->
  (forall node targets n, adj !! node = Some targets -> n ∈ targets -> n ∈ universe) ->
  forall node targets n,
    fold_left pushTarget es adj !! node = Some targets -> n ∈ targets -> n ∈ universe.
Proof.
  revert adj. induction es as [|e es IH]; intros adj Hes Hadj; simpl; [exact Hadj|].
  apply IH; [intros; apply Hes; set_solver|].
  apply pushTarget_closed; [apply Hes; set_solver|exact Hadj].
Qed.

Lemma fold_empty_lists (ns : list string) (m : gmap string (list string)) :
  (forall node targets, m !! node = Some targets -> targets = []) ->
  forall node targets,
    fold_left (fun adj n => <[n := []]> adj) ns m !! node = Some targets ->
    targets = [].
Proof.
  revert m. induction ns as [|x l IH]; intros m Hm node targets; simpl; [apply Hm|].
  apply IH. intros node' targets'.
  destruct (decide (x = node')) as [<-|Hne].
  - rewrite lookup_insert_eq. congruence.
  - rewrite lookup_insert_ne by exact Hne. apply Hm.
Qed.

Lemma adjacency_closed (ns : list string) (es : list GraphEdge) :
  forall node targets n,
    adjacency ns es !! node = Some targets -> n ∈ targets ->
    n ∈ (list_to_set ns ∪ list_to_set (map target es) : gset string).
Proof.
  unfold adjacency. apply fold_pushTarget_closed.
  - intros e He. apply elem_of_union_r, elem_of_list_to_set.
    apply list_elem_of_In, in_map, list_elem_of_In, He.
  - intros node targets n Hlook Hn.
    apply (fold_empty_lists ns ∅) in Hlook; [subst; set_solver|].
    intros node' targets'. rewrite lookup_empty. discriminate.
Qed.

Lemma size_list_to_set_le (l : list string) :
  size (list_to_set l : gset string) <= length l.
Proof.
  induction l as [|x l IH].
  - rewrite list_to_set_nil, size_empty. simpl. lia.
  - rewrite list_to_set_cons, size_union_alt, size_singleton. simpl.
    assert (size ((list_to_set l : gset string) ∖ {[x]}) <= size (list_to_set l : gset string)).
    { apply subseteq_size. set_solver. }
    lia.
Qed.

(** The fuel that [detectCycle] gives to the search is enough. *)
Lemma detectCycle_total (ns : list string) (es : list GraphEdge) :
  exists hasCycle cyclePath, detectCycle ns es = Some (hasCycle, cyclePath).
Proof.
  unfold detectCycle.
  destruct (detectCycleFrom_total (adjacency ns es)
              (list_to_set ns ∪ list_to_set (map target es))
              (adjacency_closed ns es) (dfsFuel ns es) ns
              {| visited := ∅; recursionStack := ∅; path := [] |}) as [[b p] ->].
  - intros n Hn. apply elem_of_union_l, elem_of_list_to_set, Hn.
  - unfold dfsFuel.
    pose proof (size_list_to_set_le ns). pose proof (size_list_to_set_le (map target es)).
    rewrite length_map in *.
    assert (size ((list_to_set ns : gset string) ∪ list_to_set (map target es))
            <= size (list_to_set ns : gset string)
               + size (list_to_set (map target es) : gset string)).
    { rewrite size_union_alt.
      assert (size ((list_to_set (map target es) : gset string) ∖ list_to_set ns)
              <= size (list_to_set (map target es) : gset string)).
      { apply subseteq_size. set_solver. }
      lia. }
    lia.
  - eauto.
Qed.

(** [buildPrecedenceGraph] returns a graph for every input. *)
Lemma buildPrecedenceGraph_total (transactionIds : list string)
    (conflicts : list Conflict) :
  exists g, buildPrecedenceGraph transactionIds conflicts = Some g.
Proof.
  unfold buildPrecedenceGraph.
  destruct (detectCycle_total transactionIds (uniqueEdges (map edgeOfConflict conflicts)))
    as (hasCycle & cyclePath & ->).
  eauto.
Qed.

End DetectCycleTotal.

(** C2.  Scenario B: the schedule R1(X); W2(X); R2(Y); W1(Y), parsed and
    analysed, has a precedence graph with exactly the two edges T1->T2
    (labelled by the conflict on X) and T2->T1 (labelled by the conflict on
    Y); the graph is reported as not serializable, both edges are marked as
    cycle edges, and the list of cycle edges consists of these two edges. *)
Theorem scenario_b_cycle :
  let ops := Parser.parseSchedule "R1(X); W2(X); R2(Y); W1(Y)" in
  exists g,
    ConflictAnalyzer.buildPrecedenceGraph
      (Parser.getUniqueTransactionIds ops) (ConflictAnalyzer.detectConflicts ops)
    = Some g
    /\ map (fun c => (originalString (op1 c), originalString (op2 c),
                      conflictType c, conflictVariable c))
           (ConflictAnalyzer.detectConflicts ops)
       = [("R1(X)", "W2(X)", RW, "X"); ("R2(Y)", "W1(Y)", RW, "Y")]
    /\ map (fun e => (source e, target e, label e)) (edges g)
       = [("T1", "T2", "RW(X)"); ("T2", "T1", "RW(Y)")]
    /\ isSerializable g = false
    /\ Forall (fun e => isCycleEdge e = Some true) (edges g)
    /\ cycleEdges g = edges g.
Proof.
  eexists. split; [vm_compute; reflexivity|].
  repeat split; try (vm_compute; reflexivity).
  repeat constructor.
Qed.

(* ===================================================================== *)
(** * Cascadelessness *)
(* ===================================================================== *)

Section Schedules.
Import JS TwoPL.

(** ** Distinct steps *)

Lemma distinct_step_inj (ops : list Operation) (a b : Operation) :
  List.NoDup (map step ops) ->
  In a ops -> In b ops -> step a = step b -> a = b.
Proof.
  induction ops as [|x l IH]; simpl; [tauto|].
  intros H. apply List.NoDup_cons_iff in H as [Hx Hl].
  intros [<-|Ha] [<-|Hb] E; auto.
  - exfalso. apply Hx. rewrite E. apply in_map, Hb.
  - exfalso. apply Hx. rewrite <- E. apply in_map, Ha.
Qed.

Lemma sorted_distinct (ops : list Operation) :
  StronglySorted lt (map step ops) -> List.NoDup (map step ops).
Proof.
  induction ops as [|x l IH]; simpl; [constructor|].
  intros H. inversion H as [|? ? Hs Hall]; subst. constructor; [|auto].
  intros Hin. pose proof (proj1 (List.Forall_forall _ _) Hall _ Hin). lia.
Qed.

Lemma sorted_filter (f : Operation -> bool) (ops : list Operation) :
  StronglySorted lt (map step ops) ->
  StronglySorted lt (map step (List.filter f ops)).
Proof.
  induction ops as [|x l IH]; simpl; [auto|].
  intros H. inversion H as [|? ? Hs Hall]; subst.
  destruct (f x); [|auto]. simpl. constructor; [auto|].
  apply List.Forall_forall. intros n Hn.
  apply in_map_iff in Hn as (y & <- & Hy). apply filter_In in Hy as [Hy _].
  exact (proj1 (List.Forall_forall _ _) Hall (step y) (in_map step _ _ Hy)).
Qed.

(** ** The stable sort by step *)

Lemma insertByStep_In (x y : Operation) (l : list Operation) :
  In y (insertByStep x l) <-> y = x \/ In y l.
Proof.
  induction l as [|z l IH]; simpl; [intuition congruence|].
  destruct (step x <=? step z)%nat; simpl; [intuition congruence|].
  rewrite IH. intuition congruence.
Qed.

Lemma sortByStep_In (y : Operation) (l : list Operation) :
  In y (sortByStep l) <-> In y l.
Proof.
  induction l as [|x l IH]; simpl; [tauto|].
  unfold sortByStep in *. simpl. rewrite insertByStep_In, IH. intuition congruence.
Qed.

Lemma insertByStep_ordered (x : Operation) (l : list Operation) :
  StronglySorted (fun a b => step a <= step b)%nat l ->
  StronglySorted (fun a b => step a <= step b)%nat (insertByStep x l).
Proof.
  induction 1 as [|z l Hs IH Hall]; simpl; [repeat constructor|].
  destruct (Nat.leb_spec (step x) (step z)).
  - constructor; [constructor; assumption|].
    constructor; [assumption|].
    apply List.Forall_forall. intros y Hy.
    pose proof (proj1 (List.Forall_forall _ _) Hall y Hy). simpl in *. lia.
  - constructor; [exact IH|].
    apply List.Forall_forall. intros y Hy. apply insertByStep_In in Hy as [->|Hy].
    + lia.
    + exact (proj1 (List.Forall_forall _ _) Hall y Hy).
Qed.

Lemma sortByStep_ordered (l : list Operation) :
  StronglySorted (fun a b => step a <= step b)%nat (sortByStep l).
Proof.
  induction l as [|x l IH]; [constructor|].
  unfold sortByStep in *. simpl. apply insertByStep_ordered, IH.
Qed.

Lemma sorted_ordered (l : list Operation) :
  StronglySorted lt (map step l) ->
  StronglySorted (fun a b => step a <= step b)%nat l.
Proof.
  induction l as [|x l IH]; simpl; [constructor|].
  intros H. inversion H as [|? ? Hs Hall]; subst. constructor; [auto|].
  apply List.Forall_forall. intros y Hy.
  pose proof (proj1 (List.Forall_forall _ _) Hall (step y) (in_map step _ _ Hy)). lia.
Qed.

(** In a sequence ordered by step [find] returns an element of least step
    among those that satisfy the predicate. *)
Lemma ordered_find_least (f : Operation -> bool) (ops : list Operation) :
  StronglySorted (fun a b => step a <= step b)%nat ops ->
  match List.find f ops with
  | Some o => In o ops /\ f o = true
              /\ forall o', In o' ops -> f o' = true -> (step o <= step o')%nat
  | None => forall o', In o' ops -> f o' = false
  end.
Proof.
  induction 1 as [|x l Hs IH Hall]; simpl; [tauto|].
  destruct (f x) eqn:Hx.
  - split; [auto|]. split; [assumption|]. intros o' [<-|Ho'] _; [lia|].
    exact (proj1 (List.Forall_forall _ _) Hall o' Ho').
  - destruct (List.find f l) as [o|].
    + destruct IH as (Ho & Hf & Hleast). split; [auto|]. split; [assumption|].
      intros o' [<-|Ho'] Hf'; [congruence|auto].
    + intros o' [<-|Ho']; auto.
Qed.

Lemma sorted_find_least (f : Operation -> bool) (ops : list Operation) :
  StronglySorted lt (map step ops) ->
  match List.find f ops with
  | Some o => In o ops /\ f o = true
              /\ forall o', In o' ops -> f o' = true -> (step o <= step o')%nat
  | None => forall o', In o' ops -> f o' = false
  end.
Proof. intros H. apply ordered_find_least, sorted_ordered, H. Qed.

Lemma find_filter (f g : Operation -> bool) (ops : list Operation) :
  List.find f (List.filter g ops) = List.find (fun o => g o && f o) ops.
Proof.
  induction ops as [|x l IH]; simpl; [reflexivity|].
  destruct (g x); simpl; [|assumption]. destruct (f x); [reflexivity|assumption].
Qed.

(** The operations of one transaction in [getOperationsByTransactionMap]. *)
Lemma grouped_lookup (ops : list Operation) (m : gmap string (list Operation))
    (txId : string) :
  fold_left
    (fun m op => <[transactionId op := default [] (m !! transactionId op) ++ [op]]> m)
    ops m !! txId
  = match List.filter (fun op => String.eqb (transactionId op) txId) ops with
    | [] => m !! txId
    | l => Some (default [] (m !! txId) ++ l)
    end.
Proof.
  revert m. induction ops as [|x l IH]; intros m; simpl; [reflexivity|].
  rewrite IH. destruct (String.eqb_spec (transactionId x) txId) as [->|Hne].
  - rewrite lookup_insert_eq. simpl.
    destruct (List.filter _ l); [reflexivity|].
    rewrite <- app_assoc. reflexivity.
  - rewrite lookup_insert_ne by exact Hne. reflexivity.
Qed.

Lemma getOperationsByTransactionMap_lookup (ops : list Operation) (txId : string) :
  getOperationsByTransactionMap ops !! txId
  = match List.filter (fun op => String.eqb (transactionId op) txId) ops with
    | [] => None
    | l => Some (sortByStep l)
    end.
Proof.
  unfold getOperationsByTransactionMap. rewrite lookup_fmap, grouped_lookup.
  rewrite lookup_empty. destruct (List.filter _ ops); reflexivity.
Qed.

Lemma getOperationsByTransactionMap_sorted (ops : list Operation) (o : Operation) :
  StronglySorted lt (map step ops) -> In o ops ->
  getOperationsByTransactionMap ops !! transactionId o
  = Some (List.filter (fun op => String.eqb (transactionId op) (transactionId o)) ops).
Proof.
  intros Hs Ho. rewrite getOperationsByTransactionMap_lookup.
  pose proof (sortByStep_sorted _
                (sorted_filter
                   (fun op => String.eqb (transactionId op) (transactionId o)) ops Hs))
    as Hsort.
  assert (H : In o (List.filter
                      (fun op => String.eqb (transactionId op) (transactionId o)) ops)).
  { apply filter_In. split; [assumption|apply String.eqb_refl]. }
  destruct (List.filter _ ops) eqn:E; [destruct H|].
  rewrite Hsort. reflexivity.
Qed.

(** The operation list of a transaction that occurs in the schedule. *)
Lemma getOperationsByTransactionMap_In (ops : list Operation) (o : Operation) :
  In o ops ->
  getOperationsByTransactionMap ops !! transactionId o
  = Some (sortByStep
            (List.filter (fun op => String.eqb (transactionId op) (transactionId o)) ops)).
Proof.
  intros Ho. rewrite getOperationsByTransactionMap_lookup.
  assert (H : In o (List.filter
                      (fun op => String.eqb (transactionId op) (transactionId o)) ops)).
  { apply filter_In. split; [assumption|apply String.eqb_refl]. }
  destruct (List.filter _ ops); [destruct H|reflexivity].
Qed.

(** Whether a transaction has an operation of a given type before a step
    is decided by the first such operation of its sorted operation list. *)
Lemma terminatesBefore_find (ops : list Operation) (t : OperationType)
    (txId : string) (s : nat) :
  ScheduleSpec.terminatesBefore ops t txId s
  <-> match List.find (fun op => OperationType_eqb (type op) t)
              (sortByStep
                 (List.filter (fun op => String.eqb (transactionId op) txId) ops)) with
      | Some o => (step o < s)%nat
      | None => False
      end.
Proof.
  set (txOps := sortByStep
                  (List.filter (fun op => String.eqb (transactionId op) txId) ops)).
  assert (Hmem : forall o, In o txOps <-> In o ops /\ transactionId o = txId).
  { intros o. unfold txOps. rewrite sortByStep_In, filter_In, String.eqb_eq. tauto. }
  pose proof (ordered_find_least (fun op => OperationType_eqb (type op) t) txOps
                (sortByStep_ordered _)) as Hfind.
  unfold ScheduleSpec.terminatesBefore.
  destruct (List.find _ txOps) as [o|].
  - destruct Hfind as (Ho & Hty & Hleast).
    apply Hmem in Ho as [Ho Htx]. apply OperationType_eqb_eq in Hty. split.
    + intros (o' & Ho' & Htx' & Hty' & Hlt).
      assert (step o <= step o')%nat; [|lia]. apply Hleast.
      * apply Hmem. auto.
      * apply OperationType_eqb_eq, Hty'.
    + intros Hlt. exists o. auto.
  - split; [|tauto]. intros (o' & Ho' & Htx' & Hty' & _).
    assert (Hin : In o' txOps) by (apply Hmem; auto).
    specialize (Hfind o' Hin). apply OperationType_eqb_eq in Hty'. congruence.
Qed.

(** The candidates of the inner loop of [analyzeCascadeless]. *)
Lemma priorWriter_guard (ops : list Operation) (r o : Operation) :
  In o ops ->
  ScheduleSpec.priorWriter ops r o
  <-> negb (step r <=? step o)%nat
      && (OperationType_eqb (type o) W
          && optEqb (variable o) (variable r)
          && negb (String.eqb (transactionId o) (transactionId r))) = true.
Proof.
  intros Ho. unfold ScheduleSpec.priorWriter.
  rewrite !andb_true_iff, !negb_true_iff, Nat.leb_gt, String.eqb_neq,
    OperationType_eqb_eq, optEqb_eq.
  tauto.
Qed.

(** The scan for the latest writer: the step component never decreases, it
    bounds the steps of all candidates seen, and the result is either the
    initial accumulator or one of the candidates. *)
Lemma latestWriter_scan (r : Operation) (scanned ops : list Operation)
    (acc : option string * Z) :
  (forall o, In o ops -> In o scanned) ->
  let res := latestWriter (transactionId r) (variable r) (step r) ops acc in
  (snd acc <= snd res)%Z
  /\ (forall o, In o ops -> ScheduleSpec.priorWriter scanned r o ->
                (Z.of_nat (step o) <= snd res)%Z)
  /\ (res = acc
      \/ exists w, In w ops /\ ScheduleSpec.priorWriter scanned r w
                   /\ res = (Some (transactionId w), Z.of_nat (step w))).
Proof.
  revert acc. induction ops as [|x l IH]; intros acc Hsub; simpl.
  - split; [lia|]. split; [tauto|auto].
  - assert (Hx : In x scanned) by (apply Hsub; left; reflexivity).
    assert (Hl : forall o, In o l -> In o scanned) by (intros; apply Hsub; right; auto).
    pose proof (priorWriter_guard scanned r x Hx) as Hguard.
    set (acc' := if (step r <=? step x)%nat then acc else _).
    destruct (IH acc' Hl) as (Hmono & Hbound & Hres).
    assert (Hacc : (snd acc <= snd acc')%Z
                   /\ (ScheduleSpec.priorWriter scanned r x ->
                       (Z.of_nat (step x) <= snd acc')%Z)
                   /\ (acc' = acc
                       \/ (ScheduleSpec.priorWriter scanned r x
                           /\ acc' = (Some (transactionId x), Z.of_nat (step x))))).
    { subst acc'. destruct (step r <=? step x)%nat eqn:E1; simpl in Hguard.
      - split; [lia|]. split; [|auto]. intros H. apply Hguard in H. discriminate.
      - destruct (OperationType_eqb (type x) W && optEqb (variable x) (variable r)
                  && negb (String.eqb (transactionId x) (transactionId r))) eqn:E2;
          simpl.
        + destruct (Z.ltb_spec (snd acc) (Z.of_nat (step x))); simpl.
          * split; [lia|]. split; [lia|]. right. split; [apply Hguard|]; reflexivity.
          * split; [lia|]. split; [lia|auto].
        + split; [lia|]. split; [|auto]. intros H. apply Hguard in H. discriminate. }
    destruct Hacc as (Hm' & Hb' & Hr').
    split; [lia|]. split.
    + intros o [<-|Ho] Hp; [specialize (Hb' Hp); lia|auto].
    + destruct Hres as [->|(w & Hw & Hp & ->)].
      * destruct Hr' as [->|[Hp ->]]; [auto|]. right. exists x. auto.
      * right. exists w. auto.
Qed.

(** The latest writer found for a read: none when there is no prior writer,
    otherwise the prior writer of largest step. *)
Lemma latestWriter_result (r : Operation) (ops : list Operation) :
  match fst (latestWriter (transactionId r) (variable r) (step r) ops (None, (-1)%Z)) with
  | None => forall w, ~ ScheduleSpec.priorWriter ops r w
  | Some txId =>
      exists w, ScheduleSpec.latestPriorWriter ops r w /\ txId = transactionId w
  end.
Proof.
  destruct (latestWriter_scan r ops ops (None, (-1)%Z) (fun _ H => H))
    as (_ & Hbound & Hres).
  destruct Hres as [E|(w & Hw & Hp & E)]; rewrite E in *; simpl in *.
  - intros w Hp. pose proof Hp as (Hw & _). specialize (Hbound w Hw Hp). lia.
  - exists w. split; [|reflexivity]. split; [assumption|].
    intros w' Hp'. pose proof Hp' as (Hw' & _). specialize (Hbound w' Hw' Hp'). lia.
Qed.

Lemma latestPriorWriter_unique (ops : list Operation) (r w w' : Operation) :
  List.NoDup (map step ops) ->
  ScheduleSpec.latestPriorWriter ops r w ->
  ScheduleSpec.latestPriorWriter ops r w' -> w = w'.
Proof.
  intros Hs [Hp Hmax] [Hp' Hmax'].
  apply (distinct_step_inj ops); [assumption|apply Hp|apply Hp'|].
  specialize (Hmax w' Hp'). specialize (Hmax' w Hp). lia.
Qed.

(** What the checker decides for one operation of the schedule. *)
Lemma readIsClean_spec (ops : list Operation) (r : Operation) :
  List.NoDup (map step ops) ->
  Forall (fun o => transactionId o <> EmptyString) ops ->
  In r ops ->
  readIsClean ops (getOperationsByTransactionMap ops) r = true
  <-> (type r = R -> truthy (variable r) = true ->
       forall w, ScheduleSpec.latestPriorWriter ops r w ->
         ScheduleSpec.terminatesBefore ops A (transactionId w) (step r)
         \/ ScheduleSpec.terminatesBefore ops C (transactionId w) (step r)).
Proof.
  intros Hs Hids Hr. unfold readIsClean.
  destruct (OperationType_eqb (type r) R && truthy (variable r)) eqn:Hread.
  2:{ split; [|reflexivity]. intros _ Hty Hvar.
      apply OperationType_eqb_eq in Hty. rewrite Hty, Hvar in Hread. discriminate. }
  apply andb_true_iff in Hread as [Hty Hvar]. apply OperationType_eqb_eq in Hty.
  pose proof (latestWriter_result r ops) as Hlw.
  destruct (fst (latestWriter _ _ _ ops _)) as [txId|].
  2:{ split; [|reflexivity]. intros _ _ _ w [Hp _]. destruct (Hlw w Hp). }
  destruct Hlw as (w & Hlatest & ->).
  pose proof Hlatest as [(Hw & _) _].
  assert (Hne : nonEmpty (transactionId w) = true).
  { apply nonEmpty_true. exact (proj1 (List.Forall_forall _ _) Hids w Hw). }
  rewrite Hne, (getOperationsByTransactionMap_In ops w Hw).
  set (writerOps :=
         sortByStep
           (List.filter (fun op => String.eqb (transactionId op) (transactionId w)) ops)).
  (* the read is clean iff the writer terminated in time *)
  transitivity
    (ScheduleSpec.terminatesBefore ops A (transactionId w) (step r)
     \/ ScheduleSpec.terminatesBefore ops C (transactionId w) (step r)).
  2:{ split.
      - intros H _ _ w' Hw'.
        rewrite <- (latestPriorWriter_unique ops r w w' Hs Hlatest Hw'). exact H.
      - intros H. exact (H Hty Hvar w Hlatest). }
  (* the abort test *)
  assert (HA : match List.find (fun op => OperationType_eqb (type op) A) writerOps with
               | Some a => (step a <? step r)%nat
               | None => false
               end = true
               <-> ScheduleSpec.terminatesBefore ops A (transactionId w) (step r)).
  { rewrite (terminatesBefore_find ops A (transactionId w) (step r)).
    fold writerOps.
    destruct (List.find (fun op => OperationType_eqb (type op) A) writerOps) as [a|].
    - apply Nat.ltb_lt.
    - split; [discriminate|tauto]. }
  (* the commit test: the commit is not the read, so "not after" is "before" *)
  assert (HC : match List.find (fun op => OperationType_eqb (type op) C) writerOps with
               | None => false
               | Some c => negb (step r <? step c)%nat
               end = true
               <-> ScheduleSpec.terminatesBefore ops C (transactionId w) (step r)).
  { rewrite (terminatesBefore_find ops C (transactionId w) (step r)).
    fold writerOps.
    pose proof (ordered_find_least (fun op => OperationType_eqb (type op) C) writerOps
                  (sortByStep_ordered _)) as Hc.
    destruct (List.find (fun op => OperationType_eqb (type op) C) writerOps) as [c|];
      [|split; [discriminate|tauto]].
    destruct Hc as (Hin & Hf & _).
    apply sortByStep_In, filter_In in Hin as [Hin _].
    apply OperationType_eqb_eq in Hf.
    assert (step c <> step r).
    { intros E. apply (distinct_step_inj ops c r Hs Hin Hr) in E. congruence. }
    rewrite negb_true_iff, Nat.ltb_ge. lia. }
  rewrite <- HA, <- HC.
  destruct (match List.find (fun op => OperationType_eqb (type op) A) writerOps with
            | Some a => (step a <? step r)%nat
            | None => false
            end); intuition congruence.
Qed.

End Schedules.

(** Every parsed schedule has strictly increasing steps and non-empty
    transaction identifiers. *)
Lemma parseSchedule_well_formed (s : string) :
  StronglySorted lt (map step (Parser.parseSchedule s))
  /\ Forall (fun o => transactionId o <> EmptyString) (Parser.parseSchedule s).
Proof.
  rewrite parseSchedule_normalizedTokens. split; [apply parseTokens_sorted|].
  generalize 0%nat. induction (TokenSpec.normalizedTokens s) as [|t l IH];
    intros i; simpl; [constructor|].
  destruct (Parser.matchOperation _) as [[[ty num] var]|]; [|apply IH].
  constructor; [discriminate|apply IH].
Qed.

(** C4.  For every operation sequence with pairwise distinct steps and
    non-empty transaction identifiers (every parsed schedule is one),
    analyzeCascadeless returns true if and only if, for every Read of a
    variable X at step s by a transaction T_j, the Write on X of largest
    step strictly below s by another transaction T_i, when there is one,
    belongs to a transaction that aborts strictly before s or commits
    strictly before s.  It returns false when, for some such read, T_i does
    not abort before s and has no commit or commits only at or after s.  In
    particular the analysis of W1(X); R2(X); A1 reports
    isCascadeless = false and allowsCascadingAborts = true. *)
Theorem analyzeCascadeless_spec (ops : list Operation)
    (Hdistinct : List.NoDup (map step ops))
    (Hids : Forall (fun o => transactionId o <> EmptyString) ops) :
  (TwoPL.analyzeCascadeless ops (TwoPL.getOperationsByTransactionMap ops) = true
   <-> forall r, In r ops -> type r = R -> JS.truthy (variable r) = true ->
       forall w, ScheduleSpec.latestPriorWriter ops r w ->
         ScheduleSpec.terminatesBefore ops A (transactionId w) (step r)
         \/ ScheduleSpec.terminatesBefore ops C (transactionId w) (step r))
  /\ (forall r w,
        In r ops -> type r = R -> JS.truthy (variable r) = true ->
        ScheduleSpec.latestPriorWriter ops r w ->
        ~ ScheduleSpec.terminatesBefore ops A (transactionId w) (step r) ->
        (forall c, In c ops -> transactionId c = transactionId w -> type c = C ->
                   (step r <= step c)%nat) ->
        TwoPL.analyzeCascadeless ops (TwoPL.getOperationsByTransactionMap ops) = false)
  /\ (let report := TwoPL.analyzeSchedule "W1(X); R2(X); A1" in
      isCascadeless report = false /\ allowsCascadingAborts report = true).
Proof.
  assert (Hiff :
    TwoPL.analyzeCascadeless ops (TwoPL.getOperationsByTransactionMap ops) = true
    <-> forall r, In r ops -> type r = R -> JS.truthy (variable r) = true ->
        forall w, ScheduleSpec.latestPriorWriter ops r w ->
          ScheduleSpec.terminatesBefore ops A (transactionId w) (step r)
          \/ ScheduleSpec.terminatesBefore ops C (transactionId w) (step r)).
  { unfold TwoPL.analyzeCascadeless. rewrite forallb_forall. split.
    - intros H r Hr. apply (readIsClean_spec ops r Hdistinct Hids Hr), H, Hr.
    - intros H r Hr. apply (readIsClean_spec ops r Hdistinct Hids Hr), H, Hr. }
  split; [exact Hiff|]. split.
  - intros r w Hr Hty Hvar Hw Habort Hcommit.
    apply not_true_is_false. intros Htrue.
    destruct (proj1 Hiff Htrue r Hr Hty Hvar w Hw) as [H|(c & Hc & Htx & Htc & Hlt)].
    + contradiction.
    + specialize (Hcommit c Hc Htx Htc). lia.
  - vm_compute. auto.
Qed.

(** The schedule of scenario D: its steps are distinct, its transaction
    identifiers are not empty, and the characterisation applies to it. *)
Lemma analyzeCascadeless_spec_witness :
  let ops := Parser.parseSchedule "W1(X); R2(X); A1" in
  List.NoDup (map step ops)
  /\ Forall (fun o => transactionId o <> EmptyString) ops
  /\ (TwoPL.analyzeCascadeless ops (TwoPL.getOperationsByTransactionMap ops) = true
      <-> forall r, In r ops -> type r = R -> JS.truthy (variable r) = true ->
          forall w, ScheduleSpec.latestPriorWriter ops r w ->
            ScheduleSpec.terminatesBefore ops A (transactionId w) (step r)
            \/ ScheduleSpec.terminatesBefore ops C (transactionId w) (step r)).
Proof.
  assert (H1 : List.NoDup (map step (Parser.parseSchedule "W1(X); R2(X); A1"))).
  { vm_compute. repeat constructor; simpl; intuition discriminate. }
  assert (H2 : Forall (fun o => transactionId o <> EmptyString)
                 (Parser.parseSchedule "W1(X); R2(X); A1")).
  { vm_compute. repeat constructor; discriminate. }
  split; [exact H1|]. split; [exact H2|].
  exact (proj1 (analyzeCascadeless_spec _ H1 H2)).
Defined.

(* ===================================================================== *)
(** * Strict two-phase locking *)
(* ===================================================================== *)

(** C3.  The strict check looks up the operations between a Write and the
    Commit by array index, allOps[k], while the bounds of k are steps.  In
    the parsed schedule "foo; W1(X); R2(X); C1" the dropped token makes the
    steps 1, 2, 3 but the indices 0, 1, 2: T2 reads X at step 2, strictly
    between the Write of T1 on X (step 1) and the Commit of T1 (step 3),
    yet T1 is reported with basic2PL = true and strict2PL = true.  On the
    schedule W1(X); R2(X); C1 of scenario C, where steps and indices agree,
    T1 gets basic2PL = true and strict2PL = false. *)
Theorem strict2PL_reads_index_for_step :
  (let ops := Parser.parseSchedule "foo; W1(X); R2(X); C1" in
   let report := TwoPL.analyzeSchedule "foo; W1(X); R2(X); C1" in
   map (fun o => (originalString o, transactionId o, step o)) ops
   = [("W1(X)", "T1", 1); ("R2(X)", "T2", 2); ("C1", "T1", 3)]
   /\ basic2PL <$> (transactionCompliance report !! "T1") = Some true
   /\ strict2PL <$> (transactionCompliance report !! "T1") = Some true)
  /\ (let report := TwoPL.analyzeSchedule "W1(X); R2(X); C1" in
      basic2PL <$> (transactionCompliance report !! "T1") = Some true
      /\ strict2PL <$> (transactionCompliance report !! "T1") = Some false).
Proof. vm_compute. repeat split. Qed.

(** ** The strict check on schedules without dropped tokens *)

Section StrictOnGapFree.
Import JS TwoPL ScheduleSpec.

Lemma seq_sorted (start len : nat) : StronglySorted lt (seq start len).
Proof.
  revert start. induction len as [|len IH]; intros start; simpl; constructor.
  - apply IH.
  - apply List.Forall_forall. intros k Hk. apply in_seq in Hk. lia.
Qed.

Lemma gapFree_sorted (ops : list Operation) :
  gapFree ops -> StronglySorted lt (map step ops).
Proof. unfold gapFree. intros ->. apply seq_sorted. Qed.

Lemma gapFree_lookup (ops : list Operation) (k : nat) (o : Operation) :
  gapFree ops -> ops !! k = Some o -> step o = k.
Proof.
  unfold gapFree. intros Hg Hk.
  assert (H : map step ops !! k = Some (step o)).
  { change (map step ops) with (step <$> ops). rewrite list_lookup_fmap, Hk. reflexivity. }
  rewrite Hg in H. apply lookup_seq in H as [-> _]. reflexivity.
Qed.

(** With steps equal to indices the scan of [allOps[k]] between two steps
    sees exactly the operations whose step lies strictly between them. *)
Lemma firstBetween_gapFree (ops : list Operation) (from to : nat)
    (p : Operation -> bool) :
  gapFree ops ->
  (exists o, firstBetween ops from to p = Some o)
  <-> exists o, In o ops /\ (from < step o)%nat /\ (step o < to)%nat /\ p o = true.
Proof.
  intros Hg. unfold firstBetween, between. split.
  - intros [o Ho]. apply find_some in Ho as [Hin Hp].
    apply list_elem_of_In, list_elem_of_omap in Hin as (k & Hk & Hlook).
    apply list_elem_of_In, in_seq in Hk.
    pose proof (gapFree_lookup ops k o Hg Hlook) as Hstep.
    exists o. repeat split; try lia; [|assumption].
    apply list_elem_of_In. eapply list_elem_of_lookup_2. exact Hlook.
  - intros (o & Hin & Hlo & Hhi & Hp).
    apply list_elem_of_In, list_elem_of_lookup in Hin as [k Hlook].
    pose proof (gapFree_lookup ops k o Hg Hlook) as Hstep.
    destruct (List.find p (omap (fun k => ops !! k) (seq (S from)
                                                       (to - S from))))
      as [o'|] eqn:E; [eauto|].
    exfalso. rewrite (find_none _ _ E o) in Hp; [discriminate|].
    apply list_elem_of_In, list_elem_of_omap. exists k. split; [|assumption].
    apply list_elem_of_In, in_seq. lia.
Qed.

(** The flag returned by the loop over the writes does not depend on the
    events. *)
Lemma strictLoop_flag (txId : string) (ops : list Operation) (c : Operation)
    (writes : list Operation) (events : list LockPhaseEvent) :
  (strictLoop txId ops c writes events).1 = false
  <-> exists w, In w writes
                /\ exists o, firstBetween ops (step w) (step c) (strictViolation txId w)
                             = Some o.
Proof.
  induction writes as [|w l IH]; simpl.
  - split; [discriminate|]. intros (w & [] & _).
  - destruct (firstBetween ops (step w) (step c) (strictViolation txId w)) as [o|] eqn:E.
    + simpl. split; [|reflexivity]. intros _. exists w. eauto.
    + rewrite IH. split.
      * intros (w' & Hw' & Ho). exists w'. auto.
      * intros (w' & [<-|Hw'] & o & Ho); [congruence|]. exists w'. eauto.
Qed.

Lemma isTermination_spec (t : OperationType) :
  isTermination t = true <-> t = C \/ t = A.
Proof. destruct t; simpl; split; try discriminate; try tauto; intros [|]; discriminate. Qed.

Lemma isAccess_spec (t : OperationType) :
  isAccess t = true <-> t = R \/ t = W.
Proof. destruct t; simpl; split; try discriminate; try tauto; intros [|]; discriminate. Qed.

(** The first Commit or Abort in the sorted operation list of a
    transaction is its first termination. *)
Lemma find_termination (ops : list Operation) (txId : string) :
  StronglySorted lt (map step ops) ->
  match List.find (fun op => isTermination (type op))
          (List.filter (fun op => String.eqb (transactionId op) txId) ops) with
  | Some t => firstTermination ops txId t
  | None => forall t, ~ terminationOf ops txId t
  end.
Proof.
  intros Hs. rewrite find_filter.
  pose proof (sorted_find_least
                (fun o => String.eqb (transactionId o) txId && isTermination (type o))
                ops Hs) as Hfind.
  destruct (List.find _ ops) as [t|].
  - destruct Hfind as (Hin & Hf & Hleast).
    apply andb_true_iff in Hf as [Htx Hty].
    apply String.eqb_eq in Htx. apply isTermination_spec in Hty.
    split; [split; auto|].
    intros t' (Hin' & Htx' & Hty'). apply Hleast; [assumption|].
    apply andb_true_iff. split; [apply String.eqb_eq|apply isTermination_spec];
      assumption.
  - intros t (Hin & Htx & Hty). specialize (Hfind t Hin).
    apply andb_false_iff in Hfind as [H|H].
    + apply String.eqb_neq in H. contradiction.
    + apply isTermination_spec in Hty. congruence.
Qed.

Lemma firstTermination_unique (ops : list Operation) (txId : string)
    (t t' : Operation) :
  StronglySorted lt (map step ops) ->
  firstTermination ops txId t -> firstTermination ops txId t' -> t = t'.
Proof.
  intros Hs [Ht Hmin] [Ht' Hmin'].
  apply (distinct_step_inj ops); [apply sorted_distinct, Hs|apply Ht|apply Ht'|].
  specialize (Hmin t' Ht'). specialize (Hmin' t Ht). lia.
Qed.

(** The verdict of [analyzeStrict2PL] for a transaction whose basic check
    passed, on a schedule whose steps are the array indices. *)
Lemma analyzeStrict2PL_gapFree (ops : list Operation) (txId : string)
    (events : list LockPhaseEvent) :
  gapFree ops ->
  let txOps := List.filter (fun op => String.eqb (transactionId op) txId) ops in
  let strict := (analyzeStrict2PL txId ops txOps true events).1 in
  ((exists w, In w ops /\ transactionId w = txId /\ type w = W)
   -> (forall t, ~ terminationOf ops txId t)
   -> strict = false)
  /\ (~ ((exists w, In w ops /\ transactionId w = txId /\ type w = W)
         /\ forall t, ~ terminationOf ops txId t)
      -> (strict = false <-> accessedBeforeTermination ops txId)).
Proof.
  intros Hg txOps strict. pose proof (gapFree_sorted ops Hg) as Hs.
  pose proof (find_termination ops txId Hs) as Hterm. fold txOps in Hterm.
  subst strict. unfold analyzeStrict2PL. simpl negb. cbv iota.
  assert (Hwrites : existsb (fun op => OperationType_eqb (type op) W) txOps = true
                    <-> exists w, In w ops /\ transactionId w = txId /\ type w = W).
  { rewrite existsb_exists. split.
    - intros (w & Hw & Hty). apply filter_In in Hw as [Hw Htx].
      apply String.eqb_eq in Htx. apply OperationType_eqb_eq in Hty. eauto.
    - intros (w & Hw & Htx & Hty). exists w. split.
      + apply filter_In. split; [assumption|]. apply String.eqb_eq, Htx.
      + apply OperationType_eqb_eq, Hty. }
  destruct (List.find (fun op => isTermination (type op)) txOps) as [c|].
  - split.
    + intros _ Hnone. destruct Hterm as [Hc _]. destruct (Hnone c Hc).
    + intros _. rewrite strictLoop_flag. split.
      * intros (w & Hw & Ho). apply filter_In in Hw as [Hw Hty].
        apply filter_In in Hw as [Hw Htx].
        apply String.eqb_eq in Htx. apply OperationType_eqb_eq in Hty.
        apply (firstBetween_gapFree ops _ _ _ Hg) in Ho
          as (o & Ho & Hlo & Hhi & Hv).
        unfold strictViolation in Hv. repeat rewrite andb_true_iff in Hv.
        destruct Hv as [[Hother Hvar] Hacc].
        apply negb_true_iff, String.eqb_neq in Hother.
        apply optEqb_eq in Hvar. apply isAccess_spec in Hacc.
        exists w, o, c. repeat split; try assumption; apply Hterm.
      * intros (w & o & t & Hw & Htx & Hty & Ht & Ho & Hother & Hacc & Hvar & Hlo & Hhi).
        rewrite (firstTermination_unique ops txId c t Hs Hterm Ht).
        exists w. split.
        -- apply filter_In. split; [|apply OperationType_eqb_eq, Hty].
           apply filter_In. split; [assumption|]. apply String.eqb_eq, Htx.
        -- apply (firstBetween_gapFree ops _ _ _ Hg). exists o.
           repeat split; try assumption.
           unfold strictViolation. repeat (apply andb_true_iff; split).
           ++ apply negb_true_iff, String.eqb_neq, Hother.
           ++ apply optEqb_eq, Hvar.
           ++ apply isAccess_spec, Hacc.
  - destruct (existsb _ txOps) eqn:Ew.
    + split; [reflexivity|]. intros Hnot. exfalso. apply Hnot.
      split; [apply Hwrites; reflexivity|exact Hterm].
    + split.
      * intros Hw _. apply Hwrites in Hw. discriminate.
      * intros _. simpl. split; [discriminate|].
        intros (w & o & t & _ & _ & _ & [Ht _] & _). destruct (Hterm t Ht).
Qed.

(** The claim of the specification about strict2PL, for every transaction
    of a schedule whose steps are the array indices (no token dropped):
    strict2PL implies basic2PL; and when basic2PL holds, a transaction that
    writes but never terminates is not strict, and otherwise it fails to be
    strict exactly when another transaction accesses a variable between one
    of its Writes on it and its Commit/Abort. *)
Lemma complianceOf_strict_gapFree (ops : list Operation) (o : Operation) :
  gapFree ops -> In o ops ->
  let txId := transactionId o in
  let compliance := complianceOf ops (getOperationsByTransactionMap ops) txId in
  (strict2PL compliance = true -> basic2PL compliance = true)
  /\ (basic2PL compliance = true ->
      ((exists w, In w ops /\ transactionId w = txId /\ type w = W)
       -> (forall t, ~ terminationOf ops txId t)
       -> strict2PL compliance = false)
      /\ (~ ((exists w, In w ops /\ transactionId w = txId /\ type w = W)
             /\ forall t, ~ terminationOf ops txId t)
          -> (strict2PL compliance = false <-> accessedBeforeTermination ops txId))).
Proof.
  intros Hg Ho. cbv zeta. unfold complianceOf.
  rewrite (getOperationsByTransactionMap_sorted ops o (gapFree_sorted ops Hg) Ho).
  set (txId := transactionId o). simpl default.
  set (txOps := List.filter (fun op => String.eqb (transactionId op) txId) ops).
  assert (Hin : In o txOps).
  { apply filter_In. split; [assumption|apply String.eqb_refl]. }
  destruct txOps as [|x l] eqn:E; [destruct Hin|]. rewrite <- E. clear Hin.
  destruct (analyzeBasic2PL txId ops txOps []) as [basic ev1].
  pose proof (analyzeStrict2PL_gapFree ops txId ev1 Hg) as Hstrict.
  fold txOps in Hstrict. cbv zeta in Hstrict.
  destruct basic.
  - destruct (analyzeStrict2PL txId ops txOps true ev1) as [strict ev2].
    destruct (analyzeRigorous2PL txId ops txOps strict ev2) as [rigorous ev3].
    simpl in *. split; [reflexivity|]. intros _. exact Hstrict.
  - unfold analyzeStrict2PL. simpl negb. cbv iota.
    destruct (analyzeRigorous2PL txId ops txOps false ev1) as [rigorous ev3].
    simpl. split; discriminate.
Qed.

End StrictOnGapFree.

(* ===================================================================== *)
(** * The lock manager *)
(* ===================================================================== *)

Section LockManagerProofs.
Import JS LM LockSpec.

Lemma LockType_eqb_eq a b : LockType_eqb a b = true <-> a = b.
Proof. destruct a, b; simpl; split; congruence. Qed.

Lemma filter_nil_iff {X} (f : X -> bool) (l : list X) :
  List.filter f l = [] <-> forall x, In x l -> f x = false.
Proof.
  induction l as [|y l IH]; simpl; [tauto|]. destruct (f y) eqn:E.
  - split; [discriminate|]. intros H. specialize (H y (or_introl eq_refl)). congruence.
  - rewrite IH. split; [intros H x [<-|Hx]; auto|auto].
Qed.

Lemma filter_filter_comm {X} (f g : X -> bool) (l : list X) :
  List.filter f (List.filter g l) = List.filter g (List.filter f l).
Proof.
  induction l as [|y l IH]; simpl; [reflexivity|].
  destruct (f y) eqn:Ef, (g y) eqn:Eg; simpl; rewrite ?Ef, ?Eg, IH; reflexivity.
Qed.

Lemma filter_length_le {X} (f : X -> bool) (l : list X) :
  (length (List.filter f l) <= length l)%nat.
Proof.
  induction l as [|y l IH]; simpl; [lia|]. destruct (f y); simpl; lia.
Qed.

(** Releasing locks keeps the invariant. *)
Lemma lockInvariant_filter (g : Lock -> bool) (ls : list Lock) :
  lockInvariant ls -> lockInvariant (List.filter g ls).
Proof.
  intros H v. destruct (H v) as [Hx Hs]. split.
  - rewrite filter_filter_comm. etransitivity; [apply filter_length_le|exact Hx].
  - intros Hne. rewrite filter_filter_comm, Hs; [reflexivity|].
    intros E. apply Hne. rewrite filter_filter_comm, E. reflexivity.
Qed.

Lemma lockInvariant_nil : lockInvariant [].
Proof. intros v. simpl. split; [lia|reflexivity]. Qed.

(** A granted Shared request: every lock on the variable is Shared. *)
Lemma canAcquireLock_shared (m : LockManager) (txId : string) (v : option string) :
  canAcquireLock m txId v LockS = true ->
  List.filter (isExclusiveOn v) (locks m) = [].
Proof.
  unfold canAcquireLock. intros H. apply filter_nil_iff. intros l Hl.
  unfold isExclusiveOn. destruct (optEqb (lock_variable l) v) eqn:Ev; [|reflexivity].
  set (onVar := List.filter (fun l => optEqb (lock_variable l) v) (locks m)) in *.
  assert (Hin : In l onVar) by (apply filter_In; auto).
  destruct (Nat.eqb_spec (length onVar) 0) as [E|_].
  - apply List.length_zero_iff_nil in E. rewrite E in Hin. destruct Hin.
  - pose proof (proj1 (forallb_forall _ _) H l Hin) as Hall. simpl in Hall.
    destruct (lock_type l); [reflexivity|discriminate].
Qed.

(** A granted Exclusive request: every lock on the variable is held by the
    requesting transaction. *)
Lemma canAcquireLock_exclusive (m : LockManager) (txId : string) (v : option string) :
  canAcquireLock m txId v LockX = true ->
  forall l, In l (locks m) -> lock_variable l = v -> lock_transactionId l = txId.
Proof.
  unfold canAcquireLock. intros H l Hl Hv.
  set (onVar := List.filter (fun l => optEqb (lock_variable l) v) (locks m)) in *.
  assert (Hin : In l onVar).
  { apply filter_In. split; [assumption|]. apply optEqb_eq, Hv. }
  destruct (Nat.eqb_spec (length onVar) 0) as [E|_].
  - apply List.length_zero_iff_nil in E. rewrite E in Hin. destruct Hin.
  - apply orb_true_iff in H as [H|H].
    + pose proof (proj1 (forallb_forall _ _) H l Hin) as Hall. simpl in Hall.
      apply andb_true_iff in Hall as [Htx _]. apply String.eqb_eq, Htx.
    + apply negb_true_iff in H.
      destruct (String.eqb_spec (lock_transactionId l) txId) as [->|Hne]; [reflexivity|].
      assert (existsb (fun l => negb (String.eqb (lock_transactionId l) txId)) onVar
              = true); [|congruence].
      apply existsb_exists. exists l. split; [assumption|].
      apply negb_true_iff, String.eqb_neq, Hne.
Qed.

(** ** Granting a lock *)

Lemma filter_app_single {X} (f : X -> bool) (l : list X) (x : X) :
  List.filter f (l ++ [x]) = List.filter f l ++ (if f x then [x] else []).
Proof. rewrite List.filter_app. reflexivity. Qed.

Lemma grantLock_shared_invariant (m : LockManager) (txId : string)
    (v : option string) :
  lockInvariant (locks m) ->
  canAcquireLock m txId v LockS = true ->
  lockInvariant (locks (grantLock txId v LockS m)).
Proof.
  intros Hinv Hcan. apply canAcquireLock_shared in Hcan.
  unfold grantLock. destruct (negb (existsb _ (locks m))); simpl; [|exact Hinv].
  intros v'. destruct (Hinv v') as [Hx Hs].
  rewrite !filter_app_single.
  replace (isExclusiveOn v' _) with false
    by (unfold isExclusiveOn; simpl; rewrite andb_false_r; reflexivity).
  replace (isSharedOn v' _) with (optEqb v v')
    by (unfold isSharedOn; simpl; rewrite andb_true_r; reflexivity).
  rewrite app_nil_r. split; [exact Hx|].
  intros Hne. destruct (optEqb v v') eqn:E.
  - apply optEqb_eq in E. subst v'. contradiction.
  - rewrite app_nil_r. auto.
Qed.

Lemma grantLock_exclusive_invariant (m : LockManager) (txId : string)
    (v : option string) :
  lockInvariant (locks m) ->
  canAcquireLock m txId v LockX = true ->
  lockInvariant (locks (grantLock txId v LockX m)).
Proof.
  intros Hinv Hcan. pose proof (canAcquireLock_exclusive m txId v Hcan) as Hown.
  unfold grantLock. simpl locks.
  set (kept := List.filter (fun l => negb (sameLock txId v LockS l)) (locks m)).
  assert (Hkept : lockInvariant kept) by (apply lockInvariant_filter, Hinv).
  assert (HnoShared : List.filter (isSharedOn v) kept = []).
  { apply filter_nil_iff. intros l Hl. apply filter_In in Hl as [Hl Hnot].
    unfold isSharedOn. destruct (optEqb (lock_variable l) v) eqn:Ev; [|reflexivity].
    destruct (lock_type l) eqn:Et; [|reflexivity].
    apply optEqb_eq in Ev. pose proof (Hown l Hl Ev) as Htx.
    unfold sameLock in Hnot. rewrite Htx, String.eqb_refl, Et in Hnot.
    rewrite (proj2 (optEqb_eq _ _) Ev) in Hnot. discriminate. }
  destruct (existsb (sameLock txId v LockX) kept) eqn:Eown; simpl.
  - intros v'. destruct (Hkept v') as [Hx Hs]. split; [exact Hx|exact Hs].
  - assert (HnoExcl : List.filter (isExclusiveOn v) kept = []).
    { apply filter_nil_iff. intros l Hl.
      unfold isExclusiveOn. destruct (optEqb (lock_variable l) v) eqn:Ev; [|reflexivity].
      destruct (lock_type l) eqn:Et; [reflexivity|].
      assert (Hl' : In l (locks m)) by (apply filter_In in Hl; tauto).
      pose proof (Hown l Hl' (proj1 (optEqb_eq _ _) Ev)) as Htx.
      assert (existsb (sameLock txId v LockX) kept = true); [|congruence].
      apply existsb_exists. exists l. split; [assumption|].
      unfold sameLock. rewrite Htx, String.eqb_refl, Ev, Et. reflexivity. }
    intros v'. destruct (Hkept v') as [Hx Hs].
    rewrite !filter_app_single.
    replace (isExclusiveOn v' _) with (optEqb v v')
      by (unfold isExclusiveOn; simpl; rewrite andb_true_r; reflexivity).
    replace (isSharedOn v' _) with false
      by (unfold isSharedOn; simpl; rewrite andb_false_r; reflexivity).
    rewrite app_nil_r.
    destruct (optEqb v v') eqn:E.
    + apply optEqb_eq in E. subst v'. rewrite HnoExcl, HnoShared. simpl.
      split; [lia|reflexivity].
    + rewrite app_nil_r. split; [exact Hx|exact Hs].
Qed.

Lemma grantLock_invariant (m : LockManager) (txId : string) (v : option string)
    (lockType : LockType) :
  lockInvariant (locks m) ->
  canAcquireLock m txId v lockType = true ->
  lockInvariant (locks (grantLock txId v lockType m)).
Proof.
  destruct lockType;
    [apply grantLock_shared_invariant|apply grantLock_exclusive_invariant].
Qed.

(** ** What the methods leave alone *)

Lemma frame_eq (m m' : LockManager) :
  frame m = frame m' ->
  operations m = operations m' /\ currentStepIndex m = currentStepIndex m'
  /\ history m = history m'.
Proof. unfold frame. intros [= -> -> ->]. auto. Qed.

Lemma grantLock_frame txId v lockType m :
  frame (grantLock txId v lockType m) = frame m
  /\ waitingQueue (grantLock txId v lockType m) = waitingQueue m
  /\ transactionStatuses (grantLock txId v lockType m) = transactionStatuses m.
Proof.
  unfold grantLock. destruct lockType; simpl;
    destruct (negb (existsb _ _)); simpl; auto.
Qed.

Lemma processEntries_frame (items : list WaitEntry) (m : LockManager) :
  frame (processEntries items m).2 = frame m.
Proof.
  revert m. induction items as [|item rest IH]; intros m; simpl; [reflexivity|].
  destruct (canAcquireLock m _ _ _).
  - match goal with |- context [processEntries rest ?m'] =>
      specialize (IH m'); destruct (processEntries rest m') as [[kept any] m5] end.
    simpl in *. rewrite IH. unfold frame. simpl.
    destruct (grantLock_frame (wait_transactionId item) (wait_variable item)
                (wait_lockType item) m) as [E _].
    exact E.
  - specialize (IH m). destruct (processEntries rest m) as [[kept any] m1].
    simpl in *. exact IH.
Qed.

Lemma processEntries_invariant (items : list WaitEntry) (m : LockManager) :
  lockInvariant (locks m) -> lockInvariant (locks (processEntries items m).2).
Proof.
  revert m. induction items as [|item rest IH]; intros m Hinv; simpl; [exact Hinv|].
  destruct (canAcquireLock m _ _ _) eqn:Hcan.
  - match goal with |- context [processEntries rest ?m'] =>
      specialize (IH m'); destruct (processEntries rest m') as [[kept any] m5] end.
    simpl in *. apply IH. apply grantLock_invariant; assumption.
  - specialize (IH m Hinv). destruct (processEntries rest m) as [[kept any] m1].
    simpl in *. exact IH.
Qed.

Lemma processWaitingQueue_frame (m : LockManager) :
  frame (processWaitingQueue m).2 = frame m.
Proof.
  unfold processWaitingQueue. pose proof (processEntries_frame (waitingQueue m) m) as H.
  destruct (processEntries (waitingQueue m) m) as [[kept any] m1]. exact H.
Qed.

Lemma processWaitingQueue_invariant (m : LockManager) :
  lockInvariant (locks m) -> lockInvariant (locks (processWaitingQueue m).2).
Proof.
  intros Hinv. unfold processWaitingQueue.
  pose proof (processEntries_invariant (waitingQueue m) m Hinv) as H.
  destruct (processEntries (waitingQueue m) m) as [[kept any] m1]. exact H.
Qed.

Lemma releaseLocks_frame txId m : frame (releaseLocks txId m) = frame m.
Proof.
  unfold releaseLocks. rewrite processWaitingQueue_frame.
  destruct (0 <? _)%nat; reflexivity.
Qed.

Lemma releaseLocks_invariant txId m :
  lockInvariant (locks m) -> lockInvariant (locks (releaseLocks txId m)).
Proof.
  intros Hinv. unfold releaseLocks. apply processWaitingQueue_invariant.
  destruct (0 <? _)%nat; simpl; apply lockInvariant_filter, Hinv.
Qed.

Lemma addToWaitingQueue_locks operation v lockType m :
  locks (addToWaitingQueue operation v lockType m) = locks m
  /\ frame (addToWaitingQueue operation v lockType m) = frame m.
Proof. unfold addToWaitingQueue. destruct (negb _); auto. Qed.

Lemma requestLock_frame txId v lockType operation m :
  frame (requestLock txId v lockType operation m) = frame m.
Proof.
  unfold requestLock. destruct (canAcquireLock m txId v lockType).
  - destruct (statusIs _ _ _); unfold frame; simpl;
      apply (proj1 (grantLock_frame txId v lockType m)).
  - rewrite (proj2 (addToWaitingQueue_locks _ _ _ _)). reflexivity.
Qed.

Lemma requestLock_invariant txId v lockType operation m :
  lockInvariant (locks m) ->
  lockInvariant (locks (requestLock txId v lockType operation m)).
Proof.
  intros Hinv. unfold requestLock. destruct (canAcquireLock m txId v lockType) eqn:Hcan.
  - destruct (statusIs _ _ _); simpl; apply grantLock_invariant; assumption.
  - rewrite (proj1 (addToWaitingQueue_locks _ _ _ _)). exact Hinv.
Qed.

Lemma processOperation_frame operation m :
  frame (processOperation operation m) = frame m.
Proof.
  unfold processOperation. destruct (_ && _).
  - destruct (negb _); [|reflexivity].
    rewrite (proj2 (addToWaitingQueue_locks _ _ _ _)). reflexivity.
  - destruct (type operation); try destruct (truthy _);
      try apply requestLock_frame; try reflexivity;
      unfold commitTransaction, abortTransaction, frame; simpl;
      apply (releaseLocks_frame _ (pushLog _ m)).
Qed.

Lemma processOperation_invariant operation m :
  lockInvariant (locks m) -> lockInvariant (locks (processOperation operation m)).
Proof.
  intros Hinv. unfold processOperation. destruct (_ && _).
  - destruct (negb _); [|exact Hinv].
    rewrite (proj1 (addToWaitingQueue_locks _ _ _ _)). exact Hinv.
  - destruct (type operation); try destruct (truthy _);
      try apply requestLock_invariant; try exact Hinv;
      unfold commitTransaction, abortTransaction; simpl;
      apply (releaseLocks_invariant _ (pushLog _ m)), Hinv.
Qed.

Lemma detectDeadlock_state (m : LockManager) :
  locks (detectDeadlock m).2 = locks m
  /\ transactionStatuses (detectDeadlock m).2 = transactionStatuses m
  /\ waitingQueue (detectDeadlock m).2 = waitingQueue m
  /\ frame (detectDeadlock m).2 = frame m.
Proof.
  unfold detectDeadlock. destruct (_ <? 2)%nat; [auto|].
  destruct (deadlockedPair m) as [[item1 item2]|]; auto.
Qed.

(** ** One call of [nextStep] *)

(** [nextStep] appends exactly one snapshot, and the snapshot shows the
    lock table, the statuses and the queue that the manager is left with;
    the index of the current operation moves by at most one. *)
Lemma nextStep_snapshot (m : LockManager) :
  exists snapshot,
    history (nextStep m) = history m ++ [snapshot]
    /\ operations (nextStep m) = operations m
    /\ sim_locks snapshot = locks (nextStep m)
    /\ sim_transactionStatuses snapshot = transactionStatuses (nextStep m)
    /\ sim_waitingQueue snapshot = waitingQueue (nextStep m)
    /\ (currentStepIndex m <= currentStepIndex (nextStep m) <= currentStepIndex m + 1)%Z.
Proof.
  unfold nextStep.
  pose proof (processWaitingQueue_frame (setLog [] m)) as Hf1.
  destruct (processWaitingQueue (setLog [] m)) as [processed m1]. simpl in Hf1.
  apply frame_eq in Hf1 as (Ho1 & Hi1 & Hh1). simpl in Ho1, Hi1, Hh1.
  destruct processed.
  - destruct (detectDeadlock_state m1) as (Hl & Hs & Hq & Hf).
    destruct (detectDeadlock m1) as [isDeadlock m2]. simpl in *.
    apply frame_eq in Hf as (Ho2 & Hi2 & Hh2).
    assert (Hh : history m2 = history m) by congruence.
    rewrite Hh. eexists. split; [reflexivity|]. simpl.
    repeat split; try congruence; lia.
  - match goal with |- context [detectDeadlock ?m2] => set (mid := m2) end.
    assert (Hmid : operations mid = operations m /\ history mid = history m
                   /\ (currentStepIndex m <= currentStepIndex mid
                       <= currentStepIndex m + 1)%Z).
    { subst mid. destruct (_ <? _)%Z.
      - destruct (currentOperation _) as [operation|] eqn:Eop.
        + destruct (_ || _); [simpl; repeat split; try congruence; lia|].
          pose proof (processOperation_frame operation
                        (setCurrentStepIndex (currentStepIndex m1 + 1) m1)) as Hp.
          apply frame_eq in Hp as (Ho & Hi & Hh). simpl in Ho, Hi, Hh.
          repeat split; try congruence; lia.
        + simpl. repeat split; try congruence; lia.
      - destruct (0 <? _)%nat.
        + pose proof (processWaitingQueue_frame m1) as Hp.
          destruct (processWaitingQueue m1) as [p m']. simpl in Hp.
          apply frame_eq in Hp as (Ho & Hi & Hh).
          destruct (negb p); simpl; repeat split; try congruence; lia.
        + simpl. repeat split; try congruence; lia. }
    clearbody mid. destruct Hmid as (Hops & Hhist & Hidx).
    destruct (detectDeadlock_state mid) as (Hl & Hs & Hq & Hf).
    destruct (detectDeadlock mid) as [isDeadlock m3]. simpl in *.
    apply frame_eq in Hf as (Ho3 & Hi3 & Hh3).
    assert (Hh : history (if isDeadlock then pushLog "DEADLOCK DETECTED!" m3 else m3)
                 = history m).
    { destruct isDeadlock; simpl; congruence. }
    rewrite Hh. eexists. split; [reflexivity|]. simpl.
    destruct isDeadlock; simpl; repeat split; try congruence; lia.
Qed.

(** The operation that [nextStep] fetches after it advanced the index
    exists: the branch of [nextStep] for a missing operation is never
    taken. *)
Lemma nextStep_index_in_range (m : LockManager) :
  (-1 <= currentStepIndex m)%Z ->
  (currentStepIndex m <? Z.of_nat (length (operations m)) - 1)%Z = true ->
  is_Some (currentOperation (setCurrentStepIndex (currentStepIndex m + 1) m)).
Proof.
  intros Hlo Hhi. apply Z.ltb_lt in Hhi. unfold currentOperation. simpl.
  destruct (Z.ltb_spec (currentStepIndex m + 1) 0); [lia|].
  apply lookup_lt_is_Some_2. lia.
Qed.

(** [nextStep] keeps the invariant of the lock table. *)
Lemma nextStep_invariant (m : LockManager) :
  lockInvariant (locks m) -> lockInvariant (locks (nextStep m)).
Proof.
  intros Hinv. unfold nextStep.
  pose proof (processWaitingQueue_invariant (setLog [] m) Hinv) as H1.
  destruct (processWaitingQueue (setLog [] m)) as [processed m1]. simpl in H1.
  destruct processed.
  - destruct (detectDeadlock_state m1) as (Hl & _).
    destruct (detectDeadlock m1) as [isDeadlock m2]. simpl in *. rewrite Hl. exact H1.
  - match goal with |- context [detectDeadlock ?m2] => set (mid := m2) end.
    assert (Hmid : lockInvariant (locks mid)).
    { subst mid. destruct (_ <? _)%Z.
      - destruct (currentOperation _) as [operation|].
        + destruct (_ || _); [exact H1|].
          apply processOperation_invariant. exact H1.
        + exact H1.
      - destruct (0 <? _)%nat.
        + pose proof (processWaitingQueue_invariant m1 H1) as Hp.
          destruct (processWaitingQueue m1) as [p m']. simpl in Hp.
          destruct (negb p); exact Hp.
        + exact H1. }
    clearbody mid.
    destruct (detectDeadlock_state mid) as (Hl & _).
    destruct (detectDeadlock mid) as [isDeadlock m3]. simpl in *.
    destruct isDeadlock; simpl; rewrite Hl; exact Hmid.
Qed.

Lemma steps_invariant (n : nat) (m : LockManager) :
  lockInvariant (locks m) ->
  Forall (fun snapshot => lockInvariant (sim_locks snapshot)) (history m) ->
  lockInvariant (locks (steps n m))
  /\ Forall (fun snapshot => lockInvariant (sim_locks snapshot)) (history (steps n m)).
Proof.
  revert m. induction n as [|n IH]; intros m Hl Hh; simpl; [auto|].
  apply IH; [apply nextStep_invariant, Hl|].
  destruct (nextStep_snapshot m) as (snapshot & -> & _ & Hs & _).
  apply Forall_app. split; [exact Hh|]. constructor; [|constructor].
  rewrite Hs. apply nextStep_invariant, Hl.
Qed.

Lemma steps_index (n : nat) (ops : list Operation) :
  (-1 <= currentStepIndex (steps n (new ops)))%Z.
Proof.
  assert (H : forall m, (-1 <= currentStepIndex m)%Z ->
                        (-1 <= currentStepIndex (steps n m))%Z).
  { induction n as [|n IH]; intros m Hm; simpl; [exact Hm|].
    apply IH. destruct (nextStep_snapshot m) as (_ & _ & _ & _ & _ & _ & Hidx). lia. }
  apply H. simpl. lia.
Qed.

Lemma steps_snapshotCurrent (n : nat) (ops : list Operation) :
  snapshotCurrent (steps n (new ops)) /\ operations (steps n (new ops)) = ops.
Proof.
  assert (H : forall m, snapshotCurrent m -> snapshotCurrent (steps n m)
                        /\ operations (steps n m) = operations m).
  { induction n as [|n IH]; intros m Hm; simpl; [auto|].
    destruct (nextStep_snapshot m) as (snapshot & Hh & Ho & Hl & Hs & Hq & _).
    destruct (IH (nextStep m)) as [H1 H2].
    - exists snapshot. rewrite Hh, last_snoc. auto.
    - split; [exact H1|congruence]. }
  apply (H (new ops)). eexists. split; [reflexivity|]. simpl. auto.
Qed.

End LockManagerProofs.

(** C5.  For every operation sequence and every number of nextStep calls on
    a lock manager built from it, every snapshot recorded in the history
    satisfies the invariant: no variable has more than one Exclusive lock in
    the lock list, and a variable that has an Exclusive lock has no Shared
    lock. *)
Theorem lock_table_invariant (ops : list Operation) (n : nat) :
  Forall (fun snapshot => LockSpec.lockInvariant (sim_locks snapshot))
    (LM.getAllSteps (LM.steps n (LM.new ops))).
Proof.
  apply steps_invariant; simpl.
  - apply lockInvariant_nil.
  - constructor; [apply lockInvariant_nil|constructor].
Qed.

(** C9.  When every operation of the schedule has been processed and the
    waiting queue is empty (canProceed is false), a further call of nextStep
    changes nothing: it appends one snapshot whose lock list, transaction
    statuses and waiting queue are those of the previous snapshot, whose
    isDeadlock is false, and whose log is the single message that the
    simulation is complete. *)
Theorem nextStep_past_end (ops : list Operation) (n : nat)
    (Hdone : LM.canProceed (LM.steps n (LM.new ops)) = false) :
  let m := LM.steps n (LM.new ops) in
  exists previous snapshot,
    LM.getCurrentSimulationStep m = Some previous
    /\ LM.getAllSteps (LM.nextStep m) = LM.getAllSteps m ++ [snapshot]
    /\ sim_locks snapshot = sim_locks previous
    /\ sim_transactionStatuses snapshot = sim_transactionStatuses previous
    /\ sim_waitingQueue snapshot = sim_waitingQueue previous
    /\ sim_waitingQueue snapshot = []
    /\ sim_isDeadlock snapshot = false
    /\ sim_log snapshot
       = ["No more operations in schedule and waiting queue is empty. Simulation complete."].
Proof.
  intros m. destruct (steps_snapshotCurrent n ops) as [(previous & Hlast & Hl & Hs & Hq) _].
  fold m in Hlast, Hl, Hs, Hq, Hdone. clearbody m.
  unfold LM.canProceed in Hdone. apply orb_false_iff in Hdone as [Hidx Hqueue].
  destruct m as [mops idx mlocks mstatuses mqueue mhistory mlog]. simpl in *.
  destruct mqueue; [|discriminate].
  exists previous. eexists. split; [exact Hlast|].
  unfold LM.getAllSteps, LM.nextStep. simpl. rewrite Hidx. simpl.
  split; [reflexivity|]. simpl. repeat split; congruence.
Qed.

(** The schedule W1(A); C1 is finished after two steps. *)
Lemma nextStep_past_end_witness :
  let m := LM.steps 2 (LM.new (Parser.parseSchedule "W1(A); C1")) in
  LM.canProceed m = false
  /\ map sim_log (LM.getAllSteps (LM.nextStep m))
     = map sim_log (LM.getAllSteps m)
       ++ [["No more operations in schedule and waiting queue is empty. Simulation complete."]].
Proof.
  split; [vm_compute; reflexivity|].
  remember (Parser.parseSchedule "W1(A); C1") as ops eqn:Hops.
  vm_compute in Hops.
  assert (Hend : LM.canProceed (LM.steps 2 (LM.new ops)) = false)
    by (rewrite Hops; vm_compute; reflexivity).
  destruct (nextStep_past_end ops 2 Hend)
    as (previous & snapshot & _ & Hh & _ & _ & _ & _ & _ & Hlog).
  cbv zeta. rewrite Hh, map_app. cbn [map]. rewrite Hlog. reflexivity.
Defined.

(** C6.  Scenario E: a lock manager built from the parsed schedule
    W1(A); W2(B); R1(B); R2(A) and advanced by four calls of nextStep has
    processed all four operations; its waiting queue then holds the request
    of T1 on B and the request of T2 on A, B is locked exclusively by T2 and
    A exclusively by T1, and the snapshot recorded by the fourth call has
    isDeadlock = true (the three snapshots before it have not). *)
Theorem scenario_e_deadlock :
  let ops := Parser.parseSchedule "W1(A); W2(B); R1(B); R2(A)" in
  let m := LM.steps 4 (LM.new ops) in
  exists snapshot,
    LM.getCurrentSimulationStep m = Some snapshot
    /\ length ops = 4
    /\ currentStepIndex m = 3%Z
    /\ map (fun w => (wait_transactionId w, originalString (wait_operation w),
                      wait_variable w, wait_lockType w))
           (sim_waitingQueue snapshot)
       = [("T1", "R1(B)", Some "B", LockS); ("T2", "R2(A)", Some "A", LockS)]
    /\ waitingQueue m = sim_waitingQueue snapshot
    /\ sim_locks snapshot
       = [ {| lock_transactionId := "T1"; lock_variable := Some "A"; lock_type := LockX |};
           {| lock_transactionId := "T2"; lock_variable := Some "B"; lock_type := LockX |} ]
    /\ sim_isDeadlock snapshot = true
    /\ map sim_isDeadlock (LM.getAllSteps m) = [false; false; false; false; true].
Proof.
  eexists. split; [vm_compute; reflexivity|].
  repeat split; vm_compute; reflexivity.
Qed.

(* ===================================================================== *)
(** * More on the parser: the grammar, the fields of an operation, and the
      operation buttons *)
(* ===================================================================== *)

Section Grammar.
Import JS Parser TokenSpec ParserSpec.

(** [span] cuts where the predicate first fails. *)
Lemma span_spec (p : ascii -> bool) (s a b : string) :
  span p s = (a, b)
  <-> s = a +:+ b
      /\ (forall c, In c (list_ascii_of_string a) -> p c = true)
      /\ match b with
         | EmptyString => True
         | String c _ => p c = false
         end.
Proof.
  revert a b. induction s as [|x s IH]; intros a b; simpl.
  - split.
    + intros [= <- <-]. simpl. tauto.
    + intros (E & _ & _). destruct a; [|discriminate].
      rewrite string_app_nil_l in E. subst b. reflexivity.
  - destruct (p x) eqn:Hx.
    + destruct (span p s) as [a' b'] eqn:Es. split.
      * intros [= <- <-]. destruct (proj1 (IH a' b') eq_refl) as (E & Ha & Hb).
        rewrite string_app_cons, <- E. split; [reflexivity|]. split; [|exact Hb].
        simpl. intros c [<-|Hc]; auto.
      * intros (E & Ha & Hb). destruct a as [|y a].
        -- rewrite string_app_nil_l in E. subst b. congruence.
        -- rewrite string_app_cons in E. injection E as <- E.
           assert (H : (a', b') = (a, b)); [|congruence].
           apply IH. split; [assumption|]. split; [|assumption].
           intros c Hc. apply Ha. simpl. auto.
    + split.
      * intros [= <- <-]. split; [reflexivity|]. simpl. split; [tauto|assumption].
      * intros (E & Ha & Hb). destruct a as [|y a].
        -- rewrite string_app_nil_l in E. subst b. reflexivity.
        -- rewrite string_app_cons in E. injection E as <- E.
           specialize (Ha x (or_introl eq_refl)). congruence.
Qed.

Lemma allDigits_spec (s : string) :
  allDigits s = true <-> forall c, In c (list_ascii_of_string s) -> isDigit c = true.
Proof.
  induction s as [|x s IH]; simpl; [tauto|].
  rewrite andb_true_iff, IH. split.
  - intros [Hx Hs] c [<-|Hc]; auto.
  - intros H. split; [apply H; auto|]. intros c Hc. apply H. auto.
Qed.

Lemma parenFree_spec (s : string) :
  parenFree s = true <-> forall c, In c (list_ascii_of_string s) -> notRParen c = true.
Proof.
  induction s as [|x s IH]; simpl; [tauto|].
  rewrite andb_true_iff, IH. split.
  - intros [Hx Hs] c [<-|Hc]; auto.
  - intros H. split; [apply H; auto|]. intros c Hc. apply H. auto.
Qed.

Lemma typeOfChar_showType (ty : OperationType) :
  exists c, showType ty = String c EmptyString /\ typeOfChar c = Some ty.
Proof. destruct ty; eexists; split; reflexivity. Qed.

Lemma typeOfChar_inv (c : ascii) (ty : OperationType) :
  typeOfChar c = Some ty -> showType ty = String c EmptyString.
Proof.
  destruct c as [[] [] [] [] [] [] [] []]; simpl; try discriminate;
    intros [= <-]; reflexivity.
Qed.

(** The regular expression of the parser accepts exactly the texts
    "type letter, digits, optional parenthesised name". *)
Lemma matchOperation_spec (opStr : string) (ty : OperationType) (num : string)
    (var : option string) :
  matchOperation opStr = Some (ty, num, var)
  <-> opStr = render ty num var
      /\ nonEmpty num = true /\ allDigits num = true
      /\ (forall v, var = Some v -> nonEmpty v = true /\ parenFree v = true).
Proof.
  unfold matchOperation, render. split.
  - destruct opStr as [|c rest]; [discriminate|]. cbv beta iota.
    destruct (typeOfChar c) as [ty'|] eqn:Hc; [|intros H; discriminate H].
    apply typeOfChar_inv in Hc.
    destruct (span isDigit rest) as [digits tail] eqn:Es.
    apply span_spec in Es as (-> & Hd & Ht).
    destruct (nonEmpty digits) eqn:Hne; [|discriminate].
    apply allDigits_spec in Hd.
    destruct tail as [|d inner].
    + intros [= <- <- <-]. rewrite Hc. split; [reflexivity|].
      repeat split; try assumption; discriminate.
    + destruct (Ascii.eqb_spec d "("%char) as [->|Hd'].
      * destruct (span notRParen inner) as [name close] eqn:En.
        apply span_spec in En as (-> & Hn & _).
        destruct (nonEmpty name) eqn:Hnn; [|discriminate]. simpl.
        destruct (String.eqb_spec close ")") as [->|]; [|discriminate].
        intros [= <- <- <-]. rewrite Hc. split; [reflexivity|].
        split; [assumption|]. split; [assumption|].
        intros v [= <-]. split; [assumption|apply parenFree_spec, Hn].
      * destruct d as [[] [] [] [] [] [] [] []]; try discriminate. contradiction.
  - intros (-> & Hne & Hd & Hv).
    destruct (typeOfChar_showType ty) as (c & -> & Hc).
    rewrite string_app_cons, string_app_nil_l. cbv beta iota. rewrite Hc.
    pose proof (proj1 (allDigits_spec num) Hd) as Hd'.
    destruct var as [v|].
    + destruct (Hv v eq_refl) as [Hnv Hpv].
      pose proof (proj1 (parenFree_spec v) Hpv) as Hpv'.
      assert (Es : span isDigit (num +:+ "(" +:+ v +:+ ")") = (num, "(" +:+ v +:+ ")")).
      { apply span_spec. split; [reflexivity|]. split; [assumption|reflexivity]. }
      rewrite Es, Hne. rewrite string_app_cons, string_app_nil_l.
      assert (En : span notRParen (v +:+ ")") = (v, ")")).
      { apply span_spec. split; [reflexivity|]. split; [assumption|reflexivity]. }
      rewrite En, Hnv. reflexivity.
    + assert (Es : span isDigit (num +:+ EmptyString) = (num, EmptyString)).
      { apply span_spec. split; [reflexivity|]. split; [assumption|exact I]. }
      rewrite Es, Hne. reflexivity.
Qed.

End Grammar.

Section ParsedOperations.
Import JS Parser TokenSpec ParserSpec.

(** ** The fields of a parsed operation *)

Lemma parseTokens_fields (toks : list string) (i : nat) (op : Operation) :
  In op (parseTokens i toks) ->
  exists num,
    transactionId op = "T" +:+ num
    /\ nonEmpty num = true /\ allDigits num = true
    /\ originalString op = render (type op) num (variable op)
    /\ id op = originalString op +:+ "-" +:+ showNat (step op)
    /\ (forall v, variable op = Some v -> nonEmpty v = true /\ parenFree v = true)
    /\ (i <= step op < i + length toks)%nat.
Proof.
  revert i. induction toks as [|t l IH]; intros i; simpl; [tauto|].
  destruct (matchOperation _) as [[[ty num] var]|] eqn:E.
  - intros [<-|H].
    + apply matchOperation_spec in E as (E & Hne & Hd & Hv). simpl.
      exists num. split; [reflexivity|]. split; [exact Hne|].
      split; [exact Hd|]. split; [exact E|]. split; [reflexivity|].
      split; [exact Hv|lia].
    + destruct (IH _ H) as (num' & H1 & H2 & H3 & H4 & H5 & H6 & H7).
      exists num'. repeat (split; [assumption|]). lia.
  - intros H. destruct (IH _ H) as (num' & H1 & H2 & H3 & H4 & H5 & H6 & H7).
    exists num'. repeat (split; [assumption|]). lia.
Qed.

(** ** Identifiers *)

Lemma allDigits_app_dash (a b : string) : allDigits (a +:+ "-" +:+ b) = false.
Proof.
  induction a as [|x a IH]; [reflexivity|].
  rewrite string_app_cons. simpl. rewrite IH. apply andb_false_r.
Qed.

(** The number after the last dash of an identifier is determined by the
    identifier. *)
Lemma dash_suffix_inj (a b d1 d2 : string) :
  allDigits d1 = true -> allDigits d2 = true ->
  a +:+ "-" +:+ d1 = b +:+ "-" +:+ d2 -> d1 = d2.
Proof.
  intros H1 H2. revert b. induction a as [|x a IH]; intros [|y b] E.
  - rewrite !string_app_nil_l in E. change (String "-" d1 = String "-" d2) in E.
    congruence.
  - rewrite string_app_nil_l, string_app_cons in E.
    change (String "-" d1 = String y (b +:+ "-" +:+ d2)) in E.
    injection E as _ E. rewrite E, allDigits_app_dash in H1. discriminate.
  - rewrite string_app_nil_l, string_app_cons in E.
    change (String x (a +:+ "-" +:+ d1) = String "-" d2) in E.
    injection E as _ E. rewrite <- E, allDigits_app_dash in H2. discriminate.
  - rewrite !string_app_cons in E. injection E as _ E. exact (IH b E).
Qed.

Lemma string_of_uint_digits (d : Decimal.uint) :
  allDigits (NilEmpty.string_of_uint d) = true.
Proof. induction d; simpl; auto. Qed.

Lemma showNat_digits (n : nat) : allDigits (showNat n) = true.
Proof. apply string_of_uint_digits. Qed.

Lemma showNat_inj (a b : nat) : showNat a = showNat b -> a = b.
Proof.
  unfold showNat. intros E.
  apply (f_equal NilEmpty.uint_of_string) in E. rewrite !NilEmpty.usu in E.
  injection E as E. apply (f_equal Nat.of_uint) in E.
  rewrite !DecimalNat.Unsigned.of_to in E. exact E.
Qed.

Lemma NoDup_map_determined {X Y Z} (f : X -> Y) (g : X -> Z) (l : list X) :
  (forall a b, In a l -> In b l -> f a = f b -> g a = g b) ->
  List.NoDup (map g l) -> List.NoDup (map f l).
Proof.
  induction l as [|x l IH]; simpl; intros Hdet Hg; [constructor|].
  apply List.NoDup_cons_iff in Hg as [Hx Hl]. constructor.
  - intros Hin. apply in_map_iff in Hin as (y & E & Hy). apply Hx.
    rewrite (Hdet x y); [apply in_map, Hy|auto|auto|auto].
  - apply IH; [|assumption]. intros a b Ha Hb. apply Hdet; auto.
Qed.

Lemma sorted_lt_NoDup (l : list nat) : StronglySorted lt l -> List.NoDup l.
Proof.
  induction 1 as [|x l Hs IH Hall]; constructor; [|assumption].
  intros Hin. pose proof (proj1 (List.Forall_forall _ _) Hall x Hin). lia.
Qed.

(** ** Blank input *)

Lemma blank_tokens (s : string) : blank s = true -> normalizedTokens s = [].
Proof.
  unfold blank, normalizedTokens, tokens.
  induction (Unicode.decode s) as [|c l IH]; simpl; [reflexivity|].
  intros [Hc Hl]%andb_true_iff. rewrite Hc. simpl. auto.
Qed.

Lemma parseTokens_length (toks : list string) (i : nat) :
  (length (parseTokens i toks) <= length toks)%nat.
Proof.
  revert i. induction toks as [|t l IH]; intros i; simpl; [lia|].
  destruct (matchOperation _) as [[[ty num] var]|]; simpl;
    specialize (IH (S i)); lia.
Qed.

Lemma parseTokens_nil (toks : list string) (i : nat) :
  Forall (fun tok => trim tok = tok /\ trim (toUpperCase tok) = toUpperCase tok)
         toks ->
  parseTokens i toks = [] <-> forall t, In t toks -> matchesGrammar t = false.
Proof.
  intros H. revert i. induction H as [|t l [Ht _] _ IH]; intros i; simpl; [tauto|].
  rewrite Ht.
  destruct (matchOperation (toUpperCase t)) as [[[ty num] var]|] eqn:E.
  - split; [discriminate|]. intros Hall.
    specialize (Hall t (or_introl eq_refl)). unfold matchesGrammar in Hall.
    rewrite E in Hall. discriminate.
  - rewrite IH. split.
    + intros Hall t' [<-|Ht']; [|auto]. unfold matchesGrammar.
      rewrite E. reflexivity.
    + intros Hall t' Ht'. apply Hall. auto.
Qed.

End ParsedOperations.

(** X1. The regular expression of the parser accepts exactly the texts made of
    one of the letters R, W, C, A, a non-empty run of decimal digits and,
    optionally, a non-empty variable without closing parenthesis between
    parentheses; the groups it returns are the letter, the digits and the
    variable. In particular a Commit or Abort may carry a variable, and
    nothing may follow the closing parenthesis. *)
Theorem matchOperation_grammar (opStr : string) (ty : OperationType)
    (num : string) (var : option string) :
  Parser.matchOperation opStr = Some (ty, num, var)
  <-> opStr = ParserSpec.render ty num var
      /\ JS.nonEmpty num = true /\ ParserSpec.allDigits num = true
      /\ (forall v, var = Some v ->
                    JS.nonEmpty v = true /\ ParserSpec.parenFree v = true).
Proof. apply matchOperation_spec. Qed.

(** X2. Every operation that parseSchedule produces is consistent with its
    text: the transaction identifier is "T" followed by the digits of the
    token, the stored text is the type letter, the digits and, when there is a
    variable, the variable in parentheses, the identifier is the text, a dash
    and the step, the variable is not empty and has no closing parenthesis,
    and the step is below the number of tokens. *)
Theorem parseSchedule_fields (s : string) (op : Operation)
    (Hop : In op (Parser.parseSchedule s)) :
  exists num,
    transactionId op = "T" +:+ num
    /\ JS.nonEmpty num = true /\ ParserSpec.allDigits num = true
    /\ originalString op = ParserSpec.render (type op) num (variable op)
    /\ id op = originalString op +:+ "-" +:+ JS.showNat (step op)
    /\ (forall v, variable op = Some v ->
                  JS.nonEmpty v = true /\ ParserSpec.parenFree v = true
                  /\ JS.toUpperCase v = v)
    /\ (step op < length (TokenSpec.normalizedTokens s))%nat.
Proof.
  rewrite parseSchedule_normalizedTokens in Hop.
  destruct (parseTokens_upperCased _ _ _ Hop) as [_ Hup].
  destruct (parseTokens_fields _ _ _ Hop) as (num & H1 & H2 & H3 & H4 & H5 & H6 & H7).
  exists num. repeat (split; [assumption|]). split; [|lia].
  intros v Hv. destruct (H6 v Hv) as [Ha Hb]. split; [exact Ha|].
  split; [exact Hb|]. exact (Hup v Hv).
Qed.

(** The operation parsed from "w12(acc)". *)
Lemma parseSchedule_fields_witness :
  exists op num,
    Parser.parseSchedule "w12(acc)" = [op]
    /\ transactionId op = "T" +:+ num
    /\ originalString op = ParserSpec.render (type op) num (variable op)
    /\ originalString op = "W12(ACC)".
Proof.
  eexists. 
  destruct (parseSchedule_fields "w12(acc)" _ (or_introl eq_refl))
    as (num & H1 & _ & _ & H4 & _).
  exists num. split; [vm_compute; reflexivity|]. split; [exact H1|].
  split; [exact H4|reflexivity].
Defined.

(** X3. The identifiers of the operations of a parsed schedule are pairwise
    distinct (the lock manager tells queued operations apart by them). *)
Theorem parseSchedule_ids_distinct (s : string) :
  List.NoDup (map id (Parser.parseSchedule s)).
Proof.
  apply (NoDup_map_determined id step).
  - intros a b Ha Hb E.
    rewrite parseSchedule_normalizedTokens in Ha, Hb.
    destruct (parseTokens_fields _ _ _ Ha) as (_ & _ & _ & _ & _ & Hida & _).
    destruct (parseTokens_fields _ _ _ Hb) as (_ & _ & _ & _ & _ & Hidb & _).
    rewrite Hida, Hidb in E.
    apply dash_suffix_inj in E; [apply showNat_inj, E|apply showNat_digits..].
  - apply sorted_lt_NoDup. rewrite parseSchedule_normalizedTokens.
    apply parseTokens_sorted.
Qed.

(** X4. A schedule text made only of commas, semicolons and whitespace (the
    empty text included) parses to no operation; in general parseSchedule
    returns no operation exactly when no token matches the grammar, and never
    more operations than there are tokens. *)
Theorem parseSchedule_blank (s : string) :
  (ParserSpec.blank s = true -> Parser.parseSchedule s = [])
  /\ (Parser.parseSchedule s = []
      <-> forall t, In t (TokenSpec.normalizedTokens s) ->
                    TokenSpec.matchesGrammar t = false)
  /\ (length (Parser.parseSchedule s) <= length (TokenSpec.normalizedTokens s))%nat.
Proof.
  rewrite parseSchedule_normalizedTokens. split; [|split].
  - intros H. rewrite (blank_tokens s H). reflexivity.
  - apply parseTokens_nil, normalizedTokens_trimmed.
  - apply parseTokens_length.
Qed.

(* ===================================================================== *)
(** * The operation buttons of the input card *)
(* ===================================================================== *)

Section AddOperation.
Import Unicode JS Parser TokenSpec ParserSpec InputCard.

(** ** Tokens of a text put together *)

Lemma splitOn_app_sep p (a : list N) (c : N) (b : list N) :
  p c = true -> splitOn p (a ++ c :: b) = splitOn p a ++ splitOn p b.
Proof.
  intros Hc. induction a as [|x a IH]; simpl.
  - rewrite Hc. reflexivity.
  - rewrite IH. destruct (p x); [reflexivity|].
    destruct (splitOn_cons p a) as (h & t & ->). reflexivity.
Qed.

Lemma tokens_app_sep (a : list N) (c : N) (b : list N) :
  isSeparator c = true -> tokens (a ++ c :: b) = tokens a ++ tokens b.
Proof.
  intros Hc. unfold tokens. rewrite (splitOn_app_sep _ _ _ _ Hc).
  apply List.filter_app.
Qed.

Lemma tokens_one (t : list N) :
  separatorFree t = true -> notNil t = true -> tokens t = [t].
Proof.
  intros Hf Hn. unfold tokens.
  pose proof (splitOn_app_separatorFree t [] Hf) as H.
  rewrite app_nil_r in H. simpl in H. rewrite app_nil_r in H.
  rewrite H. simpl. rewrite Hn. reflexivity.
Qed.

Lemma decode_encode_app (l : list N) (x : string) :
  forallb valid l = true -> decode (encode l +:+ x) = l ++ decode x.
Proof.
  induction l as [|c l IH]; simpl; [reflexivity|].
  intros [Hc Hl]%andb_true_iff.
  rewrite string_app_assoc, (decode_encode1 c _ Hc), (IH Hl). reflexivity.
Qed.

Lemma endsWith_spec (c : ascii) (s : string) :
  endsWith c s = true -> exists a, s = a +:+ String c EmptyString.
Proof.
  induction s as [|d s IH]; [discriminate|].
  destruct s as [|e s].
  - simpl. intros H%Ascii.eqb_eq. subst d. exists EmptyString. reflexivity.
  - intros H. destruct (IH H) as [a Ha]. exists (String d a).
    rewrite string_app_cons, <- Ha. reflexivity.
Qed.

(** A trimmed text that ends with the byte of a comma or semicolon ends
    with that code point. *)
Lemma encode_ends (l : list N) (c : ascii) :
  forallb valid l = true -> (N_of_ascii c < 0x80)%N ->
  endsWith c (encode l) = true ->
  exists l', l = l' ++ [N_of_ascii c].
Proof.
  intros Hl Hc (a & E)%endsWith_spec.
  destruct (encode_split_ascii l a c EmptyString Hl Hc E) as (u1 & u2 & -> & _ & E2).
  exists u1. f_equal. f_equal.
  pose proof (encode_nonEmpty u2) as Hn. rewrite <- E2 in Hn.
  destruct u2; [reflexivity|discriminate Hn].
Qed.

(** ** The text of a new operation, code point by code point *)

Lemma ascii_point (b : ascii) :
  (N_of_ascii b < 0x80)%N -> encode1 (N_of_ascii b) = String b EmptyString.
Proof.
  intros H. rewrite (encode1_ascii _ H). unfold byte.
  rewrite ascii_N_embedding. reflexivity.
Qed.

Lemma digit_point (b : ascii) :
  isDigit b = true ->
  (N_of_ascii b < 0x80)%N
  /\ isSeparator (N_of_ascii b) = false
  /\ upperCodePoint (N_of_ascii b) = [N_of_ascii b].
Proof.
  destruct b as [[] [] [] [] [] [] [] []]; intros H; try discriminate H;
    vm_compute; auto.
Qed.

(** The code points of a run of digits. *)
Lemma allDigits_points (num : string) :
  allDigits num = true ->
  exists ld,
    num = encode ld /\ forallb valid ld = true /\ separatorFree ld = true
    /\ CodePoints.toUpperCase ld = ld.
Proof.
  induction num as [|b s IH]; simpl.
  - exists []. auto.
  - intros [Hb Hs]%andb_true_iff.
    destruct (IH Hs) as (ld & -> & Hv & Hf & Hu).
    destruct (digit_point b Hb) as (Hlt & Hsep & Hup).
    exists (N_of_ascii b :: ld). split; [|split; [|split]].
    + simpl. rewrite (ascii_point b Hlt). reflexivity.
    + simpl. rewrite Hv, andb_true_r. unfold valid. apply N.ltb_lt. lia.
    + simpl. rewrite Hf, Hsep. reflexivity.
    + rewrite toUpperCase_cons, Hup, Hu. reflexivity.
Qed.

Lemma showType_point (ty : OperationType) :
  exists n,
    showType ty = encode [n] /\ valid n = true /\ isSeparator n = false
    /\ upperCodePoint n = [n].
Proof.
  destruct ty; [exists 0x52%N|exists 0x57%N|exists 0x43%N|exists 0x41%N];
    vm_compute; auto.
Qed.

(** ** Closing parentheses *)

Lemma parenFree_app (a b : string) :
  parenFree (a +:+ b) = parenFree a && parenFree b.
Proof.
  induction a as [|x a IH]; [reflexivity|].
  rewrite string_app_cons. simpl. rewrite IH. apply andb_assoc.
Qed.

Lemma highBytes_parenFree (s : string) :
  highBytes s = true -> parenFree s = true.
Proof.
  induction s as [|b s IH]; simpl; [reflexivity|].
  intros [Hb%N.leb_le Hs]%andb_true_iff. rewrite (IH Hs), andb_true_r.
  unfold notRParen. apply negb_true_iff.
  destruct (Ascii.eqb_spec b ")") as [->|_]; [|reflexivity].
  vm_compute in Hb. contradiction.
Qed.

Lemma parenFree_encode (l : list N) :
  forallb valid l = true -> noParen l = true -> parenFree (encode l) = true.
Proof.
  unfold noParen. induction l as [|c l IH]; simpl; [reflexivity|].
  intros [Hc Hl]%andb_true_iff [Hp Hn]%andb_true_iff.
  rewrite parenFree_app, (IH Hl Hn), andb_true_r.
  destruct (N.ltb_spec c 0x80) as [H1|H1].
  - rewrite (encode1_ascii c H1). simpl. rewrite andb_true_r.
    unfold notRParen. apply negb_true_iff.
    destruct (Ascii.eqb_spec (byte c) ")") as [E|_]; [|reflexivity].
    apply (f_equal N_of_ascii) in E. rewrite byte_value in E by lia.
    subst c. discriminate Hp.
  - apply highBytes_parenFree, encode1_high; assumption.
Qed.

(** No upper-case form holds a closing parenthesis. *)
Lemma upperTable_noParen :
  forallb (fun e : N * list N => noParen (snd e)) upperTable = true.
Proof. vm_compute. reflexivity. Qed.

Lemma noParen_toUpperCase (l : list N) :
  noParen l = true -> noParen (CodePoints.toUpperCase l) = true.
Proof.
  unfold noParen. induction l as [|c l IH]; [reflexivity|].
  simpl forallb at 1. intros [Hc Hl]%andb_true_iff.
  rewrite toUpperCase_cons, forallb_app, (IH Hl), andb_true_r.
  unfold upperCodePoint. destruct (lookup c upperTable) as [u|] eqn:E.
  - apply lookup_In in E.
    exact (proj1 (forallb_forall _ _) upperTable_noParen _ E).
  - simpl. rewrite Hc. reflexivity.
Qed.

(** ** The loop of the parser over tokens put together *)

Lemma parseTokens_app (l1 l2 : list string) (i : nat) :
  parseTokens i (l1 ++ l2)
  = parseTokens i l1 ++ parseTokens (i + length l1) l2.
Proof.
  revert i. induction l1 as [|t l1 IH]; intros i; simpl.
  - rewrite Nat.add_0_r. reflexivity.
  - rewrite IH, <- Nat.add_succ_comm.
    destruct (matchOperation _) as [[[ty num] var]|]; reflexivity.
Qed.

(** The tokens of the schedule text after a button press: the tokens of
    the text before, and the new operation. *)
Lemma addOperation_tokens (schedule : string) (lnew : list N) :
  forallb valid lnew = true -> separatorFree lnew = true ->
  notNil lnew = true ->
  let currentSchedule := trim schedule in
  let separator :=
    if nonEmpty currentSchedule && negb (endsWith ";" currentSchedule)
       && negb (endsWith "," currentSchedule)
    then "; " else EmptyString in
  normalizedTokens (currentSchedule +:+ separator +:+ encode lnew)
  = normalizedTokens schedule ++ [encode lnew].
Proof.
  intros Hv Hf Hn cur sep. subst cur sep. unfold trim, normalizedTokens.
  rewrite <- (tokens_trim (decode schedule)).
  pose proof (valid_trim _ (decode_valid schedule)) as Hcur.
  set (lcur := CodePoints.trim (decode schedule)) in *.
  assert (Hnew : decode (encode lnew) = lnew) by (apply decode_encode, Hv).
  assert (Hone : tokens lnew = [lnew]) by (apply tokens_one; assumption).
  destruct (nonEmpty (encode lcur)) eqn:Ecur; simpl.
  - destruct (endsWith ";" (encode lcur)) eqn:E1; simpl.
    + destruct (encode_ends lcur ";" Hcur ltac:(vm_compute; reflexivity) E1)
        as [l' El].
      rewrite string_app_nil_l, (decode_encode_app _ _ Hcur), Hnew, El.
      rewrite <- app_assoc. simpl.
      rewrite !tokens_app_sep by reflexivity.
      rewrite Hone, app_nil_r, map_app. reflexivity.
    + destruct (endsWith "," (encode lcur)) eqn:E2; simpl.
      * destruct (encode_ends lcur "," Hcur ltac:(vm_compute; reflexivity) E2)
          as [l' El].
        rewrite string_app_nil_l, (decode_encode_app _ _ Hcur), Hnew, El.
        rewrite <- app_assoc. simpl.
        rewrite !tokens_app_sep by reflexivity.
        rewrite Hone, app_nil_r, map_app. reflexivity.
      * rewrite (decode_encode_app _ _ Hcur).
        change (decode ("; " +:+ encode lnew))
          with (decode (encode [0x3B%N; 0x20%N] +:+ encode lnew)).
        rewrite (decode_encode_app [0x3B%N; 0x20%N] _ eq_refl), Hnew.
        change (lcur ++ [0x3B%N; 0x20%N] ++ lnew)
          with (lcur ++ 0x3B%N :: [] ++ 0x20%N :: lnew).
        rewrite !tokens_app_sep by reflexivity.
        rewrite Hone, map_app. reflexivity.
  - rewrite encode_nonEmpty in Ecur. destruct lcur; [|discriminate].
    simpl. rewrite !string_app_nil_l, Hnew, Hone. reflexivity.
Qed.

End AddOperation.

Section AddOperationText.
Import Unicode JS Parser TokenSpec ParserSpec InputCard.

(** The text that a button of the input card appends. *)
Lemma newOperation_render (ty : OperationType) (c : ascii) (num var : string) :
  newOperation ty (String c num) var
  = render ty num (match ty with R | W => Some var | C | A => None end).
Proof.
  unfold newOperation, render, substring1.
  destruct ty; rewrite ?string_app_nil_r; reflexivity.
Qed.

(** The code points of the text of an operation, and its upper-case
    form. *)
Lemma render_points (ty : OperationType) (num : string) (lv : option (list N)) :
  allDigits num = true ->
  (forall l, lv = Some l -> forallb valid l = true /\ separatorFree l = true) ->
  exists lnew,
    render ty num (option_map encode lv) = encode lnew
    /\ forallb valid lnew = true /\ separatorFree lnew = true
    /\ notNil lnew = true
    /\ encode (CodePoints.toUpperCase lnew)
       = render ty num
           (option_map (fun l => encode (CodePoints.toUpperCase l)) lv).
Proof.
  intros Hd Hlv.
  destruct (allDigits_points num Hd) as (ld & -> & Hvd & Hfd & Hud).
  destruct (showType_point ty) as (nt & Hty & Hvt & Hst & Hut).
  unfold render. rewrite Hty.
  destruct lv as [l|]; simpl option_map; cbv iota.
  - destruct (Hlv l eq_refl) as [Hvl Hfl].
    exists ([nt] ++ ld ++ [0x28%N] ++ l ++ [0x29%N]).
    split; [|split; [|split; [|split]]].
    + rewrite !encode_app. reflexivity.
    + rewrite !forallb_app, Hvd, Hvl. simpl. rewrite Hvt. reflexivity.
    + unfold separatorFree in *. rewrite !forallb_app, Hfd, Hfl. simpl.
      rewrite Hst. reflexivity.
    + reflexivity.
    + rewrite !toUpperCase_app, Hud.
      change (CodePoints.toUpperCase [nt]) with (upperCodePoint nt ++ []).
      rewrite Hut. change ([nt] ++ []) with [nt].
      change (CodePoints.toUpperCase [0x28%N]) with [0x28%N].
      change (CodePoints.toUpperCase [0x29%N]) with [0x29%N].
      rewrite !encode_app. reflexivity.
  - exists ([nt] ++ ld). split; [|split; [|split; [|split]]].
    + rewrite encode_app, string_app_nil_r. reflexivity.
    + rewrite forallb_app, Hvd. simpl. rewrite Hvt. reflexivity.
    + unfold separatorFree in *. rewrite forallb_app, Hfd. simpl.
      rewrite Hst. reflexivity.
    + reflexivity.
    + rewrite toUpperCase_app, Hud.
      change (CodePoints.toUpperCase [nt]) with (upperCodePoint nt ++ []).
      rewrite Hut. change ([nt] ++ []) with [nt].
      rewrite encode_app, string_app_nil_r. reflexivity.
Qed.

End AddOperationText.

(** X5. Pressing a button of the input card appends exactly one operation to
    the parsed schedule: when the active transaction is one character followed
    by digits and the active variable is a non-empty text without separator
    and without closing parenthesis, parsing the new schedule text gives the
    operations of the old text followed by the new operation, whose step is
    the number of tokens of the old text and whose variable is the upper-case
    form of the active variable. *)
Theorem addOperation_parseSchedule
    (schedule : string) (c : ascii) (num : string) (lv : list N)
    (ty : OperationType)
    (Hnum : JS.nonEmpty num = true) (Hdigits : ParserSpec.allDigits num = true)
    (Hvalid : forallb Unicode.valid lv = true)
    (Hvar : TokenSpec.notNil lv = true)
    (Hsep : TokenSpec.separatorFree lv = true)
    (Hparen : ParserSpec.noParen lv = true) :
  let var := Unicode.encode lv in
  let n := length (TokenSpec.normalizedTokens schedule) in
  let v := match ty with R | W => Some (JS.toUpperCase var) | C | A => None end in
  let text := ParserSpec.render ty num v in
  Parser.parseSchedule (InputCard.addOperation schedule (String c num) var ty)
  = Parser.parseSchedule schedule
    ++ [ {| id := text +:+ "-" +:+ JS.showNat n;
            type := ty;
            transactionId := "T" +:+ num;
            variable := v;
            originalString := text;
            step := n |} ].
Proof.
  intros var n v text. unfold InputCard.addOperation.
  rewrite newOperation_render.
  set (lv0 := match ty with R | W => Some lv | C | A => None end).
  assert (Evar : match ty with R | W => Some var | C | A => None end
                 = option_map Unicode.encode lv0).
  { subst lv0 var. destruct ty; reflexivity. }
  rewrite Evar.
  destruct (render_points ty num lv0 Hdigits)
    as (lnew & -> & Hv & Hf & Hn & Hup).
  { intros l Hl. subst lv0. destruct ty; inversion Hl; subst; auto. }
  rewrite !parseSchedule_normalizedTokens.
  rewrite (addOperation_tokens schedule lnew Hv Hf Hn).
  rewrite parseTokens_app. f_equal. fold n.
  change (Parser.parseTokens (0 + n) [Unicode.encode lnew])
    with (let opStr := JS.toUpperCase (JS.trim (Unicode.encode lnew)) in
          match Parser.matchOperation opStr with
          | Some (ty, transactionNum, var) =>
              [{| id := opStr +:+ "-" +:+ JS.showNat n;
                  type := ty;
                  transactionId := "T" +:+ transactionNum;
                  variable := var;
                  originalString := opStr;
                  step := n |}]
          | None => []
          end).
  cbv zeta.
  rewrite (trim_encode lnew Hv), (trim_separatorFree lnew Hf).
  rewrite (toUpperCase_encode lnew Hv), Hup.
  assert (Ev : option_map (fun l => Unicode.encode (JS.CodePoints.toUpperCase l)) lv0
               = v).
  { subst lv0 v var. destruct ty; try reflexivity;
      simpl; rewrite (toUpperCase_encode lv Hvalid); reflexivity. }
  rewrite Ev. fold text.
  assert (E : Parser.matchOperation text = Some (ty, num, v)).
  { apply matchOperation_spec. split; [reflexivity|]. split; [exact Hnum|].
    split; [exact Hdigits|]. intros x Hx.
    assert (Hx' : x = Unicode.encode (JS.CodePoints.toUpperCase lv)).
    { subst v var. rewrite (toUpperCase_encode lv Hvalid) in Hx.
      destruct ty; inversion Hx; reflexivity. }
    subst x. split.
    - rewrite encode_nonEmpty, notNil_toUpperCase. exact Hvar.
    - apply parenFree_encode;
        [apply valid_toUpperCase, Hvalid|apply noParen_toUpperCase, Hparen]. }
  rewrite E. reflexivity.
Qed.

(** Adding a write of transaction T2 on variable é to "r1(a); c1". *)
Lemma addOperation_parseSchedule_witness :
  map originalString
      (Parser.parseSchedule (InputCard.addOperation "r1(a); c1 " "T2" "é" W))
  = ["R1(A)"; "C1"; "W2(É)"].
Proof.
  change "é" with (Unicode.encode [0xE9%N]).
  rewrite (addOperation_parseSchedule "r1(a); c1 " "T" "2" [0xE9%N] W
             eq_refl eq_refl eq_refl eq_refl eq_refl eq_refl).
  cbv zeta. rewrite map_app.
  change (map originalString (Parser.parseSchedule "r1(a); c1 "))
    with ["R1(A)"; "C1"].
  reflexivity.
Defined.

Section Grouping.
Import JS Parser.

Local Abbreviation owns k := (fun o : Operation => String.eqb (transactionId o) k).

Lemma existsb_eqb_In (x : string) (l : list string) :
  existsb (String.eqb x) l = true <-> In x l.
Proof.
  rewrite existsb_exists. split.
  - intros (y & Hy & E). apply String.eqb_eq in E. subst. exact Hy.
  - intros H. exists x. split; [exact H|apply String.eqb_refl].
Qed.

Lemma dedup_In (x : string) (l seen : list string) :
  In x (dedup seen l) <-> In x l /\ ~ In x seen.
Proof.
  revert seen. induction l as [|y l IH]; intros seen; simpl; [tauto|].
  destruct (existsb (String.eqb y) seen) eqn:E.
  - apply existsb_eqb_In in E. rewrite IH. split.
    + tauto.
    + intros [[->|H] Hn]; tauto.
  - assert (Hy : ~ In y seen).
    { intros H. apply existsb_eqb_In in H. congruence. }
    simpl. rewrite IH. simpl. split.
    + intros [->|[H Hn]]; [tauto|]. tauto.
    + intros [[->|H] Hn]; [tauto|].
      destruct (String.eqb_spec y x) as [->|Hne]; [tauto|]. right. tauto.
Qed.

Lemma dedup_NoDup (l seen : list string) : List.NoDup (dedup seen l).
Proof.
  revert seen. induction l as [|y l IH]; intros seen; simpl; [constructor|].
  destruct (existsb (String.eqb y) seen); [apply IH|].
  constructor; [|apply IH]. rewrite dedup_In. simpl. tauto.
Qed.

Lemma dedup_snoc (l seen : list string) (x : string) :
  dedup seen (l ++ [x])
  = dedup seen l
    ++ (if existsb (String.eqb x) seen || existsb (String.eqb x) l
        then [] else [x]).
Proof.
  revert seen. induction l as [|y l IH]; intros seen; simpl.
  - rewrite orb_false_r. destruct (existsb _ seen); reflexivity.
  - destruct (existsb (String.eqb y) seen) eqn:E.
    + rewrite IH. f_equal.
      destruct (String.eqb_spec x y) as [->|Hne]; [|reflexivity].
      rewrite E. reflexivity.
    + simpl. rewrite IH. simpl. do 2 f_equal.
      destruct (x =? y)%string, (existsb (String.eqb x) seen); reflexivity.
Qed.

(** ** pushOperation *)

Lemma pushOperation_keys (op : Operation) (m : list (string * list Operation)) :
  map fst (pushOperation op m)
  = map fst m
    ++ (if existsb (String.eqb (transactionId op)) (map fst m)
        then [] else [transactionId op]).
Proof.
  induction m as [|[k ops] m IH]; simpl; [reflexivity|].
  rewrite (String.eqb_sym (transactionId op) k).
  destruct (k =? transactionId op)%string; simpl.
  - rewrite app_nil_r. reflexivity.
  - rewrite IH. reflexivity.
Qed.

Lemma pushOperation_entries (op : Operation) (l : list Operation)
    (m : list (string * list Operation)) :
  List.NoDup (map fst m) ->
  Forall (fun e => snd e = List.filter (owns (fst e)) l) m ->
  (~ In (transactionId op) (map fst m) ->
   List.filter (owns (transactionId op)) l = []) ->
  Forall (fun e => snd e = List.filter (owns (fst e)) (l ++ [op]))
         (pushOperation op m).
Proof.
  induction m as [|[k ops] m IH]; simpl; intros Hnd Hall Hnew.
  - constructor; [|constructor]. simpl.
    rewrite List.filter_app, Hnew by tauto. simpl.
    rewrite String.eqb_refl. reflexivity.
  - apply List.NoDup_cons_iff in Hnd as [Hk Hnd].
    apply List.Forall_cons_iff in Hall as [Hops Hall]. simpl in Hops.
    destruct (String.eqb_spec k (transactionId op)) as [E|Hne].
    + constructor.
      * simpl. rewrite List.filter_app, <- Hops. simpl.
        rewrite E, String.eqb_refl. reflexivity.
      * apply List.Forall_forall. intros [k' ops'] Hin.
        pose proof (proj1 (List.Forall_forall _ _) Hall _ Hin) as H'.
        simpl in *. rewrite List.filter_app, <- H'. simpl.
        destruct (String.eqb_spec (transactionId op) k') as [E'|_];
          [|symmetry; apply app_nil_r].
        exfalso. apply Hk. rewrite E, E'.
        apply (in_map fst _ _ Hin).
    + constructor.
      * simpl. rewrite List.filter_app, <- Hops. simpl.
        destruct (String.eqb_spec (transactionId op) k) as [E'|_];
          [congruence|symmetry; apply app_nil_r].
      * apply IH; [assumption..|]. intros Hn. apply Hnew. tauto.
Qed.

Lemma filter_owns_nil (k : string) (l : list Operation) :
  ~ In k (map transactionId l) -> List.filter (owns k) l = [].
Proof.
  induction l as [|o l IH]; simpl; [reflexivity|]. intros Hn.
  destruct (String.eqb_spec (transactionId o) k) as [E|_]; [tauto|].
  apply IH. tauto.
Qed.

(** The map that [groupOperationsByTransaction] builds. *)
Lemma transactionsMap_spec (l : list Operation) :
  let m := fold_left (fun m op => pushOperation op m) l [] in
  map fst m = dedup [] (map transactionId l)
  /\ Forall (fun e => snd e = List.filter (owns (fst e)) l) m.
Proof.
  induction l as [|op l IH] using rev_ind; [split; [reflexivity|constructor]|].
  rewrite fold_left_app. simpl. destruct IH as [Hk He]. split.
  - rewrite pushOperation_keys, Hk, List.map_app.
    change (map transactionId [op]) with [transactionId op].
    rewrite dedup_snoc. f_equal. simpl.
    replace (existsb (String.eqb (transactionId op))
               (dedup [] (map transactionId l)))
      with (existsb (String.eqb (transactionId op)) (map transactionId l));
      [reflexivity|].
    apply eq_true_iff_eq. rewrite !existsb_eqb_In, dedup_In. simpl. tauto.
  - apply pushOperation_entries; [rewrite Hk; apply dedup_NoDup|exact He|].
    rewrite Hk, dedup_In. intros Hn. apply filter_owns_nil. tauto.
Qed.

Lemma filter_owns_nonempty (k : string) (l : list Operation) :
  In k (map transactionId l) -> List.filter (owns k) l <> [].
Proof.
  intros (o & E & Ho)%in_map_iff Hnil.
  assert (Hin : In o (List.filter (owns k) l)).
  { apply List.filter_In. split; [exact Ho|]. rewrite E. apply String.eqb_refl. }
  rewrite Hnil in Hin. exact Hin.
Qed.

End Grouping.

(** X6. groupOperationsByTransaction partitions the operations by transaction:
    there is one transaction per distinct transaction identifier, in the order
    of first appearance, and the operations of each transaction are exactly
    the operations of the input with that identifier, in the order of the
    input, so no transaction is empty. *)
Theorem groupOperationsByTransaction_partition (operations : list Operation) :
  let txs := Parser.groupOperationsByTransaction operations in
  map tx_id txs = Parser.dedup [] (map transactionId operations)
  /\ List.NoDup (map tx_id txs)
  /\ (forall t, In t txs ->
        tx_operations t
        = List.filter (fun o => String.eqb (transactionId o) (tx_id t)) operations
        /\ tx_operations t <> []
        /\ tx_summary t
           = Some (Parser.generateTransactionSummary (tx_id t) (tx_operations t))).
Proof.
  intros txs. destruct (transactionsMap_spec operations) as [Hk He].
  assert (Hids : map tx_id txs = Parser.dedup [] (map transactionId operations)).
  { rewrite <- Hk. subst txs. unfold Parser.groupOperationsByTransaction.
    rewrite map_map. apply map_ext. intros [k ops]. reflexivity. }
  split; [exact Hids|]. split; [rewrite Hids; apply dedup_NoDup|].
  intros t Ht. subst txs. unfold Parser.groupOperationsByTransaction in Ht.
  apply in_map_iff in Ht as ([k ops] & <- & Hin). simpl.
  pose proof (proj1 (List.Forall_forall _ _) He _ Hin) as Hops. simpl in Hops.
  split; [exact Hops|]. split; [|reflexivity].
  rewrite Hops. apply filter_owns_nonempty.
  assert (Hkin : In k (Parser.dedup [] (map transactionId operations))).
  { rewrite <- Hk. apply (in_map fst _ _ Hin). }
  apply dedup_In in Hkin. tauto.
Qed.

Section UniqueNames.
Import JS Parser.

Local Abbreviation le_str := (fun a b : string => leb a b = true).

Lemma unitsLeb_trans (a b c : list N) :
  unitsLeb a b = true -> unitsLeb b c = true -> unitsLeb a c = true.
Proof.
  revert b c. induction a as [|x a IH]; intros [|y b] [|z c]; simpl;
    try reflexivity; try discriminate.
  destruct (N.ltb_spec x y), (N.ltb_spec y x), (N.ltb_spec y z),
    (N.ltb_spec z y), (N.ltb_spec x z), (N.ltb_spec z x);
    intros Hab Hbc; try reflexivity; try discriminate; try lia;
    exact (IH b c Hab Hbc).
Qed.

Lemma unitsLeb_total (a b : list N) :
  unitsLeb a b = true \/ unitsLeb b a = true.
Proof.
  revert b. induction a as [|x a IH]; intros [|y b]; simpl; auto.
  destruct (N.ltb_spec x y), (N.ltb_spec y x); auto; try lia.
Qed.

Lemma leb_trans (a b c : string) :
  leb a b = true -> leb b c = true -> leb a c = true.
Proof. apply unitsLeb_trans. Qed.

Lemma leb_total (a b : string) : leb a b = true \/ leb b a = true.
Proof. apply unitsLeb_total. Qed.

Lemma insertSorted_In (x y : string) (l : list string) :
  In y (insertSorted x l) <-> y = x \/ In y l.
Proof.
  induction l as [|z l IH]; simpl; [intuition|].
  destruct (leb x z); simpl; [intuition|]. rewrite IH. intuition.
Qed.

Lemma insertSorted_sorted (x : string) (l : list string) :
  StronglySorted le_str l -> StronglySorted le_str (insertSorted x l).
Proof.
  induction 1 as [|z l Hs IH Hall]; simpl; [repeat constructor|].
  destruct (leb x z) eqn:E.
  - constructor; [constructor; assumption|]. constructor; [exact E|].
    apply List.Forall_forall. intros w Hw.
    pose proof (proj1 (List.Forall_forall _ _) Hall w Hw) as Hzw. simpl in Hzw.
    exact (leb_trans _ _ _ E Hzw).
  - constructor; [exact IH|]. apply List.Forall_forall. intros w Hw.
    apply insertSorted_In in Hw as [->|Hw].
    + destruct (leb_total x z) as [H|H]; [congruence|exact H].
    + exact (proj1 (List.Forall_forall _ _) Hall w Hw).
Qed.

Lemma insertSorted_NoDup (x : string) (l : list string) :
  ~ In x l -> List.NoDup l -> List.NoDup (insertSorted x l).
Proof.
  induction l as [|z l IH]; simpl; intros Hn Hnd; [repeat constructor; auto|].
  destruct (leb x z).
  - constructor; [simpl; tauto|exact Hnd].
  - apply List.NoDup_cons_iff in Hnd as [Hz Hnd]. constructor.
    + rewrite insertSorted_In. intros [->|H]; tauto.
    + apply IH; tauto.
Qed.

Lemma sortStrings_In (y : string) (l : list string) :
  In y (sortStrings l) <-> In y l.
Proof.
  induction l as [|x l IH]; simpl; [tauto|].
  rewrite insertSorted_In, IH. intuition.
Qed.

Lemma sortStrings_sorted (l : list string) : StronglySorted le_str (sortStrings l).
Proof.
  induction l as [|x l IH]; simpl; [constructor|].
  apply insertSorted_sorted, IH.
Qed.

Lemma sortStrings_NoDup (l : list string) :
  List.NoDup l -> List.NoDup (sortStrings l).
Proof.
  induction 1 as [|x l Hx Hnd IH]; simpl; [constructor|].
  apply insertSorted_NoDup; [rewrite sortStrings_In; exact Hx|exact IH].
Qed.

Lemma sortStrings_length (l : list string) : length (sortStrings l) = length l.
Proof.
  induction l as [|x l IH]; simpl; [reflexivity|]. rewrite <- IH.
  generalize (sortStrings l). intros s.
  induction s as [|z s IHs]; simpl; [reflexivity|].
  destruct (leb x z); simpl; [reflexivity|]. rewrite IHs. reflexivity.
Qed.

End UniqueNames.

(** X7. getUniqueTransactionIds returns the transaction identifiers of the
    operations in ascending order, each exactly once, and returns as many
    identifiers as groupOperationsByTransaction returns transactions. *)
Theorem getUniqueTransactionIds_spec (operations : list Operation) :
  let ids := Parser.getUniqueTransactionIds operations in
  StronglySorted (fun a b => JS.leb a b = true) ids
  /\ List.NoDup ids
  /\ (forall k, In k ids <-> exists op, In op operations /\ transactionId op = k)
  /\ length ids = length (Parser.groupOperationsByTransaction operations).
Proof.
  intros ids. subst ids. unfold Parser.getUniqueTransactionIds.
  split; [apply sortStrings_sorted|].
  split; [apply sortStrings_NoDup, dedup_NoDup|]. split.
  - intros k. rewrite sortStrings_In, dedup_In, in_map_iff. simpl.
    split; [intros [(op & E & H) _]|intros (op & H & E)]; eauto.
  - rewrite sortStrings_length.
    destruct (transactionsMap_spec operations) as [<- _].
    unfold Parser.groupOperationsByTransaction. rewrite !length_map.
    reflexivity.
Qed.

(** X8. getUniqueVariableNames returns the non-empty variables of the
    operations in ascending order, each exactly once; operations without a
    variable contribute nothing. *)
Theorem getUniqueVariableNames_spec (operations : list Operation) :
  let names := Parser.getUniqueVariableNames operations in
  StronglySorted (fun a b => JS.leb a b = true) names
  /\ List.NoDup names
  /\ (forall v, In v names
        <-> v <> EmptyString
            /\ exists op, In op operations /\ variable op = Some v).
Proof.
  intros names. subst names. unfold Parser.getUniqueVariableNames.
  split; [apply sortStrings_sorted|].
  split; [apply sortStrings_NoDup, dedup_NoDup|].
  intros v. rewrite sortStrings_In, dedup_In, <- list_elem_of_In,
    list_elem_of_omap. simpl. split.
  - intros [(op & Hop & E) _]. apply list_elem_of_In in Hop.
    destruct (variable op) as [w|] eqn:Ev; simpl in E; [|discriminate].
    destruct w; simpl in E; [discriminate|]. injection E as <-.
    split; [discriminate|]. exists op. auto.
  - intros (Hne & op & Hop & E). split; [|tauto]. exists op.
    split; [apply list_elem_of_In, Hop|]. rewrite E. simpl.
    destruct v; [congruence|reflexivity].
Qed.

Section Summary.
Import JS Parser.

Lemma countType_zero (t : OperationType) (tid : string) (ops : list Operation) :
  (forall o, In o ops -> transactionId o = tid -> type o <> t) ->
  countType t tid ops = 0%nat.
Proof.
  intros H. unfold countType.
  replace (List.filter _ ops) with (@nil Operation); [reflexivity|].
  symmetry. apply filter_nil_iff. intros o Ho.
  destruct (String.eqb_spec (transactionId o) tid) as [E|_]; [|reflexivity].
  simpl. destruct (OperationType_eqb (type o) t) eqn:Et; [|reflexivity].
  apply OperationType_eqb_eq in Et. exfalso. exact (H o Ho E Et).
Qed.

Lemma countType_pos (t : OperationType) (tid : string) (ops : list Operation) o :
  In o ops -> transactionId o = tid -> type o = t ->
  (0 <? countType t tid ops)%nat = true.
Proof.
  intros Ho E Et. apply Nat.ltb_lt. unfold countType.
  assert (Hin : In o (List.filter
                        (fun op => String.eqb (transactionId op) tid
                                   && OperationType_eqb (type op) t) ops)).
  { apply List.filter_In. split; [exact Ho|].
    rewrite E, String.eqb_refl, Et. destruct t; reflexivity. }
  destruct (List.filter _ ops); [destruct Hin|simpl; lia].
Qed.

End Summary.

(** X9. The summary of a transaction that commits without reading or writing
    runs the two parts together: it is the identifier followed by ": No R/W
    operationsCommits", with nothing between "operations" and "Commits". *)
Theorem generateTransactionSummary_commit_only
    (tid : string) (ops : list Operation) (c : Operation)
    (Hc : In c ops) (Hid : transactionId c = tid) (Hty : type c = C)
    (Hno : forall o, In o ops -> transactionId o = tid ->
                     type o <> R /\ type o <> W) :
  Parser.generateTransactionSummary tid ops
  = tid +:+ ": No R/W operationsCommits".
Proof.
  unfold Parser.generateTransactionSummary.
  rewrite (countType_zero R), (countType_zero W)
    by (intros o Ho E; apply (Hno o Ho E)).
  rewrite (countType_pos C tid ops c Hc Hid Hty). simpl.
  rewrite string_app_nil_l, !string_app_assoc. reflexivity.
Qed.

(** The summary of transaction T1 in the schedule "C1". *)
Lemma generateTransactionSummary_commit_only_witness :
  Parser.generateTransactionSummary "T1" (Parser.parseSchedule "C1")
  = "T1: No R/W operationsCommits".
Proof.
  apply (generateTransactionSummary_commit_only "T1" (Parser.parseSchedule "C1")
           {| id := "C1-0"; type := C; transactionId := "T1"; variable := None;
              originalString := "C1"; step := 0 |}).
  - left. reflexivity.
  - reflexivity.
  - reflexivity.
  - intros o [<-|[]] _. split; discriminate.
Defined.

(* ===================================================================== *)
(** * The cycle search finds a cycle exactly when there is one *)
(* ===================================================================== *)

Section DfsCorrect.
Import ConflictAnalyzer GraphSpec.

Variable adj : gmap string (list string).

(** Set reasoning from the facts about sets alone. *)
Local Ltac sets :=
  repeat match goal with
         | H : ?T |- _ =>
             lazymatch T with
             | ?A -> ?B => fail
             | forall _, _ => clear H
             end
         end;
  set_solver.

Local Abbreviation finished st x := ((x ∈ visited st) /\ (x ∉ recursionStack st)).
(** The finished nodes are closed under successors and lie on no cycle. *)
Local Abbreviation closed st :=
  (forall x y, finished st x -> successor adj x y -> finished st y).
Local Abbreviation acyclic st :=
  (forall x, finished st x -> ~ tc (successor adj) x x).
(** Every node on the recursion stack reaches the node being explored. *)
Local Abbreviation chain st node :=
  (forall x, x ∈ recursionStack st -> rtc (successor adj) x node).

(** What a call of [dfs] on [n] may assume and what it guarantees. *)
Local Abbreviation pre n st :=
  ((n ∉ visited st) /\ (recursionStack st ⊆ visited st) /\ chain st n
   /\ closed st /\ acyclic st).
Local Abbreviation post n st b st' :=
  (if b : bool then exists c, tc (successor adj) c c
   else recursionStack st' = recursionStack st /\ (visited st ⊆ visited st')
        /\ (n ∈ visited st') /\ closed st' /\ acyclic st').

Lemma tc_first_step (x z : string) :
  tc (successor adj) x z ->
  exists y, successor adj x y /\ rtc (successor adj) y z.
Proof.
  intros H. destruct H as [x y Hxy|x y z Hxy Hyz].
  - exists y. split; [exact Hxy|constructor].
  - exists y. split; [exact Hxy|apply tc_rtc, Hyz].
Qed.

Lemma closed_rtc (st : DfsState) (x y : string) :
  closed st -> finished st x -> rtc (successor adj) x y -> finished st y.
Proof.
  intros Hcl Hx Hr. induction Hr as [x|x y z Hxy _ IH]; [exact Hx|].
  apply IH. exact (Hcl _ _ Hx Hxy).
Qed.

(** A node whose successors are all finished joins the finished nodes. *)
Lemma finish_node (st : DfsState) (node : string) :
  node ∈ recursionStack st -> recursionStack st ⊆ visited st ->
  closed st -> acyclic st ->
  (forall y, successor adj node y -> finished st y) ->
  let st' := {| visited := visited st;
                recursionStack := recursionStack st ∖ {[node]};
                path := path st |} in
  closed st' /\ acyclic st'.
Proof.
  intros Hn Hsub Hcl Hac Hsucc st'. simpl.
  assert (Hfin : forall x, finished st' x -> finished st x \/ x = node).
  { simpl. intros x [Hv Hs]. destruct (decide (x = node)); [auto|].
    left. split; [exact Hv|]. sets. }
  assert (Hfin' : forall x, finished st x -> finished st' x).
  { simpl. intros x [Hv Hs]. split; [exact Hv|sets]. }
  split.
  - intros x y Hx Hxy. apply Hfin'.
    destruct (Hfin x Hx) as [Hx'| ->]; [exact (Hcl _ _ Hx' Hxy)|].
    apply Hsucc, Hxy.
  - intros x Hx Hcyc. destruct (Hfin x Hx) as [Hx'| ->]; [exact (Hac x Hx' Hcyc)|].
    destruct (tc_first_step _ _ Hcyc) as (y & Hy & Hr).
    destruct (closed_rtc st y node Hcl (Hsucc y Hy) Hr) as [_ Hns]. tauto.
Qed.

Lemma visitNeighbors_correct
    (recurse : string -> DfsState -> option (bool * DfsState))
    (node : string) (neighbors : list string) :
  (forall n s b s', recurse n s = Some (b, s') -> pre n s -> post n s b s') ->
  forall st b st',
    node ∈ recursionStack st -> recursionStack st ⊆ visited st ->
    chain st node -> closed st -> acyclic st ->
    (forall y, y ∈ neighbors -> successor adj node y) ->
    (forall y, successor adj node y -> y ∈ neighbors \/ finished st y) ->
    visitNeighbors recurse node neighbors st = Some (b, st') ->
    if b then exists c, tc (successor adj) c c
    else recursionStack st' = recursionStack st ∖ {[node]}
         /\ visited st ⊆ visited st' /\ closed st' /\ acyclic st'.
Proof.
  intros Hrec.
  induction neighbors as [|neighbor rest IH];
    intros st b st' Hn Hsub Hchain Hcl Hac Hin Hout; simpl.
  - intros [= <- <-].
    destruct (finish_node st node Hn Hsub Hcl Hac) as [Hcl' Hac'].
    { intros y Hy. destruct (Hout y Hy) as [H|H]; [sets|exact H]. }
    split; [reflexivity|]. split; [reflexivity|]. split; assumption.
  - assert (Hedge : successor adj node neighbor) by (apply Hin; sets).
    assert (Hin' : forall y, y ∈ rest -> successor adj node y)
      by (intros; apply Hin; sets).
    destruct (decide (neighbor ∈ visited st)) as [Hv|Hv].
    + destruct (decide (neighbor ∈ recursionStack st)) as [Hs|Hs].
      * intros [= <- <-]. exists neighbor.
        eapply tc_rtc_l; [apply Hchain, Hs|apply tc_once, Hedge].
      * apply IH; try assumption. intros y Hy.
        destruct (Hout y Hy) as [H|H]; [|auto].
        apply elem_of_cons in H as [->|H]; auto.
    + destruct (recurse neighbor st) as [[[|] s1]|] eqn:Er; [| |discriminate].
      * intros [= <- <-].
        apply (Hrec _ _ _ _ Er).
        split; [exact Hv|]. split; [exact Hsub|]. split; [|split; assumption].
        intros x Hx. eapply rtc_r; [apply Hchain, Hx|exact Hedge].
      * intros Hloop.
        destruct (Hrec _ _ _ _ Er) as (HS & HV & Hnv & Hcl1 & Hac1).
        { split; [exact Hv|]. split; [exact Hsub|]. split; [|split; assumption].
          intros x Hx. eapply rtc_r; [apply Hchain, Hx|exact Hedge]. }
        specialize (IH s1 b st'). rewrite HS in IH.
        assert (Hres : if b then exists c, tc (successor adj) c c
                       else recursionStack st' = recursionStack st ∖ {[node]}
                            /\ visited s1 ⊆ visited st' /\ closed st' /\ acyclic st').
        { apply IH; try assumption.
          - clear -Hsub HV. set_solver.
          - rewrite <- HS. exact Hcl1.
          - rewrite <- HS. exact Hac1.
          - intros y Hy. destruct (Hout y Hy) as [H|[H1 H2]].
            + apply elem_of_cons in H as [->|H]; [|auto].
              right. split; [exact Hnv|]. clear -Hv Hsub. set_solver.
            + right. split; [|exact H2]. clear -H1 HV. set_solver. }
        destruct b; [exact Hres|].
        destruct Hres as (H1 & H2 & H3 & H4).
        split; [exact H1|]. split; [clear -HV H2; set_solver|].
        split; assumption.
Qed.

Lemma dfs_correct (fuel : nat) (node : string) (st : DfsState) (b : bool)
    (st' : DfsState) :
  dfs fuel adj node st = Some (b, st') -> pre node st -> post node st b st'.
Proof.
  revert node st b st'. induction fuel as [|fuel IH]; intros node st b st';
    [discriminate|].
  simpl. intros Hrun (Hnv & Hsub & Hchain & Hcl & Hac).
  set (st0 := {| visited := {[node]} ∪ visited st;
                 recursionStack := {[node]} ∪ recursionStack st;
                 path := path st ++ [node] |}) in *.
  assert (H : if b then exists c, tc (successor adj) c c
              else recursionStack st' = recursionStack st0 ∖ {[node]}
                   /\ (visited st0 ⊆ visited st') /\ closed st' /\ acyclic st').
  { apply (visitNeighbors_correct (dfs fuel adj) node
             (default [] (adj !! node)) IH st0 b st'); simpl.
    - sets.
    - sets.
    - intros x Hx. apply elem_of_union in Hx as [Hx|Hx].
      + apply elem_of_singleton in Hx. subst. constructor.
      + apply Hchain, Hx.
    - intros x y [Hx Hxs] Hxy.
      assert (finished st x) as Hfx by (split; sets).
      destruct (Hcl x y Hfx Hxy) as [Hy Hys]. split; [sets|].
      intros Hy'. apply elem_of_union in Hy' as [Hy'|Hy']; [|tauto].
      apply elem_of_singleton in Hy'. subst. tauto.
    - intros x [Hx Hxs]. apply Hac. split; sets.
    - intros y Hy. exact Hy.
    - intros y Hy. left. exact Hy.
    - exact Hrun. }
  destruct b; [exact H|]. simpl in H. destruct H as (HS & HV & Hcl' & Hac').
  split; [rewrite HS; sets|]. split; [sets|].
  split; [sets|]. split; assumption.
Qed.

Lemma detectCycleFrom_correct (fuel : nat) (ns : list string) (st : DfsState)
    (b : bool) (p : list string) :
  detectCycleFrom fuel adj ns st = Some (b, p) ->
  recursionStack st = ∅ -> closed st -> acyclic st ->
  if b then exists c, tc (successor adj) c c
  else forall x, In x ns \/ x ∈ visited st -> ~ tc (successor adj) x x.
Proof.
  revert st. induction ns as [|node rest IH]; intros st; simpl.
  - intros [= <- <-] HS Hcl Hac x [[]|Hx]. apply Hac. split; [exact Hx|].
    rewrite HS. sets.
  - destruct (decide (node ∈ visited st)) as [Hv|Hv].
    + intros Hrun HS Hcl Hac. specialize (IH st Hrun HS Hcl Hac).
      destruct b; [exact IH|]. intros x [[<-|Hx]|Hx]; apply IH; auto.
    + destruct (dfs fuel adj node st) as [[[|] s1]|] eqn:Ed; [| |discriminate].
      * intros [= <- <-] HS Hcl Hac.
        apply (dfs_correct _ _ _ _ _ Ed).
        split; [exact Hv|]. split; [rewrite HS; sets|].
        split; [|split; assumption].
        intros x Hx. rewrite HS in Hx. sets.
      * intros Hrun HS Hcl Hac.
        destruct (dfs_correct _ _ _ _ _ Ed) as (HS1 & HV & Hnv & Hcl1 & Hac1).
        { split; [exact Hv|]. split; [rewrite HS; sets|].
          split; [|split; assumption].
          intros x Hx. rewrite HS in Hx. sets. }
        assert (HS1' : recursionStack s1 = ∅) by (rewrite HS1; exact HS).
        specialize (IH s1 Hrun HS1' Hcl1 Hac1).
        destruct b; [exact IH|].
        intros x [[<-|Hx]|Hx]; apply IH;
          [right; exact Hnv|left; exact Hx|right; sets].
Qed.

End DfsCorrect.

Section DetectCycleCorrect.
Import ConflictAnalyzer GraphSpec.

(** ** The adjacency lists *)

Lemma fold_empty_lookup (ns : list string) (m : gmap string (list string))
    (a : string) :
  fold_left (fun adj n => <[n := []]> adj) ns m !! a
  = if decide (a ∈ ns) then Some [] else m !! a.
Proof.
  revert m. induction ns as [|x l IH]; intros m; simpl.
  - destruct (decide (a ∈ [])) as [H|_]; [inversion H|reflexivity].
  - rewrite IH. destruct (decide (a ∈ l)) as [Hl|Hl].
    + destruct (decide (a ∈ x :: l)); [reflexivity|set_solver].
    + destruct (decide (x = a)) as [->|Hne].
      * rewrite lookup_insert_eq.
        destruct (decide (a ∈ a :: l)); [reflexivity|set_solver].
      * rewrite lookup_insert_ne by exact Hne.
        destruct (decide (a ∈ x :: l)); [set_solver|reflexivity].
Qed.

Lemma fold_pushTarget_lookup (es : list GraphEdge) (adj : gmap string (list string))
    (a : string) :
  fold_left pushTarget es adj !! a
  = match adj !! a with
    | Some ts =>
        Some (ts ++ map target (List.filter (fun e => String.eqb (source e) a) es))
    | None => None
    end.
Proof.
  revert adj. induction es as [|e es IH]; intros adj; simpl.
  - destruct (adj !! a); [rewrite app_nil_r|]; reflexivity.
  - rewrite IH. unfold pushTarget.
    destruct (String.eqb_spec (source e) a) as [E|Hne].
    + rewrite E. destruct (adj !! a) as [ts|] eqn:Ea.
      * rewrite lookup_insert_eq. simpl. rewrite <- app_assoc. reflexivity.
      * rewrite Ea. reflexivity.
    + destruct (adj !! source e) as [ts|]; [|reflexivity].
      rewrite lookup_insert_ne by exact Hne. reflexivity.
Qed.

(** The adjacency lists hold exactly the edges whose source is a node. *)
Lemma successor_adjacency (ns : list string) (es : list GraphEdge) (a b : string) :
  successor (adjacency ns es) a b <-> arc ns es a b.
Proof.
  unfold successor, arc, adjacency.
  rewrite fold_pushTarget_lookup, fold_empty_lookup.
  destruct (decide (a ∈ ns)) as [Ha|Ha]; simpl.
  - apply list_elem_of_In in Ha. rewrite list_elem_of_In, in_map_iff. split.
    + intros (e & Et & He). apply List.filter_In in He as [He Es].
      apply String.eqb_eq in Es. eauto 6.
    + intros (_ & e & He & Es & Et). exists e. split; [exact Et|].
      apply List.filter_In. split; [exact He|]. apply String.eqb_eq, Es.
  - rewrite lookup_empty. simpl. split; [intros H; inversion H|].
    intros [H _]. apply list_elem_of_In in H. tauto.
Qed.

Lemma tc_iff {X} (R R' : X -> X -> Prop) (x y : X) :
  (forall a b, R a b -> R' a b) -> tc R x y -> tc R' x y.
Proof.
  intros H. induction 1 as [x y Hxy|x y z Hxy _ IH].
  - apply tc_once, H, Hxy.
  - eapply tc_l; [apply H, Hxy|exact IH].
Qed.

Lemma tc_arc_source (ns : list string) (es : list GraphEdge) (x y : string) :
  tc (arc ns es) x y -> In x ns.
Proof. intros H. destruct H as [x y [Hx _]|x y z [Hx _] _]; exact Hx. Qed.

(** [detectCycle] answers true exactly when the graph has a cycle. *)
Lemma detectCycle_correct (ns : list string) (es : list GraphEdge)
    (hasCycle : bool) (cyclePath : list string) :
  detectCycle ns es = Some (hasCycle, cyclePath) ->
  hasCycle = true <-> cyclic ns es.
Proof.
  unfold detectCycle. intros Hrun.
  apply detectCycleFrom_correct in Hrun; simpl.
  - destruct hasCycle.
    + split; [intros _|reflexivity]. destruct Hrun as [c Hc]. exists c.
      apply (tc_iff _ _ _ _ (fun a b => proj1 (successor_adjacency ns es a b)) Hc).
    + split; [discriminate|]. intros [n Hn]. exfalso.
      apply (Hrun n); [left; exact (tc_arc_source _ _ _ _ Hn)|].
      apply (tc_iff _ _ _ _ (fun a b => proj2 (successor_adjacency ns es a b)) Hn).
  - reflexivity.
  - intros x y [Hx _]. set_solver.
  - intros x [Hx _]. set_solver.
Qed.

End DetectCycleCorrect.

Section UniqueEdges.
Import ConflictAnalyzer GraphSpec.

(** The key, source and target of an entry of [uniqueEdgesMap]. *)
Local Abbreviation entry :=
  (fun ke : string * GraphEdge => (fst ke, source (snd ke), target (snd ke))).
Local Abbreviation keyOf :=
  (fun kst : string * string * string => fst (fst kst)).

Lemma mergeEdge_entries (edge : GraphEdge) (m : list (string * GraphEdge)) :
  map entry (mergeEdge edge m)
  = map entry m
    ++ (if existsb (String.eqb (edgeKey (source edge) (target edge))) (map fst m)
        then []
        else [(edgeKey (source edge) (target edge), source edge, target edge)]).
Proof.
  induction m as [|[k e] m IH]; simpl; [reflexivity|].
  rewrite (String.eqb_sym _ k).
  destruct (k =? edgeKey (source edge) (target edge))%string; simpl.
  - rewrite app_nil_r. reflexivity.
  - rewrite IH. reflexivity.
Qed.

Lemma existsb_string_In (x : string) (l : list string) :
  existsb (String.eqb x) l = true <-> In x l.
Proof.
  rewrite existsb_exists. split.
  - intros (y & Hy & E). apply String.eqb_eq in E. subst. exact Hy.
  - intros H. exists x. split; [exact H|apply String.eqb_refl].
Qed.

(** The entries of [uniqueEdgesMap] after the loop over the edges. *)
Lemma uniqueEdgesMap_spec (es : list GraphEdge) :
  let m := map entry (fold_left (fun m e => mergeEdge e m) es []) in
  List.NoDup (map keyOf m)
  /\ (forall k s t, In (k, s, t) m ->
        k = edgeKey s t /\ exists e, In e es /\ source e = s /\ target e = t)
  /\ (forall e, In e es -> In (edgeKey (source e) (target e)) (map keyOf m)).
Proof.
  induction es as [|e es IH] using rev_ind; simpl.
  - split; [constructor|]. split; [intros k s t []|intros e []].
  - rewrite fold_left_app. simpl. rewrite mergeEdge_entries.
    set (m0 := fold_left (fun m e => mergeEdge e m) es []) in *.
    simpl in IH. destruct IH as (Hnd & Hin & Hall).
    assert (Hkeys : map fst m0 = map keyOf (map entry m0)).
    { rewrite map_map. reflexivity. }
    rewrite Hkeys.
    destruct (existsb _ _) eqn:Ex.
    + rewrite app_nil_r. apply existsb_string_In in Ex.
      split; [exact Hnd|]. split.
      * intros k s t H. destruct (Hin k s t H) as (-> & e' & He' & Hs & Ht).
        split; [reflexivity|]. exists e'. rewrite in_app_iff. auto.
      * intros e' [He'|[<-|[]]]%in_app_iff; [apply Hall, He'|exact Ex].
    + assert (Hn : ~ In (edgeKey (source e) (target e)) (map keyOf (map entry m0))).
      { intros H. apply existsb_string_In in H. congruence. }
      rewrite List.map_app. simpl map at 2. split.
      * apply NoDup_ListNoDup, NoDup_app.
        split; [apply NoDup_ListNoDup, Hnd|].
        split; [|apply NoDup_singleton].
        intros x Hx Hx'. apply list_elem_of_In in Hx.
        apply list_elem_of_singleton in Hx'. subst x. exact (Hn Hx).
      * split.
        -- intros k s t [H|[[= <- <- <-]|[]]]%in_app_iff.
           ++ destruct (Hin k s t H) as (-> & e' & He' & Hs & Ht).
              split; [reflexivity|]. exists e'. rewrite in_app_iff. auto.
           ++ split; [reflexivity|]. exists e. rewrite in_app_iff. simpl. auto.
        -- intros e' [He'|[<-|[]]]%in_app_iff; rewrite in_app_iff;
             [left; apply Hall, He'|right; left; reflexivity].
Qed.

(** Keys tell ordered pairs apart when the sources have no dash. *)
Lemma edgeKey_inj (s t s' t' : string) :
  dashFree s = true -> dashFree s' = true ->
  edgeKey s t = edgeKey s' t' -> s = s' /\ t = t'.
Proof.
  unfold edgeKey. revert s'. induction s as [|c s IH]; intros [|c' s']; simpl.
  - intros _ _ E. injection E as E. auto.
  - intros _ [Hc _]%andb_true_iff E. injection E as E _. subst c'. discriminate.
  - intros [Hc _]%andb_true_iff _ E. injection E as E _. subst c. discriminate.
  - intros [_ Hs]%andb_true_iff [_ Hs']%andb_true_iff E. injection E as -> E.
    destruct (IH s' Hs Hs' E) as [-> ->]. auto.
Qed.

(** The edges of the graph, by source and target. *)
Lemma uniqueEdges_spec (es : list GraphEdge) :
  let pairs := map (fun e => (source e, target e)) (uniqueEdges es) in
  List.NoDup pairs
  /\ (forall s t, In (s, t) pairs ->
        exists e, In e es /\ source e = s /\ target e = t)
  /\ (forall e, In e es -> dashFree (source e) = true ->
        (forall e', In e' es -> dashFree (source e') = true) ->
        In (source e, target e) pairs).
Proof.
  destruct (uniqueEdgesMap_spec es) as (Hnd & Hin & Hall). simpl in *.
  set (m0 := fold_left (fun m e => mergeEdge e m) es []) in *.
  assert (Hpairs : map (fun e => (source e, target e)) (uniqueEdges es)
                   = map (fun kst : string * string * string =>
                            (snd (fst kst), snd kst)) (map entry m0)).
  { unfold uniqueEdges. fold m0. rewrite !map_map. reflexivity. }
  rewrite Hpairs. split; [|split].
  - apply (NoDup_map_determined _ keyOf); [|exact Hnd].
    intros [[k s] t] [[k' s'] t'] Ha Hb. simpl. intros [= -> ->].
    destruct (Hin _ _ _ Ha) as [-> _]. destruct (Hin _ _ _ Hb) as [-> _].
    reflexivity.
  - intros s t H. apply in_map_iff in H as ([[k s'] t'] & [= -> ->] & H).
    apply (Hin _ _ _ H).
  - intros e He Hd Hds. specialize (Hall e He).
    apply in_map_iff in Hall as ([[k s] t] & Hk & H). simpl in Hk. subst k.
    destruct (Hin _ _ _ H) as (Hk & e' & He' & Hs & Ht).
    assert (Hd' : dashFree s = true) by (rewrite <- Hs; apply Hds, He').
    destruct (edgeKey_inj _ _ _ _ Hd Hd' Hk) as [E1 E2].
    apply in_map_iff. exists (edgeKey (source e) (target e), s, t).
    split; [simpl; congruence|exact H].
Qed.

End UniqueEdges.

Section PrecedenceGraph.
Import ConflictAnalyzer GraphSpec.

Local Abbreviation ends := (fun e : GraphEdge => (source e, target e)).

Lemma arc_ends (ns : list string) (es es' : list GraphEdge) (a b : string) :
  map ends es = map ends es' -> arc ns es a b -> arc ns es' a b.
Proof.
  intros E [Ha (e & He & Hs & Ht)]. split; [exact Ha|].
  assert (Hin : In (a, b) (map ends es')).
  { rewrite <- E. apply in_map_iff. exists e. subst. auto. }
  apply in_map_iff in Hin as (e' & [= Hs' Ht'] & He'). eauto.
Qed.

Lemma precedes_edgeOfConflict (cs : list Conflict) (a b : string) :
  precedes cs a b
  <-> exists e, In e (map edgeOfConflict cs) /\ source e = a /\ target e = b.
Proof.
  unfold precedes. split.
  - intros (c & Hc & Ha & Hb). exists (edgeOfConflict c).
    split; [apply in_map, Hc|auto].
  - intros (e & He & Ha & Hb). apply in_map_iff in He as (c & <- & Hc).
    exists c. auto.
Qed.

(** What [buildPrecedenceGraph] returns, in terms of the conflicts. *)
Lemma buildPrecedenceGraph_spec (transactionIds : list string)
    (conflicts : list Conflict) :
  exists g hasCycle cyclePath,
    buildPrecedenceGraph transactionIds conflicts = Some g
    /\ detectCycle transactionIds (uniqueEdges (map edgeOfConflict conflicts))
       = Some (hasCycle, cyclePath)
    /\ isSerializable g = negb hasCycle
    /\ map node_id (nodes g) = transactionIds
    /\ map ends (edges g)
       = map ends (uniqueEdges (map edgeOfConflict conflicts))
    /\ cycleEdges g
       = List.filter (fun e => bool_decide (isCycleEdge e = Some true)) (edges g)
    /\ (hasCycle = false -> cycleEdges g = []).
Proof.
  unfold buildPrecedenceGraph.
  destruct (detectCycle_total transactionIds
              (uniqueEdges (map edgeOfConflict conflicts)))
    as (hasCycle & cyclePath & ->).
  eexists _, hasCycle, cyclePath. split; [reflexivity|]. simpl.
  split; [reflexivity|]. split; [reflexivity|].
  split; [rewrite map_map; simpl; apply map_id|].
  split; [rewrite map_map; reflexivity|]. split; [reflexivity|].
  intros ->. simpl.
  induction (uniqueEdges (map edgeOfConflict conflicts)) as [|e l IH];
    [reflexivity|exact IH].
Qed.

Lemma graph_cycle_spec (transactionIds : list string) (conflicts : list Conflict) :
  exists g,
    buildPrecedenceGraph transactionIds conflicts = Some g
    /\ (isSerializable g = false <-> cyclic transactionIds (edges g)).
Proof.
  destruct (buildPrecedenceGraph_spec transactionIds conflicts)
    as (g & hasCycle & cyclePath & Hg & Hd & Hs & _ & He & _).
  exists g. split; [exact Hg|]. rewrite Hs, negb_false_iff.
  rewrite (detectCycle_correct _ _ _ _ Hd). unfold cyclic.
  split; intros [n Hn]; exists n; revert Hn; apply tc_iff; intros a b;
    apply arc_ends; [symmetry; exact He|exact He].
Qed.

Lemma graph_edges_spec (transactionIds : list string) (conflicts : list Conflict) :
  exists g,
    buildPrecedenceGraph transactionIds conflicts = Some g
    /\ List.NoDup (map ends (edges g))
    /\ (forall e, In e (edges g) -> precedes conflicts (source e) (target e))
    /\ ((forall c, In c conflicts -> dashFree (transactionId (op1 c)) = true) ->
        forall a b, precedes conflicts a b ->
                    exists e, In e (edges g) /\ source e = a /\ target e = b).
Proof.
  destruct (buildPrecedenceGraph_spec transactionIds conflicts)
    as (g & hasCycle & cyclePath & Hg & _ & _ & _ & He & _).
  destruct (uniqueEdges_spec (map edgeOfConflict conflicts)) as (Hnd & Hin & Hall).
  simpl in *. rewrite <- He in *.
  exists g. split; [exact Hg|]. split; [exact Hnd|]. split.
  - intros e Hein. apply precedes_edgeOfConflict, Hin.
    apply (in_map ends _ _ Hein).
  - intros Hdash a b (c & Hc & <- & <-).
    assert (Hp : In (ends (edgeOfConflict c)) (map ends (edges g))).
    { apply Hall; [apply in_map, Hc|apply Hdash, Hc|].
      intros e' (c' & <- & Hc')%in_map_iff. apply Hdash, Hc'. }
    apply in_map_iff in Hp as (e & [= Hs Ht] & Hein). eauto.
Qed.

End PrecedenceGraph.

(** X10. buildPrecedenceGraph always returns a graph; its nodes are the given
    transaction identifiers, and it reports the schedule as not serializable
    exactly when the edges of the graph whose source is a node contain a
    directed cycle. A graph reported serializable has no cycle edge, and every
    cycle edge is an edge of the graph that is flagged. *)
Theorem buildPrecedenceGraph_cycle_iff (transactionIds : list string)
    (conflicts : list Conflict) :
  exists g,
    ConflictAnalyzer.buildPrecedenceGraph transactionIds conflicts = Some g
    /\ map node_id (nodes g) = transactionIds
    /\ (isSerializable g = false <-> GraphSpec.cyclic transactionIds (edges g))
    /\ (isSerializable g = true -> cycleEdges g = [])
    /\ (forall e, In e (cycleEdges g) ->
                  In e (edges g) /\ isCycleEdge e = Some true).
Proof.
  destruct (buildPrecedenceGraph_spec transactionIds conflicts)
    as (g & hasCycle & cyclePath & Hg & Hd & Hs & Hn & He & Hc & Hno).
  destruct (graph_cycle_spec transactionIds conflicts) as (g' & Hg' & Hiff).
  assert (g' = g) by congruence. subst g'.
  exists g. split; [exact Hg|]. split; [exact Hn|]. split; [exact Hiff|]. split.
  - intros Ht. apply Hno. rewrite Hs in Ht. destruct hasCycle; [discriminate|reflexivity].
  - intros e Hin. rewrite Hc in Hin. apply List.filter_In in Hin as [Hin Hb].
    split; [exact Hin|]. apply bool_decide_eq_true in Hb. exact Hb.
Qed.

(** X11. The graph has at most one edge for an ordered pair of transactions,
    and every edge comes from a conflict between its source and its target;
    when no transaction identifier of a conflict contains a dash, every such
    conflict has its edge. *)
Theorem buildPrecedenceGraph_edges (transactionIds : list string)
    (conflicts : list Conflict) :
  exists g,
    ConflictAnalyzer.buildPrecedenceGraph transactionIds conflicts = Some g
    /\ List.NoDup (map (fun e => (source e, target e)) (edges g))
    /\ (forall e, In e (edges g) ->
                  GraphSpec.precedes conflicts (source e) (target e))
    /\ ((forall c, In c conflicts ->
                   GraphSpec.dashFree (transactionId (op1 c)) = true) ->
        forall a b, GraphSpec.precedes conflicts a b ->
                    exists e, In e (edges g) /\ source e = a /\ target e = b).
Proof. apply graph_edges_spec. Qed.

Section PageGraph.
Import JS Parser ConflictAnalyzer GraphSpec ParserSpec.

Lemma allDigits_dashFree (num : string) : allDigits num = true -> dashFree num = true.
Proof.
  induction num as [|c s IH]; simpl; [reflexivity|].
  intros [Hc Hs]%andb_true_iff. rewrite (IH Hs), andb_true_r.
  destruct c as [[] [] [] [] [] [] [] []]; try discriminate Hc; reflexivity.
Qed.

Lemma parseSchedule_dashFree (s : string) (op : Operation) :
  In op (parseSchedule s) -> dashFree (transactionId op) = true.
Proof.
  rewrite parseSchedule_normalizedTokens. intros H.
  destruct (parseTokens_fields _ _ _ H) as (num & -> & _ & Hd & _).
  rewrite string_app_cons, string_app_nil_l. simpl.
  apply allDigits_dashFree, Hd.
Qed.

Lemma conflict_operations (ops : list Operation) (c : Conflict) :
  In c (detectConflicts ops) -> In (op1 c) ops /\ In (op2 c) ops.
Proof.
  intros (i & j & o1 & o2 & Hi & Hj & _ & Hc)%in_detectConflicts.
  apply conflictOfPair_Some in Hc as (-> & -> & _).
  split; eapply nth_error_In; eassumption.
Qed.

Lemma getUniqueTransactionIds_In (ops : list Operation) (k : string) :
  In k (getUniqueTransactionIds ops) <-> In k (map transactionId ops).
Proof.
  unfold getUniqueTransactionIds. rewrite sortStrings_In, dedup_In. simpl. tauto.
Qed.

Lemma precedes_nil (a b : string) : ~ precedes [] a b.
Proof. intros (c & [] & _). Qed.

Lemma no_cycle_without_conflicts (t : string) : ~ tc (precedes []) t t.
Proof.
  intros H. destruct H as [x y H|x y z H _]; exact (precedes_nil _ _ H).
Qed.

End PageGraph.

(** X12. The analysis run of the page always produces a graph, and it reports
    the schedule as not conflict-serializable exactly when the conflicts of
    the parsed schedule, read as "an operation of one transaction conflicts
    with a later operation of another", form a directed cycle among the
    transactions. *)
Theorem graphData_serializable (schedule : string) :
  exists g,
    Page.graphData schedule = Some g
    /\ (isSerializable g = false
        <-> exists t,
              tc (GraphSpec.precedes
                    (ConflictAnalyzer.detectConflicts
                       (Parser.parseSchedule schedule))) t t).
Proof.
  unfold Page.graphData.
  destruct (JS.nonEmpty (JS.trim schedule)) eqn:Etrim; cbv beta iota zeta delta [negb].
  2:{ exists Page.emptyGraph. split; [reflexivity|].
      unfold Parser.parseSchedule. rewrite Etrim.
      change (ConflictAnalyzer.detectConflicts []) with (@nil Conflict).
      split; [discriminate|]. intros [t Ht].
      destruct (no_cycle_without_conflicts t Ht). }
  set (ops := Parser.parseSchedule schedule).
  destruct (Parser.getUniqueTransactionIds ops) as [|i ids] eqn:Eids.
  - exists Page.emptyGraph. split; [reflexivity|].
    assert (Hops : ops = []).
    { destruct ops as [|o l] eqn:E; [reflexivity|]. exfalso.
      assert (H : In (transactionId o) (Parser.getUniqueTransactionIds (o :: l))).
      { apply getUniqueTransactionIds_In. left. reflexivity. }
      rewrite Eids in H. exact H. }
    rewrite Hops. change (ConflictAnalyzer.detectConflicts []) with (@nil Conflict).
    split; [discriminate|]. intros [t Ht].
    destruct (no_cycle_without_conflicts t Ht).
  - change (0 <? length (i :: ids))%nat with true. cbv iota. rewrite <- Eids.
    destruct (graph_cycle_spec (Parser.getUniqueTransactionIds ops)
                (ConflictAnalyzer.detectConflicts ops)) as (g & Hg & Hiff).
    destruct (graph_edges_spec (Parser.getUniqueTransactionIds ops)
                (ConflictAnalyzer.detectConflicts ops))
      as (g' & Hg' & _ & Hedge & Hconf).
    assert (g' = g) by congruence. subst g'.
    exists g. split; [exact Hg|]. rewrite Hiff. unfold GraphSpec.cyclic.
    assert (Hdash : forall c, In c (ConflictAnalyzer.detectConflicts ops) ->
                              GraphSpec.dashFree (transactionId (op1 c)) = true).
    { intros c Hc. apply (parseSchedule_dashFree schedule).
      apply (conflict_operations ops c Hc). }
    split; intros [t Ht]; exists t; revert Ht; apply tc_iff; intros a b.
    + intros [_ (e & He & <- & <-)]. apply Hedge, He.
    + intros Hp. split; [|apply (Hconf Hdash _ _ Hp)].
      destruct Hp as (c & Hc & <- & _).
      apply getUniqueTransactionIds_In, in_map.
      apply (conflict_operations ops c Hc).
Qed.

(* ===================================================================== *)
(** * The report of the two-phase-locking analysis *)
(* ===================================================================== *)

Section Report.
Import TwoPL.

(** The entries of a map filled by a loop over keys. *)
Lemma fold_insert_lookup {V} (f : string -> V) (keys : list string)
    (m : gmap string V) (k : string) :
  fold_left (fun m x => <[x := f x]> m) keys m !! k
  = if decide (k ∈ keys) then Some (f k) else m !! k.
Proof.
  revert m. induction keys as [|x keys IH]; intros m; simpl.
  - destruct (decide (k ∈ [])) as [H|_]; [inversion H|reflexivity].
  - rewrite IH. destruct (decide (k ∈ keys)) as [Hk|Hk].
    + destruct (decide (k ∈ x :: keys)) as [_|Hn]; [reflexivity|].
      exfalso. apply Hn. right. exact Hk.
    + destruct (decide (x = k)) as [->|Hne].
      * rewrite lookup_insert_eq.
        destruct (decide (k ∈ k :: keys)) as [_|Hn]; [reflexivity|].
        exfalso. apply Hn. left.
      * rewrite lookup_insert_ne by exact Hne.
        destruct (decide (k ∈ x :: keys)) as [Hin|_]; [|reflexivity].
        apply elem_of_cons in Hin as [->|Hin]; [congruence|contradiction].
Qed.

(** The levels that [complianceOf] reports are nested. *)
Lemma complianceOf_levels (allOperations : list Operation)
    (opsByTx : gmap string (list Operation)) (txId : string) :
  let c := complianceOf allOperations opsByTx txId in
  (rigorous2PL c = true -> strict2PL c = true)
  /\ (strict2PL c = true -> basic2PL c = true)
  /\ conservative2PL c = basic2PL c.
Proof.
  unfold complianceOf.
  destruct (default [] (opsByTx !! txId)) as [|o txOps]; [simpl; auto|].
  destruct (analyzeBasic2PL txId allOperations (o :: txOps) []) as [basic ev1].
  unfold analyzeStrict2PL. destruct basic.
  - cbv beta iota delta [negb].
    match goal with
    | |- context [let '(strict, ev2) := ?X in _] => destruct X as [strict ev2]
    end.
    unfold analyzeRigorous2PL. destruct strict.
    + cbv beta iota delta [negb].
      match goal with
      | |- context [let '(rigorous, ev3) := ?X in _] =>
          destruct X as [rigorous ev3]
      end.
      simpl. auto.
    + simpl. split; [discriminate|]. auto.
  - simpl. split; [discriminate|]. split; [discriminate|reflexivity].
Qed.

End Report.

(** X14. The report of analyzeScheduleFor2PL has an entry for exactly the
    given transactions; in every entry rigorous 2PL implies strict 2PL, strict
    2PL implies basic 2PL and conservative 2PL is the same as basic 2PL; and
    allowsCascadingAborts is the negation of isCascadeless. *)
Theorem analyzeScheduleFor2PL_report (allOperations : list Operation)
    (transactions : list Transaction) :
  let report := TwoPL.analyzeScheduleFor2PL allOperations transactions in
  (forall txId,
     is_Some (transactionCompliance report !! txId)
     <-> In txId (map tx_id transactions))
  /\ (forall txId c,
        transactionCompliance report !! txId = Some c ->
        (rigorous2PL c = true -> strict2PL c = true)
        /\ (strict2PL c = true -> basic2PL c = true)
        /\ conservative2PL c = basic2PL c)
  /\ allowsCascadingAborts report = negb (isCascadeless report).
Proof.
  unfold TwoPL.analyzeScheduleFor2PL.
  destruct allOperations as [|o ops]; cbv zeta.
  - split; [|split; [|reflexivity]].
    + intros txId. simpl.
      rewrite (fold_insert_lookup (fun _ => TwoPL.noOpsCompliance)).
      rewrite <- list_elem_of_In.
      destruct (decide (txId ∈ map tx_id transactions)) as [H|H].
      * split; [intros _; exact H|intros _; eexists; reflexivity].
      * rewrite lookup_empty. split; [intros [x Hx]; discriminate|contradiction].
    + intros txId c. simpl.
      rewrite (fold_insert_lookup (fun _ => TwoPL.noOpsCompliance)).
      destruct (decide (txId ∈ map tx_id transactions)) as [H|H].
      * intros [= <-]. simpl. auto.
      * rewrite lookup_empty. discriminate.
  - split; [|split; [|reflexivity]].
    + intros txId. simpl.
      rewrite (fold_insert_lookup
                 (TwoPL.complianceOf (o :: ops)
                    (TwoPL.getOperationsByTransactionMap (o :: ops)))).
      rewrite <- list_elem_of_In.
      destruct (decide (txId ∈ map tx_id transactions)) as [H|H].
      * split; [intros _; exact H|intros _; eexists; reflexivity].
      * rewrite lookup_empty. split; [intros [x Hx]; discriminate|contradiction].
    + intros txId c. simpl.
      rewrite (fold_insert_lookup
                 (TwoPL.complianceOf (o :: ops)
                    (TwoPL.getOperationsByTransactionMap (o :: ops)))).
      destruct (decide (txId ∈ map tx_id transactions)) as [H|H].
      * intros [= <-]. apply complianceOf_levels.
      * rewrite lookup_empty. discriminate.
Qed.

(* ===================================================================== *)
(** * The history of a simulation *)
(* ===================================================================== *)

Section SimulationHistory.
Import LM LockSpec.

(** [nextStep] leaves the index where it is or moves it to the next
    operation of the schedule. *)
Lemma nextStep_index (m : LockManager) :
  currentStepIndex (nextStep m) = currentStepIndex m
  \/ (currentStepIndex (nextStep m) = currentStepIndex m + 1
      /\ currentStepIndex m < Z.of_nat (length (operations m)) - 1)%Z.
Proof.
  unfold nextStep.
  pose proof (processWaitingQueue_frame (setLog [] m)) as Hf1.
  destruct (processWaitingQueue (setLog [] m)) as [processed m1]. simpl in Hf1.
  apply frame_eq in Hf1 as (Ho1 & Hi1 & Hh1). simpl in Ho1, Hi1, Hh1.
  destruct processed.
  - destruct (detectDeadlock_state m1) as (Hl & Hs & Hq & Hf).
    destruct (detectDeadlock m1) as [isDeadlock m2]. simpl in *.
    apply frame_eq in Hf as (Ho2 & Hi2 & Hh2). left. simpl. congruence.
  - match goal with |- context [detectDeadlock ?m2] => set (mid := m2) end.
    assert (Hmid : currentStepIndex mid = currentStepIndex m
                   \/ (currentStepIndex mid = currentStepIndex m + 1
                       /\ currentStepIndex m
                          < Z.of_nat (length (operations m)) - 1)%Z).
    { subst mid. destruct (_ <? _)%Z eqn:Hlt.
      - right. apply Z.ltb_lt in Hlt. rewrite Ho1, Hi1 in Hlt.
        split; [|exact Hlt].
        destruct (currentOperation _) as [operation|] eqn:Eop.
        + destruct (_ || _); [simpl; congruence|].
          pose proof (processOperation_frame operation
                        (setCurrentStepIndex (currentStepIndex m1 + 1) m1)) as Hp.
          apply frame_eq in Hp as (Ho & Hi & Hh). simpl in Ho, Hi, Hh.
          congruence.
        + simpl. congruence.
      - left. destruct (0 <? _)%nat.
        + pose proof (processWaitingQueue_frame m1) as Hp.
          destruct (processWaitingQueue m1) as [p m']. simpl in Hp.
          apply frame_eq in Hp as (Ho & Hi & Hh).
          destruct (negb p); simpl; congruence.
        + simpl. congruence. }
    clearbody mid.
    destruct (detectDeadlock_state mid) as (Hl & Hs & Hq & Hf).
    destruct (detectDeadlock mid) as [isDeadlock m3]. simpl in *.
    apply frame_eq in Hf as (Ho3 & Hi3 & Hh3).
    assert (Hi : currentStepIndex
                   (if isDeadlock then pushLog "DEADLOCK DETECTED!" m3 else m3)
                 = currentStepIndex mid).
    { destruct isDeadlock; simpl; congruence. }
    simpl. rewrite Hi. exact Hmid.
Qed.

Lemma steps_succ (n : nat) (m : LockManager) :
  steps (S n) m = nextStep (steps n m).
Proof.
  revert m. induction n as [|n IH]; intros m; [reflexivity|].
  change (steps (S (S n)) m) with (steps (S n) (nextStep m)).
  rewrite IH. reflexivity.
Qed.

Lemma steps_operations (n : nat) (m : LockManager) :
  operations (steps n m) = operations m.
Proof.
  induction n as [|n IH]; [reflexivity|]. rewrite steps_succ.
  destruct (nextStep_snapshot (steps n m)) as (_ & _ & Ho & _). congruence.
Qed.

Lemma steps_history_length (n : nat) (m : LockManager) :
  length (history (steps n m)) = (length (history m) + n)%nat.
Proof.
  induction n as [|n IH]; [simpl; lia|]. rewrite steps_succ.
  destruct (nextStep_snapshot (steps n m)) as (snapshot & -> & _).
  rewrite length_app, IH. simpl. lia.
Qed.

(** Earlier snapshots are never rewritten. *)
Lemma steps_history_prefix (k n : nat) (m : LockManager) :
  (k <= n)%nat ->
  exists later, history (steps n m) = history (steps k m) ++ later.
Proof.
  induction 1 as [|n Hle IH]; [exists []; rewrite app_nil_r; reflexivity|].
  destruct IH as [later IH]. rewrite steps_succ.
  destruct (nextStep_snapshot (steps n m)) as (snapshot & -> & _).
  exists (later ++ [snapshot]). rewrite IH, app_assoc. reflexivity.
Qed.

Lemma steps_index_bounds (n : nat) (ops : list Operation) :
  (-1 <= currentStepIndex (steps n (new ops)) <= Z.of_nat (length ops) - 1)%Z
  /\ (currentStepIndex (steps n (new ops)) < Z.of_nat n)%Z.
Proof.
  induction n as [|n IH]; [simpl; lia|]. rewrite steps_succ.
  pose proof (steps_operations n (new ops)) as Ho. simpl in Ho.
  destruct (nextStep_index (steps n (new ops))) as [E|[E Hlt]];
    rewrite E; [lia|]. rewrite Ho in Hlt. lia.
Qed.

End SimulationHistory.

(** X13. A simulation of n calls of nextStep on a new lock manager has
    recorded exactly n + 1 snapshots, the first of which is the initial state;
    the snapshots recorded by the first k calls are never changed by later
    calls; the manager's lock table, statuses and queue are those of the last
    snapshot; and the index of the current operation is at least -1, below n
    and never past the last operation of the schedule. *)
Theorem simulation_history (n : nat) (ops : list Operation) :
  let m := LM.steps n (LM.new ops) in
  length (LM.getAllSteps m) = S n
  /\ head (LM.getAllSteps m)
     = Some (LM.initialStep (LM.initializeTransactionStatuses ops))
  /\ (forall k, (k <= n)%nat ->
        take (S k) (LM.getAllSteps m) = LM.getAllSteps (LM.steps k (LM.new ops)))
  /\ LockSpec.snapshotCurrent m
  /\ operations m = ops
  /\ (-1 <= currentStepIndex m <= Z.of_nat (length ops) - 1)%Z
  /\ (currentStepIndex m < Z.of_nat n)%Z.
Proof.
  intros m. subst m. unfold LM.getAllSteps.
  assert (Hlen : forall k, length (history (LM.steps k (LM.new ops))) = S k).
  { intros k. rewrite steps_history_length. reflexivity. }
  assert (Hpre : forall k, (k <= n)%nat ->
            take (S k) (history (LM.steps n (LM.new ops)))
            = history (LM.steps k (LM.new ops))).
  { intros k Hk. destruct (steps_history_prefix k n (LM.new ops) Hk) as [later ->].
    rewrite <- (Hlen k). apply take_app_length. }
  split; [apply Hlen|]. split.
  - pose proof (Hpre 0%nat (Nat.le_0_l n)) as H0. simpl in H0.
    destruct (history (LM.steps n (LM.new ops))) as [|h t]; [discriminate H0|].
    simpl in H0. injection H0 as ->. reflexivity.
  - split; [exact Hpre|].
    destruct (steps_snapshotCurrent n ops) as [Hs Ho].
    destruct (steps_index_bounds n ops) as [Hb Hn]. auto.
Qed.
